(** * vbolt: a typed storage layer over an ordered key/value store

    This development embeds the core of the [vbolt] package in Rocq and
    proves properties of its prefix iteration engine ([raw.go]), of the
    bidirectional term/target index, of the typed bucket, of the
    collections ([collections.go]) and of the sequence of a bucket.

    Layout: the first part holds the model (byte strings, the ordered
    store and its cursor, the codec interface, then the functions of the
    package, each under the name it has in the source); the second part
    holds the lemmas and theorems. *)

From Stdlib Require Import List ZArith NArith Lia Bool.
From Stdlib Require String.
From Stdlib Require Import Permutation Sorted Eqdep_dec.
From Stdlib Require Import Strings.Byte.
Import ListNotations.

Set Implicit Arguments.

(* ================================================================== *)
(** * Part I: the model *)
(* ================================================================== *)

(** ** Byte strings ([[]byte]) and the functions of Go's [bytes] package
    that the code calls. *)

Definition bytes := list byte.

Definition byte_compare (x y : byte) : comparison :=
  N.compare (Byte.to_N x) (Byte.to_N y).

(** [bytes.Compare]: lexicographic comparison of byte strings. *)
Fixpoint Compare (a b : bytes) : comparison :=
  match a, b with
  | [], [] => Eq
  | [], _ :: _ => Lt
  | _ :: _, [] => Gt
  | x :: a', y :: b' =>
      match byte_compare x y with
      | Eq => Compare a' b'
      | c => c
      end
  end.

(** [bytes.Equal]. *)
Definition Equal (a b : bytes) : bool :=
  match Compare a b with Eq => true | _ => false end.

(** [bytes.HasPrefix s prefix]. *)
Fixpoint HasPrefix (s prefix : bytes) {struct prefix} : bool :=
  match prefix with
  | [] => true
  | p :: prefix' =>
      match s with
      | [] => false
      | x :: s' => Byte.eqb x p && HasPrefix s' prefix'
      end
  end.

Definition bytes_lt (a b : bytes) : Prop := Compare a b = Lt.
Definition bytes_le (a b : bytes) : Prop := Compare a b <> Gt.

(** [b + 1] on a [uint8]: wraps around at 256. *)
Definition byte_succ (b : byte) : byte :=
  match Byte.of_N ((Byte.to_N b + 1) mod 256) with
  | Some b' => b'
  | None => x00
  end.

(** The byte holding [n mod 256]. *)
Definition byte_of_N (n : N) : byte :=
  match Byte.of_N (n mod 256) with
  | Some b => b
  | None => x00
  end.

(* ------------------------------------------------------------------ *)
(** ** The ordered store (package [bolt], outside the repository)

    The engine is modelled by what the package relies on: a bucket is
    an ordered map from byte strings to byte strings, kept here as the
    list of its entries in ascending key order; a cursor is a position
    in that list.  Limits of the engine (key and value sizes, I/O
    failures) are not modelled. *)

Module Bolt.

Definition entry := (bytes * bytes)%type.

(** The entries of a bucket, keys strictly ascending. *)
Definition BBucket := list entry.

Definition keys_ascending (b : BBucket) : Prop :=
  StronglySorted bytes_lt (map fst b).

(** [bkt.Get(key)]: [None] stands for the nil slice of a missing key. *)
Fixpoint Get (b : BBucket) (key : bytes) : option bytes :=
  match b with
  | [] => None
  | (k, v) :: rest =>
      match Compare key k with
      | Eq => Some v
      | Lt => None
      | Gt => Get rest key
      end
  end.

(** [bkt.Put(key, value)]. *)
Fixpoint Put (b : BBucket) (key value : bytes) : BBucket :=
  match b with
  | [] => [(key, value)]
  | (k, v) :: rest =>
      match Compare key k with
      | Eq => (key, value) :: rest
      | Lt => (key, value) :: (k, v) :: rest
      | Gt => (k, v) :: Put rest key value
      end
  end.

(** [bkt.Delete(key)]. *)
Fixpoint Delete (b : BBucket) (key : bytes) : BBucket :=
  match b with
  | [] => []
  | (k, v) :: rest =>
      match Compare key k with
      | Eq => rest
      | Lt => (k, v) :: rest
      | Gt => (k, v) :: Delete rest key
      end
  end.

(** A cursor over a bucket: the entries before the position, nearest
    first, and the entries from the position on.  The position is past
    the end when [ahead] is empty. *)
Record Cursor := mkCursor { behind : list entry; ahead : list entry }.

Definition entries (c : Cursor) : list entry := rev_append (behind c) (ahead c).

(** [bkt.Cursor()]. *)
Definition Cursor_of (b : BBucket) : Cursor := mkCursor [] b.

(** Each cursor method returns the entry it lands on ([None] for the
    nil key) and the moved cursor. *)
Definition First (c : Cursor) : option entry * Cursor :=
  let b := entries c in (hd_error b, mkCursor [] b).

Definition Last (c : Cursor) : option entry * Cursor :=
  match rev (entries c) with
  | [] => (None, mkCursor [] [])
  | e :: before => (Some e, mkCursor before [e])
  end.

Fixpoint seek_from (key : bytes) (before rest : list entry) : Cursor :=
  match rest with
  | [] => mkCursor before []
  | e :: rest' =>
      match Compare (fst e) key with
      | Lt => seek_from key (e :: before) rest'
      | _ => mkCursor before rest
      end
  end.

(** [c.Seek(key)]: the first entry whose key is not below [key]. *)
Definition Seek (c : Cursor) (key : bytes) : option entry * Cursor :=
  let c' := seek_from key [] (entries c) in (hd_error (ahead c'), c').

(** [c.Next()]; at the end it answers nil. *)
Definition Next (c : Cursor) : option entry * Cursor :=
  match ahead c with
  | [] => (None, c)
  | e :: rest => (hd_error rest, mkCursor (e :: behind c) rest)
  end.

(** [c.Prev()]; at the start it answers nil.  After a [Seek] that ran
    past the end it answers the last entry. *)
Definition Prev (c : Cursor) : option entry * Cursor :=
  match behind c with
  | [] => (None, c)
  | e :: before => (Some e, mkCursor before (e :: ahead c))
  end.

End Bolt.

Import Bolt.

(* ------------------------------------------------------------------ *)
(** ** raw.go: helpers that buckets and indexes are built on *)

Definition IterationDirection := N.  (* uint8 *)

Definition IterateRegular : IterationDirection := 0%N.
Definition IterateReverse : IterationDirection := 1%N.

Record Window := mkWindow {
  Limit : Z;                      (* 0 means unlimited *)
  Offset : Z;                     (* if both offset and cursor are set, cursor is used *)
  Cursor : bytes;
  Direction : IterationDirection
}.

Record _RawIterationParams := mkParams {
  Prefix : bytes;
  Window_of :> Window
}.

Definition _CursorStartPos (c : Bolt.Cursor) (direction : IterationDirection)
  : option entry * Bolt.Cursor :=
  if (direction =? IterateRegular)%N then First c
  else if (direction =? IterateReverse)%N then Last c
  else (None, c).

(** The index of the last byte of [b] below 0xff, searched downwards
    from index [i - 1]: the loop
    [for ; i >= 0 && b[i] == 255; i-- {}]. *)
Fixpoint last_below_ff (b : bytes) (i : nat) : option nat :=
  match i with
  | O => None
  | S j =>
      if Byte.eqb (nth j b x00) xff then last_below_ff b j else Some j
  end.

(** [next[i] += 1] on a clone of [b]. *)
Fixpoint incr_at (b : bytes) (i : nat) : bytes :=
  match b, i with
  | [], _ => []
  | x :: b', O => byte_succ x :: b'
  | x :: b', S j => x :: incr_at b' j
  end.

Definition _NextPrefix (b : bytes) : bytes :=
  match last_below_ff b (length b) with
  | Some i => incr_at b i
  | None => b ++ [x00]
  end.

Definition _CursorStartPosForPrefix (c : Bolt.Cursor) (prefix : bytes)
    (direction : IterationDirection) : option entry * Bolt.Cursor :=
  if (length prefix =? 0)%nat then _CursorStartPos c direction
  else if (direction =? IterateRegular)%N then Seek c prefix
  else if (direction =? IterateReverse)%N then
    let next := _NextPrefix prefix in
    let (_, c') := Seek c next in
    Prev c'
  else (None, c).

Definition _CursorStep (c : Bolt.Cursor) (direction : IterationDirection)
  : option entry * Bolt.Cursor :=
  if (direction =? IterateRegular)%N then Next c
  else if (direction =? IterateReverse)%N then Prev c
  else (None, c).

(** [RawHasKey]; [None] is the nil bucket. *)
Definition RawHasKey (bkt : option BBucket) (key : bytes) : bool :=
  match bkt with
  | None => false
  | Some b =>
      match fst (Seek (Cursor_of b) key) with
      | Some (k, _) => Equal key k
      | None => Equal key []
      end
  end.

Section RawIterate.

(** The visitor is a closure; [St] is the state it captures and
    updates, the boolean is its answer. *)
Variable St : Type.
Variable visitFn : St -> bytes -> bytes -> bool * St.

(** The offset loop; [None] is its early [return nil]. *)
Fixpoint skip_offset (n : nat) (direction : IterationDirection)
    (crsr : Bolt.Cursor) (kv : option entry)
  : option (option entry * Bolt.Cursor) :=
  match n with
  | O => Some (kv, crsr)
  | S n' =>
      let (kv', crsr') := _CursorStep crsr direction in
      match kv' with
      | None => None
      | Some _ => skip_offset n' direction crsr' kv'
      end
  end.

(** The yield loop.  [fuel] bounds the number of iterations; the
    caller passes one more than the number of entries, which the loop
    never uses up (lemma [yield_loop_fuel]). *)
Fixpoint yield_loop (fuel : nat) (window : _RawIterationParams)
    (crsr : Bolt.Cursor) (kv : option entry) (count : Z) (s : St)
  : option entry * Bolt.Cursor * St :=
  match fuel with
  | O => (kv, crsr, s)
  | S fuel' =>
      match kv with
      | None => (kv, crsr, s)
      | Some (key, value) =>
          if HasPrefix key (Prefix window) then
            let (cont, s') := visitFn s key value in
            if negb cont then (kv, crsr, s')
            else
              let count' := (count + 1)%Z in
              if (Limit window >? 0)%Z && (count' >=? Limit window)%Z
              then (kv, crsr, s')
              else
                let (kv', crsr') := _CursorStep crsr (Direction window) in
                yield_loop fuel' window crsr' kv' count' s'
          else (kv, crsr, s)
      end
  end.

(** [_RawIterateCore]: returns the resume key and the visitor's final
    state. *)
Definition _RawIterateCore (bkt : BBucket) (window : _RawIterationParams)
    (s : St) : option bytes * St :=
  let crsr := Cursor_of bkt in
  let start :=
    if (0 <? length (Cursor window))%nat then Cursor window else Prefix window in
  let (kv, crsr) := _CursorStartPosForPrefix crsr start (Direction window) in
  let positioned :=
    if (Offset window >? 0)%Z
    then skip_offset (Z.to_nat (Offset window)) (Direction window) crsr kv
    else Some (kv, crsr) in
  match positioned with
  | None => (None, s)
  | Some (kv, crsr) =>
      match yield_loop (S (length bkt)) window crsr kv 0%Z s with
      | (Some _, crsr, s') =>
          (option_map fst (fst (_CursorStep crsr (Direction window))), s')
      | (None, _, s') => (None, s')
      end
  end.

End RawIterate.

(* ------------------------------------------------------------------ *)
(** ** The codec interface (package [vpack], outside the repository)

    A [PackFn] is one routine that appends the encoding of a value to a
    write buffer and fills a value from a read buffer.  It is taken here
    as the pair of its two modes: [pack] gives the bytes it appends,
    [unpack] the value it reads and the bytes left over, or [None] when
    it cannot read a value. *)

Module vpack.

Record PackFn (X : Type) := mkPackFn {
  pack : X -> bytes;
  unpack : bytes -> option (X * bytes)
}.

(** [vpack.ToBytes(item, fn)]. *)
Definition ToBytes X (item : X) (fn : PackFn X) : bytes := pack fn item.

(** [vpack.FromBytesInto(data, item, fn)]: the success flag and the
    item, which keeps its old value when nothing could be read. *)
Definition FromBytesInto X (data : bytes) (item : X) (fn : PackFn X)
  : bool * X :=
  match unpack fn data with
  | Some (x, _) => (true, x)
  | None => (false, item)
  end.

(** A read buffer: the bytes not yet consumed, or [None] once a read
    has failed (later reads then do nothing). *)
Definition Buffer := option bytes.

Definition NewReader (data : bytes) : Buffer := Some data.

(** [buf.Pos++]. *)
Definition skip_byte (buf : Buffer) : Buffer :=
  match buf with
  | Some (_ :: rest) => Some rest
  | _ => None
  end.

(** [fn(&item, buf)] on a read buffer. *)
Definition read X (fn : PackFn X) (item : X) (buf : Buffer) : X * Buffer :=
  match buf with
  | None => (item, None)
  | Some data =>
      match unpack fn data with
      | Some (x, rest) => (x, Some rest)
      | None => (item, None)
      end
  end.

(** [uint16]. *)
Record uint16 := mk_uint16 {
  u16_val : N;
  u16_range : (u16_val <? 65536)%N = true
}.

Definition uint16_of_N (n : N) : uint16 :=
  mk_uint16 (n mod 65536)
    (proj2 (N.ltb_lt _ _) (N.mod_lt n 65536 ltac:(discriminate))).

(** [vpack.FUInt16]: fixed width, big-endian. *)
Definition FUInt16 : PackFn uint16 :=
  mkPackFn (fun p => [byte_of_N (u16_val p / 256); byte_of_N (u16_val p)])
           (fun data => match data with
                        | hi :: lo :: rest =>
                            Some (uint16_of_N (Byte.to_N hi * 256 + Byte.to_N lo), rest)
                        | _ => None
                        end).

End vpack.

Import vpack.

(** The nil slice that [Get] returns for a missing key reads as the
    empty slice. *)
Definition slice_of (v : option bytes) : bytes :=
  match v with Some d => d | None => [] end.

(** ** Go types: zero values, [==] and maps *)

Class HasZero (X : Type) := zero : X.

(** [comparable]: the type supports [==]. *)
Class Comparable (X : Type) := equal : X -> X -> bool.

Definition Comparable_ok X {C : Comparable X} : Prop :=
  forall x y : X, equal x y = true <-> x = y.

(** A Go [map[A]B], kept as the list of its entries (one per key). *)
Definition GoMap (A B : Type) := list (A * B).

#[export] Instance uint16_zero : HasZero uint16 := uint16_of_N 0.
#[export] Instance uint16_comparable : Comparable uint16 :=
  fun a b => (u16_val a =? u16_val b)%N.

Section GoMaps.
Variables A B : Type.
Context {CA : Comparable A}.

(** [v, ok := m[k]]. *)
Fixpoint map_get (m : GoMap A B) (k : A) : option B :=
  match m with
  | [] => None
  | (k', v) :: m' => if equal k k' then Some v else map_get m' k
  end.

(** [m[k] = v]. *)
Fixpoint map_set (m : GoMap A B) (k : A) (v : B) : GoMap A B :=
  match m with
  | [] => [(k, v)]
  | (k', v') :: m' =>
      if equal k k' then (k, v) :: m' else (k', v') :: map_set m' k v
  end.
End GoMaps.

(** Go's [int] is 64 bits wide: sums wrap around. *)
Definition wrap_int (z : Z) : Z := ((z + 2 ^ 63) mod 2 ^ 64 - 2 ^ 63)%Z.
Definition int_max : Z := (2 ^ 63 - 1)%Z.

(* ------------------------------------------------------------------ *)
(** ** The index (file with [IndexInfo[K, T, P]])

    The index functions take a transaction and look their bucket up by
    name with [TxRawBucket]; inside the writable transaction they are
    specified for, that lookup always yields the index's own bucket, so
    the functions are written here over that bucket's contents. *)

Definition IndexTermPrefix : byte := x01.
Definition IndexTargetPrefix : byte := x02.
Definition IndexCountPrefix : byte := x03.

Record IndexInfo (K T P : Type) := mkIndexInfo {
  Name : String.string;
  TargetPackFn : PackFn K;
  TermPackFn : PackFn T;
  PriorityPackFn : PackFn P
}.

(** The catalogue of the buckets and indexes of a database. *)
Record Info := mkInfo {
  BucketList : list String.string;
  IndexList : list String.string
}.

(** [IndexExt]: registers the name and builds the descriptor. *)
Definition IndexExt (K T P : Type) (dbInfo : Info) (name : String.string)
    (termFn : PackFn T) (priorityFn : PackFn P) (targetFn : PackFn K)
  : Info * IndexInfo K T P :=
  (mkInfo (BucketList dbInfo) (IndexList dbInfo ++ [name]),
   mkIndexInfo name targetFn termFn priorityFn).

(** [Index]: an index with the default priority type, [uint16]
    written by [FUInt16]. *)
Definition Index (K T : Type) (dbInfo : Info) (name : String.string)
    (termFn : PackFn T) (targetFn : PackFn K)
  : Info * IndexInfo K T uint16 :=
  IndexExt dbInfo name termFn FUInt16 targetFn.

(** [RawMustPut]: the put itself; it panics only when the engine
    refuses the write. *)
Definition RawMustPut (bkt : BBucket) (key value : bytes) : BBucket :=
  Put bkt key value.

Section Index.

Variables K T P : Type.
Context {ZK : HasZero K} {ZT : HasZero T} {ZP : HasZero P}.
Context {CT : Comparable T} {CP : Comparable P}.

(** Go leaves the order of a [range] over a map unspecified:
    [range_order] is the order in which the entries come.  The
    outcome of [SetTargetTerms] does not depend on it (lemma
    [SetTargetTerms_order_irrelevant]). *)
Variable range_order : GoMap T P -> GoMap T P.

(** [var PackCountFn = vpack.Int]. *)
Variable PackCountFn : PackFn Z.

Variable indexInfo : IndexInfo K T P.

Definition _TermKeyPrefix (term : T) : bytes :=
  IndexTermPrefix :: pack (TermPackFn indexInfo) term.

Definition _TargetKeyPrefix (target : K) : bytes :=
  IndexTargetPrefix :: pack (TargetPackFn indexInfo) target.

Definition _TermTargetKey (target : K) (term : T) (priority : P) : bytes :=
  IndexTermPrefix :: pack (TermPackFn indexInfo) term
    ++ pack (PriorityPackFn indexInfo) priority
    ++ pack (TargetPackFn indexInfo) target.

Definition _TermCountKey (term : T) : bytes :=
  IndexCountPrefix :: pack (TermPackFn indexInfo) term.

Definition _ReadTargetTerm (data : bytes) : K * T :=
  let buf := skip_byte (NewReader data) in
  let (target, buf) := read (TargetPackFn indexInfo) zero buf in
  let (term, _) := read (TermPackFn indexInfo) zero buf in
  (target, term).

Definition _TargetTermKey (target : K) (term : T) : bytes :=
  IndexTargetPrefix :: pack (TargetPackFn indexInfo) target
    ++ pack (TermPackFn indexInfo) term.

Definition _IncTermCount (bkt : BBucket) (term : T) (increment : Z)
  : BBucket :=
  let key := _TermCountKey term in
  let v := Get bkt key in
  let count := snd (FromBytesInto (slice_of v) 0%Z PackCountFn) in
  let count := wrap_int (count + increment) in
  RawMustPut bkt key (ToBytes count PackCountFn).

(** [ReadTermCount(tx, indexInfo, term, &count)]: the flag and the
    count left in the caller's variable, which starts as [count]. *)
Definition ReadTermCount (bkt : BBucket) (term : T) (count : Z) : bool * Z :=
  let key := _TermCountKey term in
  let v := Get bkt key in
  FromBytesInto (slice_of v) count PackCountFn.

Definition _AddTargetTermPair (bkt : BBucket) (target : K) (term : T)
    (priority : P) : BBucket :=
  let val := ToBytes priority (PriorityPackFn indexInfo) in
  let bkt := Put bkt (_TermTargetKey target term priority) [] in
  Put bkt (_TargetTermKey target term) val.

Definition _DelTargetTermPair (bkt : BBucket) (target : K) (term : T)
    (priority : P) : BBucket :=
  let targetTermKey := _TargetTermKey target term in
  let bkt := Delete bkt (_TermTargetKey target term priority) in
  Delete bkt targetTermKey.

Definition UniformTerms (terms : list T) (priority : P) : GoMap T P :=
  fold_left (fun out t => map_set out t priority) terms [].

Definition _PlainTerms (terms : list T) : GoMap T P :=
  UniformTerms terms zero.

Definition _ReadTermTargetPriority (data : bytes) : T * K * P :=
  let buf := skip_byte (NewReader data) in
  let (term, buf) := read (TermPackFn indexInfo) zero buf in
  let (priority, buf) := read (PriorityPackFn indexInfo) zero buf in
  let (target, _) := read (TargetPackFn indexInfo) zero buf in
  (term, target, priority).

Section Iteration.
Variable St : Type.

(** iterate over targets that are assigned to term *)
Definition _IterateTermCore (bkt : BBucket) (term : T) (window : Window)
    (visitFn : St -> K -> P -> bool * St) (s : St) : option bytes * St :=
  let keyPrefix := _TermKeyPrefix term in
  let iterParams := mkParams keyPrefix window in
  _RawIterateCore
    (fun s key v =>
       let '(_, target, priority) := _ReadTermTargetPriority key in
       visitFn s target priority)
    bkt iterParams s.

Definition IterateTerm (bkt : BBucket) (term : T)
    (visitFn : St -> K -> P -> bool * St) (s : St) : option bytes * St :=
  _IterateTermCore bkt term (mkWindow 0 0 [] 0%N) visitFn s.

(** iterate over terms that are assigned to target *)
Definition IterateTarget (bkt : BBucket) (target : K)
    (visitFn : St -> T -> P -> bool * St) (s : St) : St :=
  let keyPrefix := _TargetKeyPrefix target in
  let window := mkParams keyPrefix (mkWindow 0 0 [] IterateRegular) in
  snd (_RawIterateCore
         (fun s key v =>
            let '(_, term) := _ReadTargetTerm key in
            let priority :=
              snd (FromBytesInto v zero (PriorityPackFn indexInfo)) in
            visitFn s term priority)
         bkt window s).

Definition IterateAllTerms (bkt : BBucket)
    (visitFn : St -> T -> K -> P -> bool * St) (s : St) : St :=
  let keyPrefix := [IndexTermPrefix] in
  let window := mkParams keyPrefix (mkWindow 0 0 [] IterateRegular) in
  snd (_RawIterateCore
         (fun s key v =>
            let '(term, target, priority) := _ReadTermTargetPriority key in
            visitFn s term target priority)
         bkt window s).
End Iteration.

(** [ReadTermTargets(tx, indexInfo, term, &targets, window)]: the
    resume key and the slice after the appends. *)
Definition ReadTermTargets (bkt : BBucket) (term : T) (targets : list K)
    (window : Window) : option bytes * list K :=
  _IterateTermCore bkt term window
    (fun targets target priority => (true, targets ++ [target])) targets.

Definition ReadTermTargetSingle (bkt : BBucket) (term : T) (target : K)
  : bool * K :=
  let opts := mkWindow 1 0 [] 0%N in
  let (_, targets) := ReadTermTargets bkt term [] opts in
  match targets with
  | t0 :: _ => (true, t0)
  | [] => (false, target)
  end.

(** Updates target,term pairs so that only the terms provided here
    point to target.  [terms] maps the term to the priority. *)
Definition SetTargetTerms (bkt : BBucket) (target : K) (terms : GoMap T P)
  : BBucket :=
  let existing :=
    IterateTarget bkt target
      (fun existing term priority => (true, map_set existing term priority))
      [] in
  let del :=
    fold_left
      (fun del '(e, priority) =>
         match map_get terms e with
         | Some newPriority =>
             if negb (equal priority newPriority)
             then map_set del e priority   (* deleting the old priority! *)
             else del
         | None => map_set del e priority
         end)
      (range_order existing) [] in
  let add :=
    fold_left
      (fun add '(t, newPriority) =>
         match map_get existing t with
         | Some priority =>
             if negb (equal priority newPriority)
             then map_set add t newPriority
             else add
         | None => map_set add t newPriority
         end)
      (range_order terms) [] in
  let bkt :=
    fold_left
      (fun bkt '(term, priority) =>
         let bkt := _DelTargetTermPair bkt target term priority in
         _IncTermCount bkt term (-1))
      (range_order del) bkt in
  fold_left
    (fun bkt '(term, priority) =>
       let bkt := _AddTargetTermPair bkt target term priority in
       _IncTermCount bkt term 1)
    (range_order add) bkt.

Definition SetTargetSingleTerm (bkt : BBucket) (target : K) (term : T)
  : BBucket :=
  SetTargetTerms bkt target (_PlainTerms [term]).

Definition SetTargetSingleTermExt (bkt : BBucket) (target : K)
    (priority : P) (term : T) : BBucket :=
  SetTargetTerms bkt target (UniformTerms [term] priority).

Definition DeleteTargetTerms (bkt : BBucket) (target : K) : BBucket :=
  SetTargetTerms bkt target [].

(** sets terms without priorities *)
Definition SetTargetTermsPlain (bkt : BBucket) (target : K)
    (terms : list T) : BBucket :=
  SetTargetTerms bkt target (_PlainTerms terms).

Definition SetTargetTermsUniform (bkt : BBucket) (target : K)
    (terms : list T) (priority : P) : BBucket :=
  SetTargetTerms bkt target (UniformTerms terms priority).

End Index.

(* ------------------------------------------------------------------ *)
(** ** Transactions and the typed bucket (file with [BucketInfo[K, T]]) *)

Record Tx := mkTx {
  Writable : bool;
  Buckets : list (String.string * BBucket)
}.

(** [tx.Bucket(name)]. *)
Fixpoint tx_Bucket (bs : list (String.string * BBucket)) (name : String.string)
  : option BBucket :=
  match bs with
  | [] => None
  | (n, b) :: bs' => if String.eqb n name then Some b else tx_Bucket bs' name
  end.

(** The bucket called [name] replaced by [b], or added. *)
Fixpoint set_bucket (bs : list (String.string * BBucket)) (name : String.string)
    (b : BBucket) : list (String.string * BBucket) :=
  match bs with
  | [] => [(name, b)]
  | (n, b') :: bs' =>
      if String.eqb n name then (n, b) :: bs' else (n, b') :: set_bucket bs' name b
  end.

(** [TxRawBucket]: the bucket ([None] for nil) and the transaction,
    which gains an empty bucket when it is writable and had none. *)
Definition TxRawBucket (tx : Tx) (name : String.string) : option BBucket * Tx :=
  match tx_Bucket (Buckets tx) name with
  | Some b => (Some b, tx)
  | None =>
      if Writable tx
      then (Some [], mkTx (Writable tx) (set_bucket (Buckets tx) name []))
      else (None, tx)
  end.

Record BucketInfo (K T : Type) := mkBucketInfo {
  BName : String.string;
  KeyPackFn : PackFn K;
  ValuePackFn : PackFn T
}.

Section Bucket.

Variables K T : Type.
Context {ZK : HasZero K} {CK : Comparable K} {ZT : HasZero T}.
Variable bucketInfo : BucketInfo K T.

Definition HasKey (tx : Tx) (id : K) : bool * Tx :=
  let (bkt, tx) := TxRawBucket tx (BName bucketInfo) in
  (RawHasKey bkt (ToBytes id (KeyPackFn bucketInfo)), tx).

(** [_Read(bkt, bucketInfo, id, item)]: the flag and the item. *)
Definition _Read (bkt : option BBucket) (id : K) (item : T) : bool * T :=
  match bkt with
  | None => (false, item)
  | Some b =>
      if equal id zero then (false, item)
      else
        let key := ToBytes id (KeyPackFn bucketInfo) in
        match Get b key with
        | None => (false, item)
        | Some data => FromBytesInto data item (ValuePackFn bucketInfo)
        end
  end.

Definition Read (tx : Tx) (id : K) (item : T) : bool * T * Tx :=
  let (bkt, tx) := TxRawBucket tx (BName bucketInfo) in
  (_Read bkt id item, tx).

(** ReadSlice reads objects given by ids, appending them to the given
    slice.  Returns the number of objects that were successfully read. *)
Definition ReadSlice (tx : Tx) (ids : list K) (list_ : list T)
  : Z * list T * Tx :=
  let (bkt, tx) := TxRawBucket tx (BName bucketInfo) in
  match bkt with
  | None => (0%Z, list_, tx)
  | Some _ =>
      (fold_left
         (fun '(count, list_) id =>
            let (ok, item) := _Read bkt id zero in
            if ok then ((count + 1)%Z, list_ ++ [item]) else (count, list_))
         ids (0%Z, list_),
       tx)
  end.

(** ReadSliceToMap reads objects given by id into the given map. *)
Definition ReadSliceToMap (tx : Tx) (ids : list K) (itemsMap : GoMap K T)
  : Z * GoMap K T * Tx :=
  let (bkt, tx) := TxRawBucket tx (BName bucketInfo) in
  match bkt with
  | None => (0%Z, itemsMap, tx)
  | Some _ =>
      (fold_left
         (fun '(count, itemsMap) id =>
            let (ok, item) := _Read bkt id zero in
            if ok then ((count + 1)%Z, map_set itemsMap id item)
            else (count, itemsMap))
         ids (0%Z, itemsMap),
       tx)
  end.

(** Writes an item to a key.  Note: does not write anything if id is
    the zero value.  [None] is the panic of [RawMustPut] on a nil
    bucket or a read-only transaction. *)
Definition Write (tx : Tx) (id : K) (item : T) : option Tx :=
  if equal id zero then Some tx
  else
    let (bkt, tx) := TxRawBucket tx (BName bucketInfo) in
    let key := ToBytes id (KeyPackFn bucketInfo) in
    let data := ToBytes item (ValuePackFn bucketInfo) in
    match bkt with
    | Some b =>
        if Writable tx
        then Some (mkTx (Writable tx)
                     (set_bucket (Buckets tx) (BName bucketInfo)
                        (RawMustPut b key data)))
        else None
    | None => None
    end.

End Bucket.

(* ------------------------------------------------------------------ *)
(** ** Codecs and values used in the examples

    Small codecs in the style of the library's: one byte, two bytes
    big-endian ([FUInt16], the default priority codec), eight bytes
    big-endian for the counts, and a zero-terminated string. *)

Module Sample.

Import String.StringSyntax.
Local Open Scope string_scope.

#[export] Instance byte_zero : HasZero byte := x00.
#[export] Instance byte_comparable : Comparable byte := Byte.eqb.

#[export] Instance bytes_zero : HasZero bytes := [].
#[export] Instance bytes_comparable : Comparable bytes := Equal.

(** A one-byte value written as itself. *)
Definition FByte : PackFn byte :=
  mkPackFn (fun b => [b])
           (fun data => match data with
                        | b :: rest => Some (b, rest)
                        | [] => None
                        end).

(** The [w] low bytes of [n], most significant first. *)
Fixpoint be_bytes (w : nat) (n : N) : bytes :=
  match w with
  | O => []
  | S w' => be_bytes w' (n / 256) ++ [byte_of_N n]
  end.

Definition be_value (data : bytes) : N :=
  fold_left (fun acc b => (acc * 256 + Byte.to_N b)%N) data 0%N.

(** A signed 64-bit count written as eight bytes, big-endian. *)
Definition FInt : PackFn Z :=
  mkPackFn (fun c => be_bytes 8 (Z.to_N (c mod 2 ^ 64)))
           (fun data =>
              if (length data <? 8)%nat then None
              else Some (wrap_int (Z.of_N (be_value (firstn 8 data))),
                         skipn 8 data)).

(** The bytes before the first zero byte, and the bytes after it. *)
Fixpoint split_zero (data : bytes) : option (bytes * bytes) :=
  match data with
  | [] => None
  | b :: rest =>
      if Byte.eqb b x00 then Some ([], rest)
      else match split_zero rest with
           | Some (s, rest') => Some (b :: s, rest')
           | None => None
           end
  end.

(** [vpack.StringZ]: the bytes of the string, then a zero byte. *)
Definition StringZ : PackFn bytes :=
  mkPackFn (fun s => s ++ [x00]) split_zero.

(** Targets and terms of one byte, [uint16] priorities. *)
Definition byteIndex : IndexInfo byte byte uint16 :=
  snd (Index (mkInfo [] []) "idx" FByte FByte).

(** String terms, as in the keyword index of the README. *)
Definition keywordIndex : IndexInfo byte bytes uint16 :=
  snd (Index (mkInfo [] []) "keywords-idx" StringZ FByte).

Definition in_order (A : Type) (m : list A) : list A := m.

Definition abc : bytes := [x61; x62; x63].
Definition klm : bytes := [x6b; x6c; x6d].
Definition lol : bytes := [x6c; x6f; x6c].
Definition rofl : bytes := [x72; x6f; x66; x6c].

Definition set_keywords :=
  SetTargetTerms (@in_order _) FInt keywordIndex.

(** Scenario S1 of the specification, with one-byte targets. *)
Definition S1 : BBucket :=
  let b := set_keywords [] x0a [(abc, uint16_of_N 1); (lol, uint16_of_N 2)] in
  let b := set_keywords b x0c
             [(abc, uint16_of_N 2); (klm, uint16_of_N 10); (lol, uint16_of_N 5)] in
  set_keywords b x0a [(lol, uint16_of_N 4); (rofl, uint16_of_N 7)].

Definition set_bytes := SetTargetTerms (@in_order _) FInt byteIndex.

(** The same scenario with one-byte terms. *)
Definition B1 : BBucket :=
  let b := set_bytes [] x0a [(x61, uint16_of_N 1); (x6c, uint16_of_N 2)] in
  let b := set_bytes b x0c
             [(x61, uint16_of_N 2); (x6b, uint16_of_N 10); (x6c, uint16_of_N 5)] in
  set_bytes b x0a [(x6c, uint16_of_N 4); (x72, uint16_of_N 7)].

Definition byteBucket : BucketInfo byte bytes :=
  mkBucketInfo "bytes" FByte StringZ.

End Sample.

(* ------------------------------------------------------------------ *)
(** ** Views of the store used in the statements *)

(** Where [Seek(start)] lands: the entries from the first key that is
    not below [start]. *)
Fixpoint seek_list (start : bytes) (b : list entry) : list entry :=
  match b with
  | [] => []
  | e :: b' =>
      match Compare (fst e) start with
      | Lt => seek_list start b'
      | _ => b
      end
  end.

Definition key_of_next (l : list entry) : option bytes :=
  option_map fst (hd_error l).

Section Scan.
Variable St : Type.
Variable visitFn : St -> bytes -> bytes -> bool * St.
Variables (prefix : bytes) (limit : Z).

(** A forward run of the yield loop over the entries [l] that lie
    ahead of the cursor, with the resume key it ends on. *)
Fixpoint scan (count : Z) (s : St) (l : list entry) : option bytes * St :=
  match l with
  | [] => (None, s)
  | (key, value) :: rest =>
      if HasPrefix key prefix then
        let (cont, s') := visitFn s key value in
        if negb cont then (key_of_next rest, s')
        else
          let count' := (count + 1)%Z in
          if (limit >? 0)%Z && (count' >=? limit)%Z
          then (key_of_next rest, s')
          else scan count' s' rest
      else (key_of_next rest, s)
  end.
End Scan.

(** The leading entries of [l] whose key begins with [prefix], and the
    entries from the first one that does not. *)
Fixpoint take_prefixed (prefix : bytes) (l : list entry) : list entry :=
  match l with
  | [] => []
  | e :: l' =>
      if HasPrefix (fst e) prefix then e :: take_prefixed prefix l' else []
  end.

Fixpoint drop_prefixed (prefix : bytes) (l : list entry) : list entry :=
  match l with
  | [] => []
  | e :: l' =>
      if HasPrefix (fst e) prefix then drop_prefixed prefix l' else l
  end.

(** A forward page, for a visitor that never halts: the entries it
    visits and the resume key it returns. *)
Definition page_start (window : _RawIterationParams) : bytes :=
  if (0 <? length (Cursor window))%nat then Cursor window else Prefix window.

Definition page_rows (b : BBucket) (window : _RawIterationParams)
  : list entry :=
  let run := take_prefixed (Prefix window) (seek_list (page_start window) b) in
  if (Limit window >? 0)%Z then firstn (Z.to_nat (Limit window)) run else run.

Definition page_resume (b : BBucket) (window : _RawIterationParams)
  : option bytes :=
  let l := seek_list (page_start window) b in
  if (Limit window >? 0)%Z
     && (Z.to_nat (Limit window) <=? length (take_prefixed (Prefix window) l))%nat
  then key_of_next (skipn (Z.to_nat (Limit window)) l)
  else key_of_next (tl (drop_prefixed (Prefix window) l)).

(** What [_RawIterateCore] makes of the outcome of its yield loop. *)
Definition finish (St : Type) (direction : IterationDirection)
    (r : option entry * Bolt.Cursor * St) : option bytes * St :=
  match r with
  | (Some _, crsr, s') =>
      (option_map fst (fst (_CursorStep crsr direction)), s')
  | (None, _, s') => (None, s')
  end.

(** The fuel a run of the yield loop needs from a given position. *)
Definition fuel_needed (direction : IterationDirection) (c : Bolt.Cursor)
    (kv : option entry) : nat :=
  match kv with
  | None => 0
  | Some _ =>
      if (direction =? IterateRegular)%N then Nat.max 1 (length (ahead c))
      else if (direction =? IterateReverse)%N then S (length (behind c))
      else 1
  end.

(** The entries of a bucket whose key begins with [prefix]. *)
Definition with_prefix (prefix : bytes) (b : BBucket) : list entry :=
  filter (fun e => HasPrefix (fst e) prefix) b.

(** A bound on [fuel_needed] that does not look at the last key. *)
Definition fuel_bound (direction : IterationDirection) (c : Bolt.Cursor) : nat :=
  if (direction =? IterateRegular)%N then S (length (ahead c))
  else if (direction =? IterateReverse)%N then S (length (behind c))
  else 1.

(* ------------------------------------------------------------------ *)
(** ** The contract of the codecs and the invariants of an index *)

Definition int_min : Z := (- 2 ^ 63)%Z.

(** Encodings are self-delimiting: the reader consumes exactly the
    bytes the writer wrote. *)
Definition self_delimiting X (fn : PackFn X) : Prop :=
  forall (x : X) (rest : bytes), unpack fn (pack fn x ++ rest) = Some (x, rest).

Section IndexViews.

Variables K T P : Type.
Context {ZK : HasZero K} {ZT : HasZero T} {ZP : HasZero P}.
Context {CT : Comparable T} {CP : Comparable P}.
Variable range_order : GoMap T P -> GoMap T P.
Variable PackCountFn : PackFn Z.
Variable indexInfo : IndexInfo K T P.

(** What the index asks of its environment. *)
Record index_ok : Prop := mk_index_ok {
  ok_term_eq : Comparable_ok (X := T);
  ok_priority_eq : Comparable_ok (X := P);
  ok_target : self_delimiting (TargetPackFn indexInfo);
  ok_term : self_delimiting (TermPackFn indexInfo);
  ok_priority : self_delimiting (PriorityPackFn indexInfo);
  ok_count : forall c : Z, (int_min <= c <= int_max)%Z ->
    exists rest, unpack PackCountFn (pack PackCountFn c) = Some (c, rest);
  ok_count_nil : unpack PackCountFn [] = None;
  ok_range : forall m : GoMap T P, Permutation (range_order m) m
}.

(** The three kinds of rows. *)
Definition forward_row (key value : bytes) : Prop :=
  exists t p k, key = _TermTargetKey indexInfo k t p /\ value = [].

Definition reverse_row (key value : bytes) : Prop :=
  exists k t p, key = _TargetTermKey indexInfo k t
                /\ value = pack (PriorityPackFn indexInfo) p.

Definition count_row (key value : bytes) : Prop :=
  exists t c, key = _TermCountKey indexInfo t
              /\ value = pack PackCountFn c /\ (int_min <= c <= int_max)%Z.

(** The forward rows of a term: the entries under its key prefix. *)
Definition term_rows (b : BBucket) (t : T) : list entry :=
  with_prefix (_TermKeyPrefix indexInfo t) b.

Record index_inv (b : BBucket) : Prop := mk_index_inv {
  inv_ascending : keys_ascending b;
  inv_rows : forall key value, Get b key = Some value ->
    forward_row key value \/ reverse_row key value \/ count_row key value;
  inv_pair : forall t p k,
    Get b (_TermTargetKey indexInfo k t p) <> None <->
    Get b (_TargetTermKey indexInfo k t)
    = Some (pack (PriorityPackFn indexInfo) p);
  inv_count : forall t,
    snd (ReadTermCount PackCountFn indexInfo b t 0)
    = wrap_int (Z.of_nat (length (term_rows b t)));
  inv_count_row : forall t,
    term_rows b t <> [] -> Get b (_TermCountKey indexInfo t) <> None
}.

(** The count row of a term after [SetTargetTerms], from the state
    before, the map [existing] and the requested terms: one less when
    the pairing is removed, one more when it is added. *)
Definition existing_terms (b : BBucket) (target : K) : GoMap T P :=
  IterateTarget indexInfo b target
    (fun existing term priority => (true, map_set existing term priority))
    [].

Definition bump (v : option bytes) (d : Z) : option bytes :=
  Some (pack PackCountFn
          (wrap_int (snd (FromBytesInto (slice_of v) 0%Z PackCountFn) + d))).

Definition differs (m m' : GoMap T P) (t : T) : bool :=
  match map_get m t with
  | Some p =>
      match map_get m' t with
      | Some p' => negb (equal p p')
      | None => true
      end
  | None => false
  end.

Definition count_row_after (b : BBucket) (target : K) (terms : GoMap T P)
    (t : T) : option bytes :=
  let existing := existing_terms b target in
  let v := Get b (_TermCountKey indexInfo t) in
  let v := if differs existing terms t then bump v (-1) else v in
  if differs terms existing t then bump v 1 else v.

(** A Go map holds one entry per key. *)
Definition is_map (m : GoMap T P) : Prop := NoDup (map fst m).

(** The states of an index: what the operations that write to it
    make of the empty bucket. *)
Inductive reachable : BBucket -> Prop :=
| reach_empty : reachable []
| reach_SetTargetTerms b target terms :
    reachable b -> is_map terms ->
    reachable (SetTargetTerms range_order PackCountFn indexInfo b target terms)
| reach_SetTargetSingleTerm b target term :
    reachable b ->
    reachable (SetTargetSingleTerm range_order PackCountFn indexInfo b target term)
| reach_SetTargetSingleTermExt b target priority term :
    reachable b ->
    reachable (SetTargetSingleTermExt range_order PackCountFn indexInfo b
                 target priority term)
| reach_DeleteTargetTerms b target :
    reachable b ->
    reachable (DeleteTargetTerms range_order PackCountFn indexInfo b target)
| reach_SetTargetTermsPlain b target terms :
    reachable b ->
    reachable (SetTargetTermsPlain range_order PackCountFn indexInfo b target terms)
| reach_SetTargetTermsUniform b target terms priority :
    reachable b ->
    reachable (SetTargetTermsUniform range_order PackCountFn indexInfo b
                 target terms priority).

(** The term and the priority that the visitor of [IterateTarget]
    decodes from a row, and the target and the priority that the
    visitor of [_IterateTermCore] decodes. *)
Definition row_term_priority (e : entry) : T * P :=
  (snd (_ReadTargetTerm indexInfo (fst e)),
   snd (FromBytesInto (snd e) zero (PriorityPackFn indexInfo))).

Definition row_target_priority (e : entry) : K * P :=
  let '(_, target, priority) := _ReadTermTargetPriority indexInfo (fst e) in
  (target, priority).

(** The order of the pairs of a term: by priority, then by the
    encoding of the target. *)
Definition pair_before (P_lt : P -> P -> Prop) (x y : K * P) : Prop :=
  P_lt (snd x) (snd y)
  \/ (snd x = snd y
      /\ bytes_lt (pack (TargetPackFn indexInfo) (fst x))
                  (pack (TargetPackFn indexInfo) (fst y))).

(** The pairs that a full [IterateTerm] delivers, in order. *)
Definition term_pairs (b : BBucket) (t : T) : list (K * P) :=
  snd (IterateTerm indexInfo b t
         (fun acc target priority => (true, acc ++ [(target, priority)])) []).

(** One page of [_IterateTermCore]: the resume key and the pairs. *)
Definition term_page (b : BBucket) (t : T) (window : Window)
  : option bytes * list (K * P) :=
  _IterateTermCore indexInfo b t window
    (fun acc target priority => (true, acc ++ [(target, priority)])) [].

(** The terms and priorities that [IterateTarget] delivers. *)
Definition target_pairs (b : BBucket) (k : K) : list (T * P) :=
  IterateTarget indexInfo b k
    (fun acc term priority => (true, acc ++ [(term, priority)])) [].

End IndexViews.

(* ------------------------------------------------------------------ *)
(** ** Runs of the engine in either direction *)

(** The entries before the place where [Seek(start)] lands. *)
Fixpoint below_list (start : bytes) (b : list entry) : list entry :=
  match b with
  | [] => []
  | e :: b' =>
      match Compare (fst e) start with
      | Lt => e :: below_list start b'
      | _ => []
      end
  end.

(** The entries that a run steps through from the position where
    [_CursorStartPosForPrefix] puts the cursor, in the order of the
    steps: ahead of the cursor in the regular direction, behind it in
    the reverse direction. *)
Definition run_list (b : BBucket) (window : _RawIterationParams)
  : list entry :=
  let start := page_start window in
  if (Direction window =? IterateRegular)%N then seek_list start b
  else if (Direction window =? IterateReverse)%N then
    if (length start =? 0)%nat then rev b
    else rev (below_list (_NextPrefix start) b)
  else [].

(** The cursor [c], with current entry [kv], stands on the first entry
    of the list [l] of entries still to step through. *)
Definition at_pos (direction : IterationDirection) (l : list entry)
    (kv : option entry) (c : Bolt.Cursor) : Prop :=
  kv = hd_error l
  /\ (direction = IterateRegular -> ahead c = l)
  /\ (direction = IterateReverse -> behind c = tl l)
  /\ (direction <> IterateRegular -> direction <> IterateReverse -> l = []).

(** What the offset loop leaves of the entries to step through;
    [None] when it runs into the end. *)
Definition after_offset (window : Window) (l : list entry)
  : option (list entry) :=
  if (Offset window >? 0)%Z then
    if (length l <=? Z.to_nat (Offset window))%nat then None
    else Some (skipn (Z.to_nat (Offset window)) l)
  else Some l.

(** A limit of zero or less means no limit. *)
Definition limited (A : Type) (limit : Z) (l : list A) : list A :=
  if (limit >? 0)%Z then firstn (Z.to_nat limit) l else l.

Section Recording.
Variable St : Type.
Variable visitFn : St -> bytes -> bytes -> bool * St.

(** The visitor [visitFn], made to keep the list of the entries it is
    called with beside its own state. *)
Definition recording (x : St * list entry) (key value : bytes)
  : bool * (St * list entry) :=
  let (cont, s') := visitFn (fst x) key value in
  (cont, (s', snd x ++ [(key, value)])).
End Recording.

(** The entries that a visitor which never halts is called with. *)
Definition visited (b : BBucket) (window : _RawIterationParams)
  : list entry :=
  snd (_RawIterateCore
         (fun seen key value => (true, seen ++ [(key, value)])) b window []).

(* ------------------------------------------------------------------ *)
(** ** The typed bucket, continued

    The remaining functions of the file with [BucketInfo[K, T]].  They
    live in a module of their own because [Delete] is also the name of
    the engine's operation.  A function that calls a method on the nil
    bucket (the bucket is missing and the transaction is read-only)
    panics; [None] stands for the panic. *)

(** What the engine accepts.  It refuses to put an entry whose key is
    empty or longer than [MaxKeySize] bytes, or whose value is longer
    than [MaxValueSize] bytes, and [RawMustPut] then panics; it refuses
    to create a bucket without a name, and [TxRawBucket] then panics.
    The theorems that promise that a write returns ask for an entry
    and a name that the engine accepts. *)
Definition MaxKeySize : Z := 32768.
Definition MaxValueSize : Z := 2 ^ 31 - 2.

Definition accepted (key value : bytes) : Prop :=
  key <> []
  /\ (Z.of_nat (length key) <= MaxKeySize)%Z
  /\ (Z.of_nat (length value) <= MaxValueSize)%Z.

Definition named (name : String.string) : Prop :=
  name <> String.EmptyString.

(** The outcome of a loop that is run with a bound on its rounds. *)
Inductive outcome (A : Type) : Type :=
| Returns (a : A)
| Panics
| Unfinished.

Arguments Panics {A}.
Arguments Unfinished {A}.

Module TypedBucket.
Section Ops.

Variables K T : Type.
Context {ZK : HasZero K} {CK : Comparable K} {ZT : HasZero T}.
Variable bucketInfo : BucketInfo K T.

(** like read slice but for reading one item and appending it to a
  list *)
Definition ReadAppend (tx : Tx) (id : K) (list_ : list T)
: bool * list T * Tx :=
let '(ok, item, tx) := Read bucketInfo tx id zero in
if ok then (true, list_ ++ [item], tx) else (false, list_, tx).

Definition ReadToMap (tx : Tx) (id : K) (itemsMap : GoMap K T)
: bool * GoMap K T * Tx :=
let '(ok, item, tx) := Read bucketInfo tx id zero in
if ok then (true, map_set itemsMap id item, tx)
else (false, itemsMap, tx).

(** [Delete]: the engine refuses the deletion in a read-only
  transaction, and the error is dropped. *)
Definition Delete (tx : Tx) (id : K) : option Tx :=
let (bkt, tx) := TxRawBucket tx (BName bucketInfo) in
let key := ToBytes id (KeyPackFn bucketInfo) in
match bkt with
| Some b =>
    if Writable tx
    then Some (mkTx (Writable tx)
                 (set_bucket (Buckets tx) (BName bucketInfo)
                    (Bolt.Delete b key)))
    else Some tx
| None => None
end.

Section Iteration.
Variable St : Type.

Definition _IterateAllCore (bkt : option BBucket)
  (direction : IterationDirection)
  (visitFn : St -> K -> T -> bool * St) (s : St) : option St :=
let iterParams := mkParams [] (mkWindow 0 0 [] direction) in
match bkt with
| None => None
| Some b =>
    Some (snd (_RawIterateCore
                 (fun s key value =>
                    let itemKey :=
                      snd (FromBytesInto key zero (KeyPackFn bucketInfo)) in
                    let item :=
                      snd (FromBytesInto value zero
                             (ValuePackFn bucketInfo)) in
                    visitFn s itemKey item)
                 b iterParams s))
end.

Definition IterateAll (tx : Tx) (visitFn : St -> K -> T -> bool * St)
  (s : St) : option (St * Tx) :=
let (bkt, tx) := TxRawBucket tx (BName bucketInfo) in
option_map (fun s => (s, tx))
  (_IterateAllCore bkt IterateRegular visitFn s).

Definition IterateAllReverse (tx : Tx)
  (visitFn : St -> K -> T -> bool * St) (s : St) : option (St * Tx) :=
let (bkt, tx) := TxRawBucket tx (BName bucketInfo) in
option_map (fun s => (s, tx))
  (_IterateAllCore bkt IterateReverse visitFn s).

(** IterateBucketFrom lets you specify the starting key using the
  userspace key type.  Returns the resume key beside the
  visitor's state. *)
Definition IterateBucketFrom (tx : Tx) (startKey : K)
  (visitFn : St -> K -> T -> bool * St) (s : St)
: option (option bytes * St * Tx) :=
let (bkt, tx) := TxRawBucket tx (BName bucketInfo) in
let iterParams :=
  mkParams (ToBytes startKey (KeyPackFn bucketInfo))
    (mkWindow 0 0 [] 0%N) in
match bkt with
| None => None
| Some b =>
    Some (_RawIterateCore
            (fun s key value =>
               let itemKey :=
                 snd (FromBytesInto key zero (KeyPackFn bucketInfo)) in
               let item :=
                 snd (FromBytesInto value zero (ValuePackFn bucketInfo)) in
               visitFn s itemKey item)
            b iterParams s,
          tx)
end.
End Iteration.

(** [ScanList(tx, bucketInfo, startKey, count, &items)]: the next
  key, the flag [done] and the slice after the appends. *)
Definition ScanList (tx : Tx) (startKey : K) (count : Z) (items : list T)
: option (K * bool * list T * Tx) :=
let (bkt, tx) := TxRawBucket tx (BName bucketInfo) in
let iterParams :=
  mkParams []
    (mkWindow count 0 (ToBytes startKey (KeyPackFn bucketInfo))
       IterateRegular) in
match bkt with
| None => None
| Some b =>
    let (nextKeyBytes, items) :=
      _RawIterateCore
        (fun items key value =>
           let item :=
             snd (FromBytesInto value zero (ValuePackFn bucketInfo)) in
           (true, items ++ [item]))
        b iterParams items in
    match nextKeyBytes with
    | None => Some (zero, true, items, tx)
    | Some kb =>
        Some (snd (FromBytesInto kb zero (KeyPackFn bucketInfo)),
              false, items, tx)
    end
end.

(** The loop of [IterateInBatches], for at most [rounds] rounds.  The
  list is emptied before each round, so every batch starts empty. *)
Fixpoint batches_loop (St : Type) (rounds : nat) (tx : Tx) (batchSize : Z)
  (visitFn : St -> list T -> bool * St) (key : K) (s : St)
: outcome (St * Tx) :=
match rounds with
| O => Unfinished
| S rounds' =>
    match ScanList tx key batchSize [] with
    | None => Panics
    | Some (key', done, list_, tx') =>
        let (cont, s') := visitFn s list_ in
        if negb cont then Returns (s', tx')
        else if done then Returns (s', tx')
        else batches_loop rounds' tx' batchSize visitFn key' s'
    end
end.

(** [IterateInBatches]; [make] panics on a negative capacity. *)
Definition IterateInBatches (St : Type) (rounds : nat) (tx : Tx)
  (batchSize : Z) (visitFn : St -> list T -> bool * St) (s : St)
: outcome (St * Tx) :=
if (batchSize <? 0)%Z then Panics
else batches_loop rounds tx batchSize visitFn zero s.

End Ops.
End TypedBucket.

(** [EnsureBuckets]: [None] is the panic in a read-only transaction. *)
Definition EnsureBuckets (tx : Tx) (dbInfo : Info) : option Tx :=
  if Writable tx then
    let tx := fold_left (fun tx name => snd (TxRawBucket tx name))
                (BucketList dbInfo) tx in
    let tx := fold_left (fun tx name => snd (TxRawBucket tx name))
                (IndexList dbInfo) tx in
    Some tx
  else None.

(** The pieces of size [n] that a list falls into; the last piece may
    be shorter, and an empty list is one empty piece. *)
Fixpoint chunks (A : Type) (rounds : nat) (n : nat) (l : list A)
  : list (list A) :=
  match rounds with
  | O => []
  | S rounds' =>
      if (length l <=? n)%nat then [l]
      else firstn n l :: chunks rounds' n (skipn n l)
  end.

(** The item that the visitors of the typed bucket decode from a
    value. *)
Definition item_of (T : Type) {ZT : HasZero T} (fn : PackFn T) (e : entry) : T :=
  snd (FromBytesInto (snd e) zero fn).

(** A codec reads back what it wrote. *)
Definition round_trip X (fn : PackFn X) : Prop :=
  forall x : X, exists rest, unpack fn (pack fn x) = Some (x, rest).

(** Every bucket of a transaction keeps its keys in ascending order, as
    the engine does. *)
Definition tx_ascending (tx : Tx) : Prop :=
  forall name b, tx_Bucket (Buckets tx) name = Some b -> keys_ascending b.

(** The key and the item that the visitors of the typed bucket decode
    from an entry. *)
Definition key_item_of (K T : Type) {ZK : HasZero K} {ZT : HasZero T}
    (bucketInfo : BucketInfo K T) (e : entry) : K * T :=
  (snd (FromBytesInto (fst e) zero (KeyPackFn bucketInfo)),
   item_of (ValuePackFn bucketInfo) e).

(** The names for which [EnsureBuckets] makes sure there is a bucket. *)
Definition ensured (dbInfo : Info) (n : String.string) : bool :=
  existsb (String.eqb n) (BucketList dbInfo ++ IndexList dbInfo).

(* ------------------------------------------------------------------ *)
(** ** Collections (file [collections.go])

    A collection keeps, for a key, items ordered by an order key, and
    for an item the keys of the collections it is in.  As for the
    index, the functions are written over the contents of the bucket
    of the collection. *)

Definition CKeyPrefix : byte := x10.
Definition CItemPrefix : byte := x12.
Definition CCountPrefix : byte := x13.

Record CollectionInfo (K O I : Type) := mkCollectionInfo {
  CName : String.string;
  KeyFn : PackFn K;
  OrderFn : PackFn O;
  ItemFn : PackFn I
}.

Section Collections.

Variables K O I : Type.
Context {ZK : HasZero K} {ZO : HasZero O} {ZI : HasZero I}.

(** [vpack.Int], the codec of the counts. *)
Variable PackIntFn : PackFn Z.

Variable info : CollectionInfo K O I.

(** The prefix for iterating on collection by key *)
Definition _CKeyPrefix (key : K) : bytes :=
  CKeyPrefix :: pack (KeyFn info) key.

(** The prefix for iterating on item (get all collections for item) *)
Definition _CItemPrefix (item : I) : bytes :=
  CItemPrefix :: pack (ItemFn info) item.

(** The full key for inserting *)
Definition _CKeyFull (key : K) (order : O) (item : I) : bytes :=
  CKeyPrefix :: pack (KeyFn info) key
    ++ pack (OrderFn info) order
    ++ pack (ItemFn info) item.

Definition _CRevKeyValue (key : K) (order : O) (item : I) : bytes * bytes :=
  (CItemPrefix :: pack (ItemFn info) item ++ pack (KeyFn info) key,
   ToBytes order (OrderFn info)).

Definition _CCountKey (key : K) : bytes :=
  CCountPrefix :: pack (KeyFn info) key.

Definition _ReadKeyOrderItem (bKey : bytes) : K * O * I :=
  let buf := skip_byte (NewReader bKey) in
  let (key, buf) := read (KeyFn info) zero buf in
  let (order, buf) := read (OrderFn info) zero buf in
  let (item, _) := read (ItemFn info) zero buf in
  (key, order, item).

Section Iteration.
Variable St : Type.

Definition _IterateCollectionCore (bkt : BBucket) (key : K)
    (direction : IterationDirection)
    (visit : St -> K -> O -> I -> bool * St) (s : St) : St :=
  let prefix := _CKeyPrefix key in
  let window := mkParams prefix (mkWindow 0 0 [] direction) in
  snd (_RawIterateCore
         (fun s bKey bValue =>
            let '(key, order, item) := _ReadKeyOrderItem bKey in
            visit s key order item)
         bkt window s).

Definition IterateCollection (bkt : BBucket) (key : K)
    (visit : St -> K -> O -> I -> bool * St) (s : St) : St :=
  _IterateCollectionCore bkt key IterateRegular visit s.

Definition IterateCollectionReverse (bkt : BBucket) (key : K)
    (visit : St -> K -> O -> I -> bool * St) (s : St) : St :=
  _IterateCollectionCore bkt key IterateReverse visit s.
End Iteration.

(** [ReadCollection(tx, info, key, &items, count)]: the slice after
    the appends.  The visitor's state is the slice and the number of
    items added. *)
Definition ReadCollection (bkt : BBucket) (key : K) (items : list I)
    (count : Z) : list I :=
  if (count <? 0)%Z then items
  else
    fst (IterateCollection bkt key
           (fun '(items, added) _k _o item =>
              let items := items ++ [item] in
              let added := wrap_int (added + 1) in
              ((added <? count)%Z, (items, added)))
           (items, 0%Z)).

Definition ReadCollectionReverse (bkt : BBucket) (key : K) (items : list I)
    (count : Z) : list I :=
  if (count <? 0)%Z then items
  else
    fst (IterateCollectionReverse bkt key
           (fun '(items, added) _k _o item =>
              let items := items ++ [item] in
              let added := wrap_int (added + 1) in
              ((added <? count)%Z, (items, added)))
           (items, 0%Z)).

(** [_IncCount]: the count is read from the key of the count row, not
    from the value that [Get] returned. *)
Definition _IncCount (bkt : BBucket) (key : K) (inc : Z) : BBucket :=
  let bKey := _CCountKey key in
  let bValue := Get bkt bKey in
  let fn := PackIntFn in
  let count := snd (FromBytesInto bKey 0%Z fn) in
  let count := wrap_int (count + inc) in
  let bValue := ToBytes count fn in
  Put bkt bKey bValue.

(** The key and the value that [Seek] returns; nil is the empty
    slice. *)
Definition seek_entry (bkt : BBucket) (key : bytes) : bytes * bytes :=
  match fst (Seek (Cursor_of bkt) key) with
  | Some e => e
  | None => ([], [])
  end.

Definition CollectionAddEntry (bkt : BBucket) (key : K) (order : O)
    (item : I) : BBucket :=
  (* item key and value *)
  let (iKey, iValue) := _CRevKeyValue key order item in
  (* check if this already exists: existing key and value *)
  let (eKey, eValue) := seek_entry bkt iKey in
  if Equal iKey eKey then
    if Equal iValue eValue then
      (* already exists with the same order, nothing to do *)
      bkt
    else
      let eOrder := snd (FromBytesInto eValue zero (OrderFn info)) in
      (* delete the existing *)
      let bkt := Delete bkt (_CKeyFull key eOrder item) in
      let bkt := Put bkt (_CKeyFull key order item) [] in
      Put bkt iKey iValue
  else
    let bkt := Put bkt (_CKeyFull key order item) [] in
    let bkt := Put bkt iKey iValue in
    _IncCount bkt key 1.

Definition CollectionRemoveEntry (bkt : BBucket) (key : K) (item : I)
  : BBucket :=
  (* starts out as the zero order *)
  let order : O := zero in
  let (iKey, _) := _CRevKeyValue key order item in
  let (eKey, eValue) := seek_entry bkt iKey in
  if negb (Equal iKey eKey) then
    (* entry does not exist, nothing to do *)
    bkt
  else
    let order := snd (FromBytesInto eValue order (OrderFn info)) in
    (* delete the entry, the reverse entry, and decrease the count *)
    let bkt := Delete bkt (_CKeyFull key order item) in
    let bkt := Delete bkt iKey in
    _IncCount bkt key (-1).

End Collections.

Section CollectionViews.

Variables K O I : Type.
Context {ZK : HasZero K} {ZO : HasZero O} {ZI : HasZero I}.
Variable PackIntFn : PackFn Z.
Variable info : CollectionInfo K O I.

(** What a collection asks of its codecs. *)
Record collection_ok : Prop := mk_collection_ok {
  cok_key : self_delimiting (KeyFn info);
  cok_order : self_delimiting (OrderFn info);
  cok_item : self_delimiting (ItemFn info)
}.

(** The key of the row that records, for an item, a collection it is
    in. *)
Definition member_key (key : K) (item : I) : bytes :=
  fst (_CRevKeyValue info key zero item).

(** The three kinds of rows of a collection bucket. *)
Definition entry_row (bKey bValue : bytes) : Prop :=
  exists key order item, bKey = _CKeyFull info key order item /\ bValue = [].

Definition member_row (bKey bValue : bytes) : Prop :=
  exists key order item,
    bKey = member_key key item /\ bValue = pack (OrderFn info) order.

Definition ccount_row (bKey : bytes) : Prop :=
  exists key, bKey = _CCountKey info key.

Record collection_inv (b : BBucket) : Prop := mk_collection_inv {
  cinv_ascending : keys_ascending b;
  cinv_rows : forall bKey bValue, Get b bKey = Some bValue ->
    entry_row bKey bValue \/ member_row bKey bValue \/ ccount_row bKey;
  cinv_pair : forall key order item,
    Get b (_CKeyFull info key order item) <> None <->
    Get b (member_key key item) = Some (pack (OrderFn info) order)
}.

(** The order keys and items that [IterateCollection] delivers for a
    key, in order. *)
Definition collection_entries (b : BBucket) (key : K) : list (O * I) :=
  IterateCollection info b key
    (fun acc _k order item => (true, acc ++ [(order, item)])) [].

(** The states of a collection: what additions and removals make of
    the empty bucket. *)
Inductive creachable : BBucket -> Prop :=
| creach_empty : creachable []
| creach_add b key order item :
    creachable b ->
    creachable (CollectionAddEntry PackIntFn info b key order item)
| creach_remove b key item :
    creachable b ->
    creachable (CollectionRemoveEntry PackIntFn info b key item).

End CollectionViews.

(* ------------------------------------------------------------------ *)
(** ** The sequence of a bucket ([raw.go])

    The engine keeps a 64-bit counter with every bucket.  It is written
    here beside the entries of the bucket.  The functions are those of a
    writable transaction (in a read-only one the engine refuses both
    operations). *)

Definition SeqBucket := (BBucket * N)%type.

(** [RawNextSequence]: the engine adds one to the counter and returns
    it. *)
Definition RawNextSequence (bucket : SeqBucket) : N * SeqBucket :=
  let seq := ((snd bucket + 1) mod 2 ^ 64)%N in
  (seq, (fst bucket, seq)).

(** [RawSetSequenceCorrectly]: the counter is set to the number read
    from the last key, with the codec [vpack.FUInt64], here [fn].
    [None] is the nil dereference when no number can be read. *)
Definition RawSetSequenceCorrectly (fn : PackFn N) (bucket : SeqBucket)
  : option SeqBucket :=
  let c := Cursor_of (fst bucket) in
  let (last, _) := Last c in
  let lastKeyBytes := match last with Some (k, _) => k | None => [] end in
  match unpack fn lastKeyBytes with
  | Some (seq, _) => Some (fst bucket, seq)
  | None => None
  end.

(** [NextIntId], on the bucket that [TxRawBucket] returns. *)
Definition NextIntId (bucket : SeqBucket) : Z * SeqBucket :=
  let (seq, bucket) := RawNextSequence bucket in
  (wrap_int (Z.of_N seq), bucket).

(* ------------------------------------------------------------------ *)
(** ** Further values used in the examples *)

Module Examples.

Import String.StringSyntax.
Local Open Scope string_scope.
Import Sample.

(** A bucket of one-byte keys and one-byte items. *)
Definition pairBucket : BucketInfo byte byte :=
  mkBucketInfo "pairs" FByte FByte.

Definition pairRows : BBucket :=
  [([x01], [x61]); ([x02], [x62]); ([x03], [x63])].

Definition pairTx (writable : bool) : Tx :=
  mkTx writable [(BName pairBucket, pairRows)].

(** The visitor that collects the entries it is called with. *)
Definition collect_rows (seen : list entry) (key value : bytes)
  : bool * list entry :=
  (true, seen ++ [(key, value)]).

(** A collection with one-byte keys, order keys and items, holding
    two items under the key 1. *)
Definition byteCollection : CollectionInfo byte byte byte :=
  mkCollectionInfo "coll" FByte FByte FByte.

Definition twoItems : BBucket :=
  let b := CollectionAddEntry FInt byteCollection [] x01 x05 x61 in
  CollectionAddEntry FInt byteCollection b x01 x03 x62.

(** The database of the sample index and the sample bucket. *)
Definition sampleInfo : Info := mkInfo ["pairs"] ["idx"].

(** A number below 2^64 written as eight bytes, big-endian, in the
    way of [FUInt16]. *)
Definition FUInt64 : PackFn N :=
  mkPackFn (fun n => be_bytes 8 n)
           (fun data =>
              if (length data <? 8)%nat then None
              else Some (be_value (firstn 8 data), skipn 8 data)).

(** A bucket whose keys are the numbers 1, 2 and 260. *)
Definition idRows : BBucket :=
  [(pack FUInt64 1%N, [x61]); (pack FUInt64 2%N, [x62]);
   (pack FUInt64 260%N, [x63])].

End Examples.

Unset Implicit Arguments.
Set Warnings "-notation-for-abbreviation".

(* ================================================================== *)
(** * Part II: proofs *)
(* ================================================================== *)

(** ** Byte strings and their order *)

Lemma byte_eqb_eq (x y : byte) : Byte.eqb x y = true <-> x = y.
Proof.
  split; [apply Byte.byte_dec_bl | apply Byte.byte_dec_lb].
Qed.

Lemma byte_eqb_refl (x : byte) : Byte.eqb x x = true.
Proof. now apply byte_eqb_eq. Qed.

Lemma to_N_inj (x y : byte) : Byte.to_N x = Byte.to_N y -> x = y.
Proof.
  intros H. apply (f_equal Byte.of_N) in H.
  rewrite !Byte.of_to_N in H. congruence.
Qed.

Lemma byte_compare_eq (x y : byte) : byte_compare x y = Eq <-> x = y.
Proof.
  unfold byte_compare. rewrite N.compare_eq_iff. split.
  - apply to_N_inj.
  - now intros ->.
Qed.

Lemma byte_compare_refl (x : byte) : byte_compare x x = Eq.
Proof. now apply byte_compare_eq. Qed.

Lemma byte_compare_antisym (x y : byte) :
  byte_compare y x = CompOpp (byte_compare x y).
Proof. unfold byte_compare. apply N.compare_antisym. Qed.

Lemma byte_compare_lt_trans (x y z : byte) :
  byte_compare x y = Lt -> byte_compare y z = Lt -> byte_compare x z = Lt.
Proof.
  unfold byte_compare. rewrite !N.compare_lt_iff. lia.
Qed.

Lemma Compare_eq (a b : bytes) : Compare a b = Eq <-> a = b.
Proof.
  revert b. induction a as [|x a IH]; intros [|y b]; simpl;
    try (split; [discriminate | discriminate]); try tauto.
  destruct (byte_compare x y) eqn:E.
  - apply byte_compare_eq in E. subst y. rewrite IH.
    split; [now intros -> | now intros [= ->]].
  - split; [discriminate|]. intros [= -> ->].
    rewrite byte_compare_refl in E. discriminate.
  - split; [discriminate|]. intros [= -> ->].
    rewrite byte_compare_refl in E. discriminate.
Qed.

Lemma Compare_refl (a : bytes) : Compare a a = Eq.
Proof. now apply Compare_eq. Qed.

Lemma Compare_antisym (a b : bytes) : Compare b a = CompOpp (Compare a b).
Proof.
  revert b. induction a as [|x a IH]; intros [|y b]; simpl; try reflexivity.
  rewrite (byte_compare_antisym x y).
  destruct (byte_compare x y); simpl; auto.
Qed.

Lemma Compare_gt_lt (a b : bytes) : Compare a b = Gt <-> Compare b a = Lt.
Proof.
  rewrite (Compare_antisym a b). destruct (Compare a b); simpl;
    split; congruence.
Qed.

Lemma bytes_lt_trans (a b c : bytes) :
  bytes_lt a b -> bytes_lt b c -> bytes_lt a c.
Proof.
  unfold bytes_lt. revert b c.
  induction a as [|x a IH]; intros [|y b] [|z c]; simpl; try congruence.
  destruct (byte_compare x y) eqn:Exy; try discriminate.
  - apply byte_compare_eq in Exy. subst y.
    destruct (byte_compare x z); try congruence. apply IH.
  - destruct (byte_compare y z) eqn:Eyz; try discriminate.
    + apply byte_compare_eq in Eyz. subst z. now rewrite Exy.
    + now rewrite (byte_compare_lt_trans _ _ _ Exy Eyz).
Qed.

Lemma bytes_lt_irrefl (a : bytes) : ~ bytes_lt a a.
Proof. unfold bytes_lt. rewrite Compare_refl. discriminate. Qed.

Lemma bytes_lt_asym (a b : bytes) : bytes_lt a b -> ~ bytes_lt b a.
Proof.
  intros H1 H2. apply (bytes_lt_irrefl a (bytes_lt_trans a b a H1 H2)).
Qed.

Lemma HasPrefix_iff (s p : bytes) :
  HasPrefix s p = true <-> exists r, s = p ++ r.
Proof.
  revert s. induction p as [|x p IH]; intros s; simpl.
  - split; [now exists s | reflexivity].
  - destruct s as [|y s].
    + split; [discriminate | intros [r [=]]].
    + rewrite andb_true_iff, byte_eqb_eq, IH. split.
      * intros [-> [r ->]]. now exists r.
      * intros [r [= -> ->]]. split; [reflexivity | now exists r].
Qed.

Lemma HasPrefix_app (p r : bytes) : HasPrefix (p ++ r) p = true.
Proof. apply HasPrefix_iff. now exists r. Qed.

Lemma HasPrefix_refl (p : bytes) : HasPrefix p p = true.
Proof. apply HasPrefix_iff. exists []. now rewrite app_nil_r. Qed.

Lemma Compare_app_same (p a b : bytes) :
  Compare (p ++ a) (p ++ b) = Compare a b.
Proof.
  induction p as [|x p IH]; simpl; [reflexivity|].
  now rewrite byte_compare_refl.
Qed.

Lemma Compare_prefix_lt (p r : bytes) : r <> [] -> bytes_lt p (p ++ r).
Proof.
  intros Hr. unfold bytes_lt.
  rewrite <- (app_nil_r p) at 1. rewrite Compare_app_same.
  destruct r; [congruence | reflexivity].
Qed.

(** A string below [p] does not begin with [p]. *)
Lemma lt_not_HasPrefix (k p : bytes) :
  Compare k p = Lt -> HasPrefix k p = false.
Proof.
  intros H. destruct (HasPrefix k p) eqn:E; [|reflexivity].
  apply HasPrefix_iff in E. destruct E as [r ->].
  rewrite <- (app_nil_r p) in H at 2. rewrite Compare_app_same in H.
  destruct r; discriminate.
Qed.

(** Against a string that does not begin with [p], every extension of
    [p] compares as [p] does. *)
Lemma Compare_extension (p r b : bytes) :
  HasPrefix b p = false -> Compare (p ++ r) b = Compare p b.
Proof.
  revert b. induction p as [|x p IH]; intros b H; simpl in *.
  - discriminate.
  - destruct b as [|y b]; [reflexivity|].
    destruct (byte_compare x y) eqn:E; try reflexivity.
    apply byte_compare_eq in E. subst y.
    rewrite byte_eqb_refl in H. simpl in H. now apply IH.
Qed.

(** Once past the strings that begin with [p], always past them. *)
Lemma past_prefix (p k k' : bytes) :
  Compare k p <> Lt -> HasPrefix k p = false -> bytes_lt k k' ->
  HasPrefix k' p = false.
Proof.
  intros Hge Hk Hlt. destruct (HasPrefix k' p) eqn:E; [|reflexivity].
  exfalso. apply HasPrefix_iff in E. destruct E as [r ->].
  assert (Hpk : Compare p k = Lt).
  { destruct (Compare k p) eqn:C; try congruence.
    - apply Compare_eq in C. subst k. now rewrite HasPrefix_refl in Hk.
    - now apply Compare_gt_lt. }
  rewrite <- (Compare_extension p r k Hk) in Hpk.
  apply (bytes_lt_asym _ _ Hlt Hpk).
Qed.

(** ** [_NextPrefix] *)

Lemma byte_succ_to_N (c : byte) :
  c <> xff -> Byte.to_N (byte_succ c) = (Byte.to_N c + 1)%N.
Proof.
  intros Hc. unfold byte_succ.
  assert (Hle : (Byte.to_N c <= 255)%N) by apply Byte.to_N_bounded.
  assert (Hne : Byte.to_N c <> 255%N).
  { intros E. apply Hc. apply to_N_inj. exact E. }
  rewrite N.mod_small by lia.
  destruct (Byte.of_N (Byte.to_N c + 1)) as [b'|] eqn:E.
  - now apply Byte.to_of_N.
  - apply Byte.of_N_None_iff in E. lia.
Qed.

Lemma byte_succ_lt (c : byte) : c <> xff -> byte_compare c (byte_succ c) = Lt.
Proof.
  intros Hc. unfold byte_compare. rewrite byte_succ_to_N by assumption.
  apply N.compare_lt_iff. lia.
Qed.

Lemma last_below_ff_spec (b : bytes) (i : nat) :
  match last_below_ff b i with
  | Some j => j < i /\ nth j b x00 <> xff
  | None => forall m, m < i -> nth m b x00 = xff
  end.
Proof.
  induction i as [|i IH]; simpl.
  - intros m Hm. lia.
  - destruct (Byte.eqb (nth i b x00) xff) eqn:E.
    + apply byte_eqb_eq in E.
      destruct (last_below_ff b i) as [j|].
      * destruct IH as [Hj Hn]. split; [lia | assumption].
      * intros m Hm. destruct (Nat.eq_dec m i) as [->|Hne]; [assumption|].
        apply IH. lia.
    + split; [lia|]. intros Hx. rewrite Hx in E. discriminate.
Qed.

Lemma incr_at_lt (s : bytes) (j : nat) (r : bytes) :
  j < length s -> nth j s x00 <> xff -> bytes_lt (s ++ r) (incr_at s j).
Proof.
  unfold bytes_lt. revert j.
  induction s as [|x s IH]; intros j Hj Hn; simpl in *; [lia|].
  destruct j as [|j]; simpl.
  - now rewrite byte_succ_lt.
  - rewrite byte_compare_refl. apply IH; [lia | assumption].
Qed.

Lemma all_ff_nth (s : bytes) :
  (forall c, In c s -> c = xff) <-> (forall m, m < length s -> nth m s x00 = xff).
Proof.
  split.
  - intros H m Hm. apply H. now apply nth_In.
  - intros H c Hc. destruct (In_nth _ _ x00 Hc) as [m [Hm <-]]. now apply H.
Qed.

Lemma NextPrefix_all_ff (s : bytes) :
  (forall c, In c s -> c = xff) -> _NextPrefix s = s ++ [x00].
Proof.
  intros H. unfold _NextPrefix.
  pose proof (last_below_ff_spec s (length s)) as Hs.
  destruct (last_below_ff s (length s)) as [j|]; [|reflexivity].
  destruct Hs as [Hj Hn]. exfalso. apply Hn.
  apply all_ff_nth; assumption.
Qed.

Lemma NextPrefix_some_below (s : bytes) :
  (exists c, In c s /\ c <> xff) ->
  exists j, j < length s /\ nth j s x00 <> xff /\ _NextPrefix s = incr_at s j.
Proof.
  intros [c [Hin Hc]]. unfold _NextPrefix.
  pose proof (last_below_ff_spec s (length s)) as Hs.
  destruct (last_below_ff s (length s)) as [j|].
  - exists j. tauto.
  - exfalso. apply Hc. apply all_ff_nth with (s := s); assumption.
Qed.

Lemma all_ff_dec (s : bytes) :
  (forall c, In c s -> c = xff) \/ (exists c, In c s /\ c <> xff).
Proof.
  induction s as [|x s [IH|[c [Hin Hc]]]].
  - left. intros c [].
  - destruct (byte_eq_dec x xff) as [->|Hx].
    + left. intros c [<-|Hc]; auto.
    + right. exists x. split; [now left | assumption].
  - right. exists c. split; [now right | assumption].
Qed.

Lemma NextPrefix_gt (s : bytes) : bytes_lt s (_NextPrefix s).
Proof.
  destruct (all_ff_dec s) as [H|H].
  - rewrite NextPrefix_all_ff by assumption.
    apply Compare_prefix_lt. discriminate.
  - destruct (NextPrefix_some_below s H) as [j [Hj [Hn ->]]].
    rewrite <- (app_nil_r s) at 1. now apply incr_at_lt.
Qed.

Lemma NextPrefix_gt_extensions (s e : bytes) :
  (exists c, In c s /\ c <> xff) -> HasPrefix e s = true ->
  bytes_lt e (_NextPrefix s).
Proof.
  intros H He. apply HasPrefix_iff in He. destruct He as [r ->].
  destruct (NextPrefix_some_below s H) as [j [Hj [Hn ->]]].
  now apply incr_at_lt.
Qed.

(** When every byte of [s] is 0xff (or [s] is empty) the result is
    [s] followed by a zero byte, which lies below the other extensions
    of [s]. *)
Lemma NextPrefix_all_ff_below (s r : bytes) :
  (forall c, In c s -> c = xff) -> r <> [] -> r <> [x00] ->
  bytes_lt (_NextPrefix s) (s ++ r).
Proof.
  intros H Hr Hr0. rewrite NextPrefix_all_ff by assumption.
  unfold bytes_lt. rewrite Compare_app_same.
  destruct r as [|y r]; [congruence|]. simpl.
  unfold byte_compare. simpl Byte.to_N.
  destruct (Byte.to_N y) eqn:Ey.
  - assert (y = x00) by (apply to_N_inj; now rewrite Ey). subst y.
    destruct r; [congruence | reflexivity].
  - reflexivity.
Qed.

(** ** The ordered store: [Get], [Put], [Delete] *)

Ltac cmp_cases k k' :=
  let E := fresh "E" in
  destruct (Compare k k') eqn:E;
  [ apply Compare_eq in E; try subst | | ].

Lemma keys_ascending_nil : keys_ascending [].
Proof. constructor. Qed.

Lemma keys_ascending_cons (k v : bytes) (b : BBucket) :
  keys_ascending ((k, v) :: b) <->
  keys_ascending b /\ Forall (fun e => bytes_lt k (fst e)) b.
Proof.
  unfold keys_ascending. simpl. split.
  - intros H. inversion H as [|? ? Hs Hf]; subst. split; [assumption|].
    rewrite Forall_map in Hf. exact Hf.
  - intros [Hs Hf]. constructor; [assumption|].
    rewrite Forall_map. exact Hf.
Qed.

Lemma Get_Put_same (b : BBucket) (k v : bytes) : Get (Put b k v) k = Some v.
Proof.
  induction b as [|[k1 v1] b IH]; simpl.
  - now rewrite Compare_refl.
  - destruct (Compare k k1) eqn:E; simpl.
    + now rewrite Compare_refl.
    + now rewrite Compare_refl.
    + now rewrite E.
Qed.

Lemma Get_Put_other (b : BBucket) (k v k' : bytes) :
  k' <> k -> Get (Put b k v) k' = Get b k'.
Proof.
  intros Hne. induction b as [|[k1 v1] b IH]; simpl.
  - cmp_cases k' k; congruence.
  - destruct (Compare k k1) eqn:E; simpl.
    + apply Compare_eq in E. subst k1. cmp_cases k' k; congruence.
    + cmp_cases k' k; try congruence.
      now rewrite (bytes_lt_trans _ _ _ E0 E).
    + destruct (Compare k' k1); auto.
Qed.

Lemma Get_below_all (b : BBucket) (k : bytes) :
  Forall (fun e => bytes_lt k (fst e)) b -> Get b k = None.
Proof.
  intros H. destruct H as [|[k1 v1] b H1 _]; simpl; [reflexivity|].
  simpl in H1. now rewrite H1.
Qed.

Lemma Get_Delete_same (b : BBucket) (k : bytes) :
  keys_ascending b -> Get (Delete b k) k = None.
Proof.
  induction b as [|[k1 v1] b IH]; simpl; intros Hs; [reflexivity|].
  apply keys_ascending_cons in Hs. destruct Hs as [Hs Hf].
  destruct (Compare k k1) eqn:E; simpl.
  - apply Compare_eq in E. subst k1. now apply Get_below_all.
  - now rewrite E.
  - rewrite E. now apply IH.
Qed.

Lemma Get_Delete_other (b : BBucket) (k k' : bytes) :
  keys_ascending b -> k' <> k -> Get (Delete b k) k' = Get b k'.
Proof.
  intros Hs Hne. induction b as [|[k1 v1] b IH]; simpl; [reflexivity|].
  apply keys_ascending_cons in Hs. destruct Hs as [Hs Hf].
  destruct (Compare k k1) eqn:E; simpl.
  - apply Compare_eq in E. subst k1.
    cmp_cases k' k; try congruence.
    apply Get_below_all.
    eapply Forall_impl; [|exact Hf]. simpl. intros e He.
    now apply bytes_lt_trans with k.
  - reflexivity.
  - destruct (Compare k' k1); auto.
Qed.

Lemma Put_Forall_gt (b : BBucket) (k v k0 : bytes) :
  bytes_lt k0 k -> Forall (fun e => bytes_lt k0 (fst e)) b ->
  Forall (fun e => bytes_lt k0 (fst e)) (Put b k v).
Proof.
  intros Hk. induction b as [|[k1 v1] b IH]; simpl; intros Hf.
  - now constructor.
  - inversion Hf as [|? ? H1 H2]; subst. destruct (Compare k k1).
    + now constructor.
    + constructor; [assumption|]. now constructor.
    + constructor; [assumption|]. now apply IH.
Qed.

Lemma Put_ascending (b : BBucket) (k v : bytes) :
  keys_ascending b -> keys_ascending (Put b k v).
Proof.
  induction b as [|[k1 v1] b IH]; simpl; intros Hs.
  - apply keys_ascending_cons. split; constructor.
  - pose proof Hs as Hs0.
    apply keys_ascending_cons in Hs. destruct Hs as [Hs Hf].
    destruct (Compare k k1) eqn:E.
    + apply Compare_eq in E. subst k1.
      apply keys_ascending_cons. now split.
    + apply keys_ascending_cons. split; [assumption|].
      constructor; [exact E|].
      eapply Forall_impl; [|exact Hf]. simpl. intros e He.
      now apply bytes_lt_trans with k1.
    + apply keys_ascending_cons. split; [now apply IH|].
      apply Put_Forall_gt; [|assumption]. now apply Compare_gt_lt.
Qed.

Lemma Delete_Forall_gt (b : BBucket) (k k0 : bytes) :
  Forall (fun e => bytes_lt k0 (fst e)) b ->
  Forall (fun e => bytes_lt k0 (fst e)) (Delete b k).
Proof.
  induction b as [|[k1 v1] b IH]; simpl; intros Hf; [constructor|].
  inversion Hf as [|? ? H1 H2]; subst. destruct (Compare k k1).
  - assumption.
  - now constructor.
  - constructor; [assumption|]. now apply IH.
Qed.

Lemma Delete_ascending (b : BBucket) (k : bytes) :
  keys_ascending b -> keys_ascending (Delete b k).
Proof.
  induction b as [|[k1 v1] b IH]; simpl; intros Hs; [constructor|].
  pose proof Hs as Hs0.
  apply keys_ascending_cons in Hs. destruct Hs as [Hs Hf].
  destruct (Compare k k1).
  - assumption.
  - assumption.
  - apply keys_ascending_cons. split; [now apply IH|].
    now apply Delete_Forall_gt.
Qed.

Lemma Get_In (b : BBucket) (k v : bytes) :
  keys_ascending b -> (Get b k = Some v <-> In (k, v) b).
Proof.
  induction b as [|[k1 v1] b IH]; simpl; intros Hs.
  - split; [discriminate | tauto].
  - apply keys_ascending_cons in Hs. destruct Hs as [Hs Hf].
    rewrite Forall_forall in Hf.
    destruct (Compare k k1) eqn:E.
    + apply Compare_eq in E. subst k1. split.
      * intros [= ->]. now left.
      * intros [[= ->]|Hin]; [reflexivity|].
        apply Hf in Hin. simpl in Hin. now apply bytes_lt_irrefl in Hin.
    + split; [discriminate|]. intros [[= -> ->]|Hin].
      * now rewrite Compare_refl in E.
      * apply Hf in Hin. simpl in Hin.
        exfalso. apply (bytes_lt_asym _ _ E Hin).
    + rewrite (IH Hs). split; [now right|]. intros [[= -> ->]|Hin].
      * now rewrite Compare_refl in E.
      * assumption.
Qed.

Lemma Get_In_key (b : BBucket) (k : bytes) :
  keys_ascending b -> (Get b k <> None <-> In k (map fst b)).
Proof.
  intros Hs. rewrite in_map_iff. split.
  - intros H. destruct (Get b k) as [v|] eqn:E; [|congruence].
    exists (k, v). split; [reflexivity|]. now apply Get_In.
  - intros [[k' v] [Hk Hin]]. simpl in Hk. subst k'.
    apply Get_In in Hin; [|assumption]. congruence.
Qed.

(** Counting the entries whose key satisfies [f]. *)
Lemma count_Put (f : bytes -> bool) (b : BBucket) (k v : bytes) :
  length (filter (fun e => f (fst e)) (Put b k v)) =
  length (filter (fun e => f (fst e)) b)
  + (if f k then match Get b k with Some _ => 0 | None => 1 end else 0).
Proof.
  induction b as [|[k1 v1] b IH]; simpl.
  - destruct (f k); reflexivity.
  - destruct (Compare k k1) eqn:E; simpl.
    + apply Compare_eq in E. subst k1. destruct (f k); simpl; lia.
    + destruct (f k), (f k1); simpl; lia.
    + destruct (f k1); simpl; rewrite IH; lia.
Qed.

Lemma count_Delete (f : bytes -> bool) (b : BBucket) (k : bytes) :
  length (filter (fun e => f (fst e)) (Delete b k))
  + (if f k then match Get b k with Some _ => 1 | None => 0 end else 0) =
  length (filter (fun e => f (fst e)) b).
Proof.
  induction b as [|[k1 v1] b IH]; simpl.
  - destruct (f k); reflexivity.
  - destruct (Compare k k1) eqn:E; simpl.
    + apply Compare_eq in E. subst k1. destruct (f k); simpl; lia.
    + destruct (f k), (f k1); simpl; lia.
    + destruct (f k1); simpl; rewrite <- IH; lia.
Qed.

Lemma with_prefix_Put (p : bytes) (b : BBucket) (k v : bytes) :
  length (with_prefix p (Put b k v)) =
  length (with_prefix p b)
  + (if HasPrefix k p then match Get b k with Some _ => 0 | None => 1 end
     else 0).
Proof. apply (count_Put (fun key => HasPrefix key p)). Qed.

Lemma with_prefix_Delete (p : bytes) (b : BBucket) (k : bytes) :
  length (with_prefix p (Delete b k))
  + (if HasPrefix k p then match Get b k with Some _ => 1 | None => 0 end
     else 0) =
  length (with_prefix p b).
Proof. apply (count_Delete (fun key => HasPrefix key p)). Qed.

(** Two buckets with the same content are the same list. *)
Lemma bucket_ext (b1 b2 : BBucket) :
  keys_ascending b1 -> keys_ascending b2 ->
  (forall k, Get b1 k = Get b2 k) -> b1 = b2.
Proof.
  revert b2. induction b1 as [|[k1 v1] b1 IH]; intros [|[k2 v2] b2] H1 H2 Hget.
  - reflexivity.
  - specialize (Hget k2). simpl in Hget. rewrite Compare_refl in Hget.
    discriminate.
  - specialize (Hget k1). simpl in Hget. rewrite Compare_refl in Hget.
    discriminate.
  - pose proof H1 as H1'. pose proof H2 as H2'.
    apply keys_ascending_cons in H1. destruct H1 as [H1 F1].
    apply keys_ascending_cons in H2. destruct H2 as [H2 F2].
    assert (Hk : k1 = k2).
    { pose proof (Hget k1) as Ha. pose proof (Hget k2) as Hb.
      simpl in Ha, Hb. rewrite Compare_refl in Ha, Hb.
      destruct (Compare k1 k2) eqn:E.
      - now apply Compare_eq.
      - discriminate.
      - apply Compare_gt_lt in E. rewrite E in Hb. discriminate. }
    subst k2.
    assert (Hv : v1 = v2).
    { specialize (Hget k1). simpl in Hget. rewrite Compare_refl in Hget.
      congruence. }
    subst v2. f_equal. apply IH; try assumption.
    intros k. specialize (Hget k). simpl in Hget.
    destruct (Compare k k1) eqn:E; try assumption.
    + apply Compare_eq in E. subst k.
      rewrite (Get_below_all _ _ F1), (Get_below_all _ _ F2). reflexivity.
    + rewrite Get_below_all, Get_below_all; try reflexivity.
      * eapply Forall_impl; [|exact F2]. simpl. intros e He.
        now apply bytes_lt_trans with k1.
      * eapply Forall_impl; [|exact F1]. simpl. intros e He.
        now apply bytes_lt_trans with k1.
Qed.

(** ** The cursor and the prefix iteration engine *)

Lemma seek_from_ahead (key : bytes) (before rest : list entry) :
  ahead (seek_from key before rest) = seek_list key rest.
Proof.
  revert before. induction rest as [|e rest IH]; intros before; simpl.
  - reflexivity.
  - destruct (Compare (fst e) key); auto.
Qed.

Lemma seek_from_length (key : bytes) (before rest : list entry) :
  length (behind (seek_from key before rest))
  + length (ahead (seek_from key before rest))
  = length before + length rest.
Proof.
  revert before. induction rest as [|e rest IH]; intros before; simpl.
  - reflexivity.
  - destruct (Compare (fst e) key); simpl; try lia.
    rewrite IH. simpl. lia.
Qed.

Lemma seek_list_nil_key (b : list entry) : seek_list [] b = b.
Proof.
  destruct b as [|[k v] b]; simpl; [reflexivity|].
  destruct k; reflexivity.
Qed.

Lemma start_regular (b : BBucket) (start : bytes) :
  exists c,
    _CursorStartPosForPrefix (Cursor_of b) start IterateRegular
    = (hd_error (seek_list start b), c)
    /\ ahead c = seek_list start b.
Proof.
  unfold _CursorStartPosForPrefix, _CursorStartPos.
  destruct start as [|x start]; simpl.
  - rewrite seek_list_nil_key. eexists. split; reflexivity.
  - unfold Seek, Cursor_of, entries. simpl rev_append.
    rewrite seek_from_ahead. eexists. split; [reflexivity|].
    simpl. apply seek_from_ahead.
Qed.

Section RunRegular.
Variable St : Type.
Variable visitFn : St -> bytes -> bytes -> bool * St.

Lemma yield_loop_regular (window : _RawIterationParams) :
  Direction window = IterateRegular ->
  forall fuel c count s,
    length (ahead c) <= fuel ->
    finish (Direction window)
      (yield_loop visitFn fuel window c (hd_error (ahead c)) count s)
    = scan visitFn (Prefix window) (Limit window) count s (ahead c).
Proof.
  intros Hdir. rewrite Hdir.
  induction fuel as [|fuel IH]; intros c count s Hlen.
  - destruct c as [bh ah]. simpl in *.
    destruct ah; [reflexivity | simpl in Hlen; lia].
  - destruct c as [bh ah]. simpl ahead in *.
    destruct ah as [|[key value] rest]; [reflexivity|].
    simpl. destruct (HasPrefix key (Prefix window)); [|reflexivity].
    destruct (visitFn s key value) as [cont s'].
    destruct cont; simpl; [|reflexivity].
    destruct ((Limit window >? 0)%Z && (count + 1 >=? Limit window)%Z);
      [reflexivity|].
    rewrite Hdir. simpl.
    specialize (IH (mkCursor ((key, value) :: bh) rest) (count + 1)%Z s').
    simpl in IH. apply IH. simpl in Hlen. lia.
Qed.

(** The engine in the forward direction, without an offset. *)
Lemma RawIterateCore_regular (b : BBucket) (window : _RawIterationParams)
    (s : St) :
  Direction window = IterateRegular -> (Offset window <= 0)%Z ->
  _RawIterateCore visitFn b window s
  = scan visitFn (Prefix window) (Limit window) 0 s
      (seek_list
         (if (0 <? length (Cursor window))%nat then Cursor window
          else Prefix window) b).
Proof.
  intros Hdir Hoff. unfold _RawIterateCore.
  set (start := if (0 <? length (Cursor window))%nat then Cursor window
                else Prefix window).
  rewrite Hdir.
  destruct (start_regular b start) as [c [Hc Ha]]. rewrite Hc.
  assert (Hz : (Offset window >? 0)%Z = false) by lia. rewrite Hz.
  pose proof (yield_loop_regular window Hdir (S (length b)) c 0%Z s) as H.
  rewrite Ha in H. rewrite Hdir in H. unfold finish in H.
  rewrite <- H.
  - destruct (yield_loop visitFn (S (length b)) window c
                (hd_error (seek_list start b)) 0 s) as [[[e|] c'] s'];
      reflexivity.
  - clear. induction b as [|e b IH]; simpl; [lia|].
    destruct (Compare (fst e) start); simpl; lia.
Qed.

(** The yield loop never uses up the fuel it is given. *)
Lemma yield_loop_fuel (window : _RawIterationParams) :
  forall fuel extra c kv count s,
    fuel_needed (Direction window) c kv <= fuel ->
    yield_loop visitFn (fuel + extra) window c kv count s
    = yield_loop visitFn fuel window c kv count s.
Proof.
  induction fuel as [|fuel IH]; intros extra c kv count s Hn.
  - destruct kv as [[key value]|].
    + unfold fuel_needed in Hn.
      destruct (Direction window =? IterateRegular)%N; [lia|].
      destruct (Direction window =? IterateReverse)%N; lia.
    + destruct extra; reflexivity.
  - simpl. destruct kv as [[key value]|]; [|reflexivity].
    destruct (HasPrefix key (Prefix window)); [|reflexivity].
    destruct (visitFn s key value) as [cont s'].
    destruct cont; simpl; [|reflexivity].
    destruct ((Limit window >? 0)%Z && (count + 1 >=? Limit window)%Z);
      [reflexivity|].
    destruct (_CursorStep c (Direction window)) as [kv' c'] eqn:Hstep.
    apply IH.
    unfold fuel_needed in *. unfold _CursorStep in Hstep.
    destruct (Direction window =? IterateRegular)%N.
    + unfold Next in Hstep. destruct c as [bh ah]. simpl in *.
      destruct ah as [|e rest].
      * injection Hstep as <- <-. lia.
      * injection Hstep as <- <-. simpl.
        destruct rest; simpl in *; lia.
    + destruct (Direction window =? IterateReverse)%N.
      * unfold Prev in Hstep. destruct c as [bh ah]. simpl in *.
        destruct bh as [|e before].
        -- injection Hstep as <- <-. lia.
        -- injection Hstep as <- <-. simpl in *. lia.
      * injection Hstep as <- <-. lia.
Qed.
End RunRegular.

Lemma fuel_needed_le_bound (direction : IterationDirection)
    (c : Bolt.Cursor) (kv : option entry) :
  fuel_needed direction c kv <= fuel_bound direction c.
Proof.
  unfold fuel_needed, fuel_bound. destruct kv; [|lia].
  destruct (direction =? IterateRegular)%N; [lia|].
  destruct (direction =? IterateReverse)%N; lia.
Qed.

(** The position the engine starts from needs no more fuel than the
    bucket has entries, plus one. *)
Lemma start_fuel (b : BBucket) (start : bytes) (direction : IterationDirection) :
  fuel_bound direction
    (snd (_CursorStartPosForPrefix (Cursor_of b) start direction))
  <= S (length b).
Proof.
  unfold _CursorStartPosForPrefix, _CursorStartPos, fuel_bound.
  destruct (length start =? 0)%nat.
  - destruct (direction =? IterateRegular)%N eqn:D1.
    + unfold First, Cursor_of, entries. simpl. lia.
    + destruct (direction =? IterateReverse)%N eqn:D2; [|lia].
      unfold Last, Cursor_of, entries. simpl.
      destruct (rev b) as [|e before] eqn:Hr; simpl; [lia|].
      apply (f_equal (@length _)) in Hr. rewrite length_rev in Hr.
      simpl in Hr. lia.
  - destruct (direction =? IterateRegular)%N eqn:D1.
    + unfold Seek, Cursor_of, entries. simpl.
      pose proof (seek_from_length start [] b) as Hl. simpl in Hl. lia.
    + destruct (direction =? IterateReverse)%N eqn:D2; [|lia].
      unfold Seek, Cursor_of, entries. simpl.
      pose proof (seek_from_length (_NextPrefix start) [] b) as Hl.
      simpl in Hl. unfold Prev.
      destruct (seek_from (_NextPrefix start) [] b) as [bh ah].
      simpl in *. destruct bh; simpl in *; lia.
Qed.

Lemma step_fuel (direction : IterationDirection) (c : Bolt.Cursor) :
  fuel_bound direction (snd (_CursorStep c direction))
  <= fuel_bound direction c.
Proof.
  unfold fuel_bound, _CursorStep.
  destruct (direction =? IterateRegular)%N.
  - unfold Next. destruct (ahead c) eqn:Ha; simpl; rewrite ?Ha; simpl; lia.
  - destruct (direction =? IterateReverse)%N; [|lia].
    unfold Prev. destruct (behind c) eqn:Hb; simpl; rewrite ?Hb; simpl; lia.
Qed.

Lemma skip_offset_fuel (n : nat) (direction : IterationDirection)
    (c c' : Bolt.Cursor) (kv kv' : option entry) :
  skip_offset n direction c kv = Some (kv', c') ->
  fuel_bound direction c' <= fuel_bound direction c.
Proof.
  revert c kv. induction n as [|n IH]; intros c kv H; simpl in H.
  - injection H as _ <-. lia.
  - pose proof (step_fuel direction c) as Hs.
    destruct (_CursorStep c direction) as [kv1 c1]. simpl in Hs.
    destruct kv1; [|discriminate].
    apply IH in H. lia.
Qed.

(** [_RawIterateCore] gives its yield loop enough fuel: more would not
    change the outcome. *)
Lemma RawIterateCore_enough_fuel (St : Type)
    (visitFn : St -> bytes -> bytes -> bool * St)
    (b : BBucket) (window : _RawIterationParams) (s : St) (extra : nat) :
  let start := if (0 <? length (Cursor window))%nat then Cursor window
               else Prefix window in
  let (kv, crsr) :=
    _CursorStartPosForPrefix (Cursor_of b) start (Direction window) in
  forall kv' crsr',
    (if (Offset window >? 0)%Z
     then skip_offset (Z.to_nat (Offset window)) (Direction window) crsr kv
     else Some (kv, crsr)) = Some (kv', crsr') ->
    yield_loop visitFn (S (length b) + extra) window crsr' kv' 0 s
    = yield_loop visitFn (S (length b)) window crsr' kv' 0 s.
Proof.
  intros start.
  pose proof (start_fuel b start (Direction window)) as Hs.
  destruct (_CursorStartPosForPrefix (Cursor_of b) start (Direction window))
    as [kv crsr]. simpl in Hs.
  intros kv' crsr' Hpos. apply yield_loop_fuel.
  pose proof (fuel_needed_le_bound (Direction window) crsr' kv') as Hn.
  destruct (Offset window >? 0)%Z.
  - apply skip_offset_fuel in Hpos. lia.
  - injection Hpos as <- <-. lia.
Qed.

(** ** Go maps *)

Section GoMapFacts.
Variables A B : Type.
Context {CA : Comparable A}.
Hypothesis A_ok : Comparable_ok (X := A).

Lemma equal_refl (k : A) : equal k k = true.
Proof. now apply A_ok. Qed.

Lemma equal_false (k k' : A) : equal k k' = false <-> k <> k'.
Proof.
  split.
  - intros E H. apply A_ok in H. congruence.
  - intros H. destruct (equal k k') eqn:E; [|reflexivity].
    apply A_ok in E. contradiction.
Qed.

Lemma equal_cases (k k' : A) :
  (k = k' /\ equal k k' = true) \/ (k <> k' /\ equal k k' = false).
Proof.
  destruct (equal k k') eqn:E.
  - left. split; [now apply A_ok | reflexivity].
  - right. split; [now apply equal_false | reflexivity].
Qed.

Lemma map_get_set_same (m : GoMap A B) (k : A) (v : B) :
  map_get (map_set m k v) k = Some v.
Proof.
  induction m as [|[k1 v1] m IH]; simpl.
  - now rewrite equal_refl.
  - destruct (equal k k1) eqn:E; simpl.
    + now rewrite equal_refl.
    + now rewrite E.
Qed.

Lemma map_get_set_other (m : GoMap A B) (k k' : A) (v : B) :
  k' <> k -> map_get (map_set m k v) k' = map_get m k'.
Proof.
  intros Hne. induction m as [|[k1 v1] m IH]; simpl.
  - apply equal_false in Hne. now rewrite Hne.
  - destruct (equal_cases k k1) as [[-> E]|[Hk E]]; rewrite E; simpl.
    + apply equal_false in Hne. now rewrite Hne.
    + destruct (equal k' k1); auto.
Qed.

Lemma map_set_keys (m : GoMap A B) (k k' : A) (v : B) :
  In k' (map fst (map_set m k v)) <-> k' = k \/ In k' (map fst m).
Proof.
  induction m as [|[k1 v1] m IH]; simpl.
  - intuition.
  - destruct (equal_cases k k1) as [[-> E]|[Hk E]]; rewrite E; simpl.
    + intuition.
    + rewrite IH. intuition.
Qed.

Lemma map_set_is_map (m : GoMap A B) (k : A) (v : B) :
  NoDup (map fst m) -> NoDup (map fst (map_set m k v)).
Proof.
  induction m as [|[k1 v1] m IH]; simpl; intros Hm.
  - constructor; [intros [] | constructor].
  - inversion Hm as [|? ? Hn Hm']; subst.
    destruct (equal_cases k k1) as [[-> E]|[Hk E]]; rewrite E; simpl.
    + now constructor.
    + constructor; [|now apply IH].
      rewrite map_set_keys. intros [H|H]; [congruence | contradiction].
Qed.

Lemma map_get_In (m : GoMap A B) (k : A) (v : B) :
  NoDup (map fst m) -> (map_get m k = Some v <-> In (k, v) m).
Proof.
  induction m as [|[k1 v1] m IH]; simpl; intros Hm.
  - split; [discriminate | tauto].
  - inversion Hm as [|? ? Hn Hm']; subst.
    destruct (equal_cases k k1) as [[-> E]|[Hk E]]; rewrite E.
    + split.
      * intros [= ->]. now left.
      * intros [[= ->]|Hin]; [reflexivity|].
        exfalso. apply Hn. apply in_map_iff. now exists (k1, v).
    + rewrite (IH Hm'). split; [now right|].
      intros [[= -> ->]|Hin]; [congruence | assumption].
Qed.

Lemma map_get_None (m : GoMap A B) (k : A) :
  map_get m k = None <-> ~ In k (map fst m).
Proof.
  induction m as [|[k1 v1] m IH]; simpl.
  - tauto.
  - destruct (equal_cases k k1) as [[-> E]|[Hk E]]; rewrite E.
    + split; [discriminate | intros H; exfalso; apply H; now left].
    + rewrite IH. split.
      * intros H [H1|H1]; [congruence | contradiction].
      * intros H H1. apply H. now right.
Qed.

Lemma map_get_perm (m m' : GoMap A B) (k : A) :
  NoDup (map fst m) -> Permutation m' m -> map_get m' k = map_get m k.
Proof.
  intros Hm Hp.
  assert (Hm' : NoDup (map fst m')).
  { eapply Permutation_NoDup; [|exact Hm].
    apply Permutation_map. now apply Permutation_sym. }
  destruct (map_get m k) as [v|] eqn:E.
  - apply map_get_In; [assumption|].
    apply (Permutation_in _ (Permutation_sym Hp)).
    now apply map_get_In.
  - apply map_get_None. apply map_get_None in E. intros H. apply E.
    eapply Permutation_in; [|exact H]. now apply Permutation_map.
Qed.

(** A loop that copies the entries chosen by [f] into another map. *)
Lemma fold_select (f : A -> B -> bool)
    (step : GoMap A B -> A * B -> GoMap A B) :
  (forall acc k v,
      step acc (k, v) = if f k v then map_set acc k v else acc) ->
  forall (l : GoMap A B) (acc : GoMap A B),
    NoDup (map fst l) -> NoDup (map fst acc) ->
    NoDup (map fst (fold_left step l acc)) /\
    forall k,
      map_get (fold_left step l acc) k
      = match map_get l k with
        | Some v => if f k v then Some v else map_get acc k
        | None => map_get acc k
        end.
Proof.
  intros Hstep. induction l as [|[k1 v1] l IH]; intros acc Hl Hacc; simpl.
  - split; [assumption | reflexivity].
  - inversion Hl as [|? ? Hn Hl']; subst.
    assert (Hacc' : NoDup (map fst (step acc (k1, v1)))).
    { rewrite Hstep. destruct (f k1 v1); [|assumption].
      now apply map_set_is_map. }
    destruct (IH (step acc (k1, v1)) Hl' Hacc') as [Hnd Hget].
    split; [assumption|]. intros k. rewrite Hget.
    destruct (equal_cases k k1) as [[-> E]|[Hk E]]; rewrite E.
    + apply map_get_None in Hn. rewrite Hn. rewrite Hstep.
      destruct (f k1 v1); [|reflexivity]. apply map_get_set_same.
    + assert (Hs : map_get (step acc (k1, v1)) k = map_get acc k).
      { rewrite Hstep. destruct (f k1 v1); [|reflexivity].
        now apply map_get_set_other. }
      rewrite Hs. reflexivity.
Qed.

Lemma UniformTerms_is_map (terms : list A) (v : B) :
  NoDup (map fst (UniformTerms terms v)).
Proof.
  unfold UniformTerms.
  assert (H : forall acc : GoMap A B, NoDup (map fst acc) ->
            NoDup (map fst (fold_left (fun out t => map_set out t v) terms acc))).
  { induction terms as [|t terms IH]; intros acc Hacc; simpl; [assumption|].
    apply IH. now apply map_set_is_map. }
  apply H. constructor.
Qed.
End GoMapFacts.

(** ** Runs of the yield loop with a visitor that never halts *)

Section ScanFacts.
Variable St : Type.
Variable visitFn : St -> bytes -> bytes -> bool * St.
Hypothesis never_halts : forall s k v, fst (visitFn s k v) = true.
Variable prefix : bytes.

Local Notation visit_entry := (fun s (e : entry) => snd (visitFn s (fst e) (snd e))).

Lemma scan_unlimited (limit : Z) :
  (limit <= 0)%Z ->
  forall l count s,
    scan visitFn prefix limit count s l
    = (key_of_next (tl (drop_prefixed prefix l)),
       fold_left visit_entry (take_prefixed prefix l) s).
Proof.
  intros Hl. assert (Hz : (limit >? 0)%Z = false) by lia.
  induction l as [|[key value] rest IH]; intros count s; simpl.
  - reflexivity.
  - destruct (HasPrefix key prefix); [|reflexivity].
    pose proof (never_halts s key value) as Hc.
    destruct (visitFn s key value) as [cont s'] eqn:Hv.
    simpl in Hc. subst cont. simpl negb. cbv iota. rewrite Hz.
    simpl. rewrite Hv. apply IH.
Qed.

Lemma scan_limited (limit : Z) :
  forall l count s,
    (count < limit)%Z -> (0 <= count)%Z ->
    scan visitFn prefix limit count s l
    = ((if (Z.to_nat (limit - count) <=? length (take_prefixed prefix l))%nat
        then key_of_next (skipn (Z.to_nat (limit - count)) l)
        else key_of_next (tl (drop_prefixed prefix l))),
       fold_left visit_entry
         (firstn (Z.to_nat (limit - count)) (take_prefixed prefix l)) s).
Proof.
  induction l as [|[key value] rest IH]; intros count s Hc H0.
  - simpl. destruct (Z.to_nat (limit - count)) eqn:E; [lia|]. reflexivity.
  - simpl scan. simpl take_prefixed. simpl drop_prefixed.
    destruct (HasPrefix key prefix).
    + pose proof (never_halts s key value) as Hh.
      destruct (visitFn s key value) as [cont s'] eqn:Hv.
      simpl in Hh. subst cont. simpl negb. cbv iota.
      assert (Hz : (limit >? 0)%Z = true) by lia. rewrite Hz. simpl andb.
      destruct (count + 1 >=? limit)%Z eqn:Hge.
      * assert (Hn : Z.to_nat (limit - count) = 1%nat) by lia.
        rewrite Hn. simpl. rewrite Hv. reflexivity.
      * rewrite IH by lia.
        assert (Hn : Z.to_nat (limit - count)
                     = S (Z.to_nat (limit - (count + 1)))) by lia.
        rewrite Hn. simpl. rewrite Hv. reflexivity.
    + destruct (Z.to_nat (limit - count)) eqn:E; [lia|]. reflexivity.
Qed.
End ScanFacts.

(** ** Prefixes in an ascending bucket *)

Lemma keys_ascending_NoDup (b : BBucket) :
  keys_ascending b -> NoDup (map fst b).
Proof.
  induction b as [|[k v] b IH]; intros Hs; simpl.
  - constructor.
  - apply keys_ascending_cons in Hs. destruct Hs as [Hs Hf].
    constructor; [|now apply IH].
    intros Hin. apply in_map_iff in Hin. destruct Hin as [e [He Hin]].
    rewrite Forall_forall in Hf. apply Hf in Hin. rewrite He in Hin.
    now apply bytes_lt_irrefl in Hin.
Qed.

Lemma keys_ascending_filter (f : entry -> bool) (b : BBucket) :
  keys_ascending b -> keys_ascending (filter f b).
Proof.
  induction b as [|[k v] b IH]; simpl; intros Hs; [assumption|].
  apply keys_ascending_cons in Hs. destruct Hs as [Hs Hf].
  destruct (f (k, v)); [|now apply IH].
  apply keys_ascending_cons. split; [now apply IH|].
  rewrite Forall_forall in *. intros e He. apply filter_In in He.
  now apply Hf.
Qed.

Lemma keys_ascending_app (l1 l2 : BBucket) :
  keys_ascending (l1 ++ l2) -> keys_ascending l1 /\ keys_ascending l2.
Proof.
  induction l1 as [|[k v] l1 IH]; simpl; intros Hs.
  - split; [constructor | assumption].
  - apply keys_ascending_cons in Hs. destruct Hs as [Hs Hf].
    destruct (IH Hs) as [H1 H2]. split; [|assumption].
    apply keys_ascending_cons. split; [assumption|].
    apply Forall_app in Hf. tauto.
Qed.

Lemma seek_list_suffix (p : bytes) (b : BBucket) :
  exists l0, b = l0 ++ seek_list p b
             /\ Forall (fun e => bytes_lt (fst e) p) l0.
Proof.
  induction b as [|e b [l0 [IH Hf]]]; simpl.
  - exists []. split; [reflexivity | constructor].
  - destruct (Compare (fst e) p) eqn:E.
    + exists []. split; [reflexivity | constructor].
    + exists (e :: l0). split; [simpl; now rewrite <- IH|].
      now constructor.
    + exists []. split; [reflexivity | constructor].
Qed.

Lemma seek_list_head (p : bytes) (b : BBucket) (e : entry) (l : list entry) :
  seek_list p b = e :: l -> Compare (fst e) p <> Lt.
Proof.
  induction b as [|e' b IH]; simpl; [discriminate|].
  destruct (Compare (fst e') p) eqn:E; try (intros [= -> ->]; congruence).
  assumption.
Qed.

(** Seeking the key of an entry lands on that entry. *)
Lemma seek_list_at (l1 l2 : BBucket) (e : entry) :
  keys_ascending (l1 ++ e :: l2) -> seek_list (fst e) (l1 ++ e :: l2) = e :: l2.
Proof.
  induction l1 as [|[k v] l1 IH]; simpl; intros Hs.
  - now rewrite Compare_refl.
  - apply keys_ascending_cons in Hs. destruct Hs as [Hs Hf].
    rewrite Forall_forall in Hf. specialize (Hf e).
    rewrite Hf by (apply in_or_app; right; now left). now apply IH.
Qed.

Lemma no_prefix_after (p : bytes) (e : entry) (l : list entry) :
  keys_ascending (e :: l) -> Compare (fst e) p <> Lt ->
  HasPrefix (fst e) p = false ->
  Forall (fun e' => HasPrefix (fst e') p = false) l.
Proof.
  destruct e as [k v]. intros Hs Hge Hk.
  apply keys_ascending_cons in Hs. destruct Hs as [_ Hf].
  eapply Forall_impl; [|exact Hf]. simpl. intros e' He'.
  now apply past_prefix with k.
Qed.

Lemma with_prefix_none (p : bytes) (l : list entry) :
  Forall (fun e => HasPrefix (fst e) p = false) l -> with_prefix p l = [].
Proof.
  induction 1 as [|e l He Hf IH]; simpl; [reflexivity|].
  now rewrite He.
Qed.

Lemma with_prefix_app (p : bytes) (l1 l2 : list entry) :
  with_prefix p (l1 ++ l2) = with_prefix p l1 ++ with_prefix p l2.
Proof. apply filter_app. Qed.

Lemma take_prefixed_from (p : bytes) (l : list entry) :
  keys_ascending l ->
  (forall e l', l = e :: l' -> Compare (fst e) p <> Lt) ->
  take_prefixed p l = with_prefix p l.
Proof.
  induction l as [|[k v] l IH]; intros Hs Hhd; simpl; [reflexivity|].
  pose proof (Hhd _ _ eq_refl) as Hk. simpl in Hk.
  destruct (HasPrefix k p) eqn:E.
  - f_equal. apply keys_ascending_cons in Hs. destruct Hs as [Hs Hf].
    apply IH; [assumption|]. intros e l' ->.
    inversion Hf as [|? ? He _]; subst. intros Hlt. apply Hk.
    now apply bytes_lt_trans with (fst e).
  - symmetry. apply with_prefix_none.
    now apply no_prefix_after with (k, v).
Qed.

(** The entries a forward run visits from [Seek(prefix)] are the
    entries of the bucket under the prefix. *)
Lemma take_prefixed_seek (p : bytes) (b : BBucket) :
  keys_ascending b -> take_prefixed p (seek_list p b) = with_prefix p b.
Proof.
  intros Hs. destruct (seek_list_suffix p b) as [l0 [Hb Hf]].
  assert (H : with_prefix p b = with_prefix p (seek_list p b)).
  { assert (H0 : with_prefix p l0 = []).
    { apply with_prefix_none.
      eapply Forall_impl; [|exact Hf]. simpl. intros e He.
      now apply lt_not_HasPrefix. }
    rewrite Hb at 1. now rewrite with_prefix_app, H0. }
  rewrite H. apply take_prefixed_from.
  - rewrite Hb in Hs. now apply keys_ascending_app in Hs.
  - intros e l' H'. now apply seek_list_head with b l'.
Qed.

Lemma take_drop_prefixed (p : bytes) (l : list entry) :
  take_prefixed p l ++ drop_prefixed p l = l.
Proof.
  induction l as [|e l IH]; simpl; [reflexivity|].
  destruct (HasPrefix (fst e) p); simpl; [now rewrite IH | reflexivity].
Qed.

Lemma take_prefixed_all (p : bytes) (l : list entry) :
  Forall (fun e => HasPrefix (fst e) p = true) (take_prefixed p l).
Proof.
  induction l as [|e l IH]; simpl; [constructor|].
  destruct (HasPrefix (fst e) p) eqn:E; constructor; assumption.
Qed.

Lemma drop_prefixed_head (p : bytes) (l : list entry) (e : entry)
    (l' : list entry) :
  drop_prefixed p l = e :: l' -> HasPrefix (fst e) p = false.
Proof.
  induction l as [|e0 l IH]; simpl; [discriminate|].
  destruct (HasPrefix (fst e0) p) eqn:E; [assumption|].
  now intros [= -> ->].
Qed.

(** ** Pages *)

(** A forward page of the engine under a visitor that never halts. *)
Lemma RawIterateCore_collect (St : Type)
    (visitFn : St -> bytes -> bytes -> bool * St)
    (b : BBucket) (window : _RawIterationParams) (s : St) :
  (forall s k v, fst (visitFn s k v) = true) ->
  Direction window = IterateRegular -> (Offset window <= 0)%Z ->
  _RawIterateCore visitFn b window s
  = (page_resume b window,
     fold_left (fun s (e : entry) => snd (visitFn s (fst e) (snd e)))
       (page_rows b window) s).
Proof.
  intros Hv Hd Ho. rewrite RawIterateCore_regular by assumption.
  unfold page_resume, page_rows. fold (page_start window).
  destruct (Limit window >? 0)%Z eqn:HL.
  - rewrite scan_limited by (assumption || lia).
    rewrite Z.sub_0_r. reflexivity.
  - rewrite scan_unlimited by (assumption || lia). reflexivity.
Qed.

Lemma take_prefixed_app (p : bytes) (ys rest : list entry) :
  Forall (fun e => HasPrefix (fst e) p = true) ys ->
  (forall e l', rest = e :: l' -> HasPrefix (fst e) p = false) ->
  take_prefixed p (ys ++ rest) = ys.
Proof.
  intros Hys Hrest. induction Hys as [|e ys He Hys IH]; simpl.
  - destruct rest as [|e l']; [reflexivity|]. simpl.
    now rewrite (Hrest e l' eq_refl).
  - rewrite He. now rewrite IH.
Qed.

Lemma Forall_skipn (A : Type) (Q : A -> Prop) (n : nat) (l : list A) :
  Forall Q l -> Forall Q (skipn n l).
Proof.
  revert l. induction n as [|n IH]; intros l H; simpl; [assumption|].
  destruct H; [constructor | now apply IH].
Qed.

Lemma seek_list_ge (p : bytes) (b : BBucket) :
  keys_ascending b ->
  Forall (fun e => Compare (fst e) p <> Lt) (seek_list p b).
Proof.
  intros Hs. destruct (seek_list_suffix p b) as [l0 [Hb _]].
  rewrite Hb in Hs. apply keys_ascending_app in Hs. destruct Hs as [_ Hs].
  destruct (seek_list p b) as [|[k v] l] eqn:E; [constructor|].
  pose proof (seek_list_head p b (k, v) l E) as Hk. simpl in Hk.
  constructor; [exact Hk|].
  apply keys_ascending_cons in Hs. destruct Hs as [_ Hf].
  eapply Forall_impl; [|exact Hf]. simpl. intros e He Hlt. apply Hk.
  now apply bytes_lt_trans with (fst e).
Qed.

(** Seeking the key of an entry of the part of the bucket that starts
    at [Seek(p)] lands on that entry. *)
Lemma seek_list_inside (p : bytes) (b : BBucket) (l1 l2 : list entry)
    (e : entry) :
  keys_ascending b -> seek_list p b = l1 ++ e :: l2 ->
  seek_list (fst e) b = e :: l2.
Proof.
  intros Hs E. destruct (seek_list_suffix p b) as [l0 [Hb _]].
  rewrite E in Hb.
  assert (Hb' : b = (l0 ++ l1) ++ e :: l2) by (now rewrite <- app_assoc).
  rewrite Hb' in Hs. rewrite Hb'. now apply seek_list_at.
Qed.

(** Past the entries under the prefix no entry begins with it. *)
Lemma drop_prefixed_none (p : bytes) (b : BBucket) :
  keys_ascending b ->
  Forall (fun e => HasPrefix (fst e) p = false)
    (drop_prefixed p (seek_list p b)).
Proof.
  intros Hs. pose proof (seek_list_ge p b Hs) as Hge.
  assert (Hsl : keys_ascending (seek_list p b)).
  { destruct (seek_list_suffix p b) as [l0 [Hb _]].
    rewrite Hb in Hs. now apply keys_ascending_app in Hs. }
  pose proof (take_drop_prefixed p (seek_list p b)) as Hl.
  destruct (drop_prefixed p (seek_list p b)) as [|e1 r1] eqn:Er;
    [constructor|].
  pose proof (drop_prefixed_head p _ e1 r1 Er) as Hh.
  constructor; [exact Hh|].
  rewrite <- Hl in Hsl. apply keys_ascending_app in Hsl.
  destruct Hsl as [_ Hsr].
  apply no_prefix_after with e1; try assumption.
  rewrite Forall_forall in Hge. apply Hge. rewrite <- Hl.
  apply in_or_app. right. now left.
Qed.

(** A page cut by a limit, then the page that starts at its resume
    key, together visit the entries under the prefix, provided two
    entries follow them in the bucket. *)
Lemma two_pages (b : BBucket) (p : bytes) (L : Z) :
  keys_ascending b -> (0 < L)%Z ->
  (forall e, In e b -> fst e <> []) ->
  (with_prefix p b <> [] -> 2 <= length (drop_prefixed p (seek_list p b))) ->
  let first := mkParams p (mkWindow L 0 [] IterateRegular) in
  let second :=
    mkParams p (mkWindow 0 0 (slice_of (page_resume b first)) IterateRegular) in
  page_rows b first ++ page_rows b second = with_prefix p b.
Proof.
  intros Hs HL Hkeys Htwo first second.
  rewrite <- (take_prefixed_seek p b Hs) in *.
  assert (H1 : page_rows b first
               = firstn (Z.to_nat L) (take_prefixed p (seek_list p b))).
  { unfold page_rows, page_start, first. simpl.
    replace (L >? 0)%Z with true by lia. reflexivity. }
  assert (HC : page_resume b first
               = if (Z.to_nat L <=? length (take_prefixed p (seek_list p b)))%nat
                 then key_of_next (skipn (Z.to_nat L) (seek_list p b))
                 else key_of_next (tl (drop_prefixed p (seek_list p b)))).
  { unfold page_resume, page_start, first. simpl.
    replace (L >? 0)%Z with true by lia. reflexivity. }
  assert (H2 : page_rows b second
               = take_prefixed p
                   (seek_list
                      (if (0 <? length (slice_of (page_resume b first)))%nat
                       then slice_of (page_resume b first) else p) b))
    by reflexivity.
  rewrite H1, H2, HC. clear H1 H2 HC first second.
  pose proof (seek_list_ge p b Hs) as Hge.
  assert (Hsl : keys_ascending (seek_list p b)).
  { destruct (seek_list_suffix p b) as [l0 [Hb _]].
    rewrite Hb in Hs. now apply keys_ascending_app in Hs. }
  assert (Hin_l : forall e, In e (seek_list p b) -> In e b).
  { intros e He. destruct (seek_list_suffix p b) as [l0 [Hb _]].
    rewrite Hb. apply in_or_app. now right. }
  assert (Hstart : forall e l1 l2, seek_list p b = l1 ++ e :: l2 ->
             seek_list
               (if (0 <? length (fst e))%nat then fst e else p) b = e :: l2).
  { intros e l1 l2 E.
    assert (Hne : fst e <> []).
    { apply Hkeys, Hin_l. rewrite E. apply in_or_app. right. now left. }
    destruct (fst e) as [|x k] eqn:Ek; [congruence|]. simpl.
    rewrite <- Ek. now apply seek_list_inside with p l1. }
  pose proof (take_drop_prefixed p (seek_list p b)) as Hl.
  pose proof (take_prefixed_all p (seek_list p b)) as Hall.
  remember (seek_list p b) as l eqn:El.
  remember (take_prefixed p l) as xs eqn:Exs.
  remember (drop_prefixed p l) as rest eqn:Erest.
  remember (Z.to_nat L) as n eqn:En.
  assert (Hn : 1 <= n) by lia.
  assert (Hrest_np : Forall (fun e => HasPrefix (fst e) p = false) rest).
  { rewrite Erest, El. now apply drop_prefixed_none. }
  assert (Hgoal : forall l2, (forall e l3, l2 = e :: l3 ->
                                HasPrefix (fst e) p = false) ->
                    xs ++ take_prefixed p l2 = xs).
  { intros l2 Hl2. destruct l2 as [|e l3]; simpl.
    - apply app_nil_r.
    - rewrite (Hl2 e l3 eq_refl). apply app_nil_r. }
  destruct (n <=? length xs)%nat eqn:Hcmp.
  - apply Nat.leb_le in Hcmp.
    assert (Hsk : skipn n l = skipn n xs ++ rest).
    { rewrite <- Hl, skipn_app.
      replace (n - length xs) with 0 by lia. reflexivity. }
    assert (Hrest2 : 2 <= length rest).
    { apply Htwo. intros E. rewrite E in Hcmp. simpl in Hcmp. lia. }
    destruct (skipn n l) as [|e l'] eqn:Esk.
    + destruct rest; [simpl in Hrest2; lia|].
      destruct (skipn n xs); discriminate.
    + unfold key_of_next. simpl hd_error. simpl option_map. simpl slice_of.
      rewrite (Hstart e (firstn n l) l').
      2:{ rewrite <- Esk. symmetry. apply firstn_skipn. }
      rewrite Hsk. rewrite take_prefixed_app.
      * apply firstn_skipn.
      * now apply Forall_skipn.
      * intros e0 l0 E0. rewrite E0 in Hrest_np.
        now inversion Hrest_np.
  - apply Nat.leb_gt in Hcmp.
    rewrite firstn_all2 by lia.
    destruct rest as [|e1 [|e2 r2]].
    + simpl. destruct xs as [|x xs'].
      * rewrite <- El, <- Exs. reflexivity.
      * exfalso. assert (H : 2 <= length (@nil entry))
          by (apply Htwo; discriminate).
        simpl in H. lia.
    + simpl. destruct xs as [|x xs'].
      * rewrite <- El, <- Exs. reflexivity.
      * exfalso. assert (H : 2 <= length [e1])
          by (apply Htwo; discriminate).
        simpl in H. lia.
    + unfold key_of_next. simpl tl. simpl hd_error. simpl option_map.
      simpl slice_of.
      rewrite (Hstart e2 (xs ++ [e1]) r2).
      2:{ rewrite <- Hl, <- app_assoc. reflexivity. }
      apply Hgoal. intros e l3 [= <- <-].
      inversion Hrest_np as [|? ? _ Hr2]; subst. now inversion Hr2.
Qed.

(** ** Go's [int] *)

Lemma wrap_int_range (z : Z) : (int_min <= wrap_int z <= int_max)%Z.
Proof.
  unfold wrap_int, int_min, int_max.
  pose proof (Z.mod_pos_bound (z + 2 ^ 63) (2 ^ 64) eq_refl). lia.
Qed.

Lemma wrap_int_small (z : Z) :
  (int_min <= z <= int_max)%Z -> wrap_int z = z.
Proof.
  unfold wrap_int, int_min, int_max. intros H.
  rewrite Z.mod_small; lia.
Qed.

Lemma wrap_int_add (a b : Z) : wrap_int (wrap_int a + b) = wrap_int (a + b).
Proof.
  unfold wrap_int. f_equal.
  replace ((a + 2 ^ 63) mod 2 ^ 64 - 2 ^ 63 + b + 2 ^ 63)%Z
    with ((a + 2 ^ 63) mod 2 ^ 64 + b)%Z by lia.
  rewrite Zplus_mod_idemp_l. f_equal. lia.
Qed.

Lemma Equal_eq (a b : bytes) : Equal a b = true <-> a = b.
Proof.
  unfold Equal. rewrite <- Compare_eq. destruct (Compare a b);
    split; congruence.
Qed.

Lemma Equal_neq (a b : bytes) : a <> b -> Equal a b = false.
Proof.
  intros H. destruct (Equal a b) eqn:E; [|reflexivity].
  apply Equal_eq in E. contradiction.
Qed.

Lemma pack_app_inj (X : Type) (fn : PackFn X) (x x' : X) (r r' : bytes) :
  self_delimiting fn -> pack fn x ++ r = pack fn x' ++ r' ->
  x = x' /\ r = r'.
Proof.
  intros Hfn E. pose proof (Hfn x r) as H1. rewrite E, Hfn in H1.
  injection H1 as -> ->. split; reflexivity.
Qed.

Lemma pack_inj (X : Type) (fn : PackFn X) (x x' : X) :
  self_delimiting fn -> pack fn x = pack fn x' -> x = x'.
Proof.
  intros Hfn E.
  apply (pack_app_inj X fn x x' [] [] Hfn). now rewrite E.
Qed.

Lemma bytes_eq_dec (a b : bytes) : {a = b} + {a <> b}.
Proof. apply list_eq_dec. apply byte_eq_dec. Qed.

Lemma bytes_eq_dec_refl (A : Type) (a : bytes) (x y : A) :
  (if bytes_eq_dec a a then x else y) = x.
Proof. destruct (bytes_eq_dec a a) as [_|n]; [reflexivity | now contradiction n]. Qed.

(** ** Keys of the index *)

Section IndexProofs.
Variables K T P : Type.
Context {ZK : HasZero K} {ZT : HasZero T} {ZP : HasZero P}.
Context {CT : Comparable T} {CP : Comparable P}.
Variable range_order : GoMap T P -> GoMap T P.
Variable PackCountFn : PackFn Z.
Variable indexInfo : IndexInfo K T P.
Hypothesis Hok : index_ok range_order PackCountFn indexInfo.

Local Notation encK := (pack (TargetPackFn indexInfo)).
Local Notation encT := (pack (TermPackFn indexInfo)).
Local Notation encP := (pack (PriorityPackFn indexInfo)).
Local Notation fwd := (_TermTargetKey indexInfo).
Local Notation rev_key := (_TargetTermKey indexInfo).
Local Notation cnt := (_TermCountKey indexInfo).
Local Notation inv := (index_inv PackCountFn indexInfo).
Local Notation count_of b t := (snd (ReadTermCount PackCountFn indexInfo b t 0)).
Local Notation rows b t := (term_rows indexInfo b t).
Local Notation del_step b k t p :=
  (_IncTermCount PackCountFn indexInfo (_DelTargetTermPair indexInfo b k t p) t (-1)).
Local Notation add_step b k t p :=
  (_IncTermCount PackCountFn indexInfo (_AddTargetTermPair indexInfo b k t p) t 1).

Lemma term_cases (t t' : T) :
  (t = t' /\ equal t t' = true) \/ (t <> t' /\ equal t t' = false).
Proof. apply equal_cases. apply Hok. Qed.

Lemma priority_cases (p p' : P) :
  (p = p' /\ equal p p' = true) \/ (p <> p' /\ equal p p' = false).
Proof. apply equal_cases. apply Hok. Qed.

Lemma tmap_get_In (m : GoMap T P) (t : T) (p : P) :
  NoDup (map fst m) -> (map_get m t = Some p <-> In (t, p) m).
Proof. apply map_get_In. apply Hok. Qed.

Lemma tmap_get_None (m : GoMap T P) (t : T) :
  map_get m t = None <-> ~ In t (map fst m).
Proof. apply map_get_None. apply Hok. Qed.

Lemma tmap_get_range (m : GoMap T P) (t : T) :
  NoDup (map fst m) -> map_get (range_order m) t = map_get m t.
Proof.
  intros Hm. apply map_get_perm; [apply Hok | assumption | apply Hok].
Qed.

Lemma range_is_map (m : GoMap T P) :
  NoDup (map fst m) -> NoDup (map fst (range_order m)).
Proof.
  intros Hm. eapply Permutation_NoDup; [|exact Hm].
  apply Permutation_map, Permutation_sym, Hok.
Qed.

Lemma fwd_inj (k k' : K) (t t' : T) (p p' : P) :
  fwd k t p = fwd k' t' p' -> k = k' /\ t = t' /\ p = p'.
Proof.
  unfold _TermTargetKey. intros [= E].
  apply pack_app_inj in E; [|apply Hok]. destruct E as [-> E].
  apply pack_app_inj in E; [|apply Hok]. destruct E as [-> E].
  apply pack_inj in E; [|apply Hok]. now subst.
Qed.

Lemma rev_inj (k k' : K) (t t' : T) :
  rev_key k t = rev_key k' t' -> k = k' /\ t = t'.
Proof.
  unfold _TargetTermKey. intros [= E].
  apply pack_app_inj in E; [|apply Hok]. destruct E as [-> E].
  apply pack_inj in E; [|apply Hok]. now subst.
Qed.

Lemma cnt_inj (t t' : T) : cnt t = cnt t' -> t = t'.
Proof.
  unfold _TermCountKey. intros [= E]. apply pack_inj in E; [|apply Hok].
  assumption.
Qed.

Lemma fwd_not_rev (k k' : K) (t t' : T) (p : P) : fwd k t p <> rev_key k' t'.
Proof. discriminate. Qed.

Lemma fwd_not_cnt (k : K) (t t' : T) (p : P) : fwd k t p <> cnt t'.
Proof. discriminate. Qed.

Lemma rev_not_cnt (k : K) (t t' : T) : rev_key k t <> cnt t'.
Proof. discriminate. Qed.

Lemma key_nonempty (b : BBucket) (key value : bytes) :
  index_inv PackCountFn indexInfo b -> Get b key = Some value -> key <> [].
Proof.
  intros Hinv Hg. pose proof (inv_rows Hinv) as Hrows.
  destruct (Hrows _ _ Hg)
    as [(t & p & k & -> & _)|[(k & t & p & -> & _)|(t & c & -> & _)]];
    discriminate.
Qed.

(** Which keys lie under the prefix of a term. *)
Lemma term_prefix_fwd (k : K) (t t' : T) (p : P) :
  HasPrefix (fwd k t' p) (_TermKeyPrefix indexInfo t) = true <-> t' = t.
Proof.
  unfold _TermTargetKey, _TermKeyPrefix. simpl. split.
  - intros H. apply HasPrefix_iff in H. destruct H as [r E].
    apply pack_app_inj in E; [|apply Hok]. tauto.
  - intros ->. apply HasPrefix_app.
Qed.

Lemma term_prefix_rev (k : K) (t t' : T) :
  HasPrefix (rev_key k t') (_TermKeyPrefix indexInfo t) = false.
Proof. reflexivity. Qed.

Lemma term_prefix_cnt (t t' : T) :
  HasPrefix (cnt t') (_TermKeyPrefix indexInfo t) = false.
Proof. reflexivity. Qed.

(** Which keys lie under the prefix of a target. *)
Lemma target_prefix_rev (k k' : K) (t : T) :
  HasPrefix (rev_key k' t) (_TargetKeyPrefix indexInfo k) = true <-> k' = k.
Proof.
  unfold _TargetTermKey, _TargetKeyPrefix. simpl. split.
  - intros H. apply HasPrefix_iff in H. destruct H as [r E].
    apply pack_app_inj in E; [|apply Hok]. tauto.
  - intros ->. apply HasPrefix_app.
Qed.

Lemma target_prefix_fwd (k k' : K) (t : T) (p : P) :
  HasPrefix (fwd k' t p) (_TargetKeyPrefix indexInfo k) = false.
Proof. reflexivity. Qed.

Lemma target_prefix_cnt (k : K) (t : T) :
  HasPrefix (cnt t) (_TargetKeyPrefix indexInfo k) = false.
Proof. reflexivity. Qed.

(** Reading the keys back. *)
Lemma ReadTargetTerm_key (k : K) (t : T) :
  _ReadTargetTerm indexInfo (rev_key k t) = (k, t).
Proof.
  unfold _ReadTargetTerm, _TargetTermKey, read, skip_byte, NewReader.
  rewrite (ok_target Hok).
  rewrite <- (app_nil_r (encT t)). rewrite (ok_term Hok). reflexivity.
Qed.

Lemma ReadTermTargetPriority_key (k : K) (t : T) (p : P) :
  _ReadTermTargetPriority indexInfo (fwd k t p) = (t, k, p).
Proof.
  unfold _ReadTermTargetPriority, _TermTargetKey, read, skip_byte, NewReader.
  rewrite (ok_term Hok). rewrite (ok_priority Hok).
  rewrite <- (app_nil_r (encK k)). rewrite (ok_target Hok). reflexivity.
Qed.

Lemma read_priority (p p0 : P) :
  FromBytesInto (encP p) p0 (PriorityPackFn indexInfo) = (true, p).
Proof.
  unfold FromBytesInto. rewrite <- (app_nil_r (encP p)).
  now rewrite (ok_priority Hok).
Qed.

(** Reading a count. *)
Lemma count_missing (b : BBucket) (t : T) :
  Get b (cnt t) = None -> ReadTermCount PackCountFn indexInfo b t 0 = (false, 0%Z).
Proof.
  intros H. unfold ReadTermCount, FromBytesInto. rewrite H. simpl.
  now rewrite (ok_count_nil Hok).
Qed.

Lemma count_present (b : BBucket) (t : T) (c : Z) :
  (int_min <= c <= int_max)%Z ->
  Get b (cnt t) = Some (pack PackCountFn c) ->
  ReadTermCount PackCountFn indexInfo b t 0 = (true, c).
Proof.
  intros Hc H. unfold ReadTermCount, FromBytesInto. rewrite H. simpl.
  destruct (ok_count Hok Hc) as [r ->]. reflexivity.
Qed.

Lemma count_same (b b' : BBucket) (t : T) :
  Get b' (cnt t) = Get b (cnt t) ->
  ReadTermCount PackCountFn indexInfo b' t 0
  = ReadTermCount PackCountFn indexInfo b t 0.
Proof. intros H. unfold ReadTermCount. now rewrite H. Qed.

Lemma IncTermCount_get (b : BBucket) (t : T) (d : Z) (key : bytes) :
  Get (_IncTermCount PackCountFn indexInfo b t d) key
  = if Equal key (cnt t)
    then Some (pack PackCountFn
                 (wrap_int (snd (ReadTermCount PackCountFn indexInfo b t 0) + d)))
    else Get b key.
Proof.
  unfold _IncTermCount, RawMustPut, ToBytes, Equal.
  destruct (Compare key (cnt t)) eqn:E.
  - apply Compare_eq in E. subst key. rewrite Get_Put_same. reflexivity.
  - rewrite Get_Put_other; [reflexivity|]. intros ->.
    now rewrite Compare_refl in E.
  - rewrite Get_Put_other; [reflexivity|]. intros ->.
    now rewrite Compare_refl in E.
Qed.

(** ** One removal and one addition of a pairing *)

Lemma Del_get_other (b : BBucket) (k : K) (t : T) (p : P) (key : bytes) :
  keys_ascending b -> key <> fwd k t p -> key <> rev_key k t ->
  Get (_DelTargetTermPair indexInfo b k t p) key = Get b key.
Proof.
  intros Hs H1 H2. unfold _DelTargetTermPair.
  rewrite Get_Delete_other; [|now apply Delete_ascending|assumption].
  now apply Get_Delete_other.
Qed.

Lemma Del_get_fwd (b : BBucket) (k : K) (t : T) (p : P) :
  keys_ascending b -> Get (_DelTargetTermPair indexInfo b k t p) (fwd k t p) = None.
Proof.
  intros Hs. unfold _DelTargetTermPair.
  rewrite Get_Delete_other; [|now apply Delete_ascending|discriminate].
  now apply Get_Delete_same.
Qed.

Lemma Del_get_rev (b : BBucket) (k : K) (t : T) (p : P) :
  keys_ascending b -> Get (_DelTargetTermPair indexInfo b k t p) (rev_key k t) = None.
Proof.
  intros Hs. unfold _DelTargetTermPair.
  apply Get_Delete_same. now apply Delete_ascending.
Qed.

Lemma Add_get_other (b : BBucket) (k : K) (t : T) (p : P) (key : bytes) :
  key <> fwd k t p -> key <> rev_key k t ->
  Get (_AddTargetTermPair indexInfo b k t p) key = Get b key.
Proof.
  intros H1 H2. unfold _AddTargetTermPair, ToBytes.
  rewrite Get_Put_other by assumption. now apply Get_Put_other.
Qed.

Lemma Add_get_fwd (b : BBucket) (k : K) (t : T) (p : P) :
  Get (_AddTargetTermPair indexInfo b k t p) (fwd k t p) = Some [].
Proof.
  unfold _AddTargetTermPair, ToBytes.
  rewrite Get_Put_other by discriminate. apply Get_Put_same.
Qed.

Lemma Add_get_rev (b : BBucket) (k : K) (t : T) (p : P) :
  Get (_AddTargetTermPair indexInfo b k t p) (rev_key k t) = Some (encP p).
Proof. unfold _AddTargetTermPair, ToBytes. apply Get_Put_same. Qed.

Lemma rows_Inc (b : BBucket) (t t' : T) (d : Z) :
  length (rows (_IncTermCount PackCountFn indexInfo b t d) t')
  = length (rows b t').
Proof.
  unfold term_rows, _IncTermCount, RawMustPut.
  rewrite with_prefix_Put, term_prefix_cnt. apply Nat.add_0_r.
Qed.

Lemma rows_Del (b : BBucket) (k : K) (t t' : T) (p : P) :
  Get b (fwd k t p) <> None ->
  length (rows (_DelTargetTermPair indexInfo b k t p) t')
  + (if equal t' t then 1 else 0)
  = length (rows b t').
Proof.
  intros Hg. unfold term_rows, _DelTargetTermPair.
  pose proof (with_prefix_Delete (_TermKeyPrefix indexInfo t')
                (Delete b (fwd k t p)) (rev_key k t)) as H1.
  pose proof (with_prefix_Delete (_TermKeyPrefix indexInfo t')
                b (fwd k t p)) as H2.
  rewrite term_prefix_rev in H1. rewrite Nat.add_0_r in H1. rewrite H1.
  destruct (term_cases t' t) as [[-> E]|[Hne E]]; rewrite E.
  - rewrite (proj2 (term_prefix_fwd k t t p) eq_refl) in H2.
    destruct (Get b (fwd k t p)); [exact H2 | congruence].
  - destruct (HasPrefix (fwd k t p) (_TermKeyPrefix indexInfo t')) eqn:F.
    + apply term_prefix_fwd in F. congruence.
    + exact H2.
Qed.

Lemma rows_Add (b : BBucket) (k : K) (t t' : T) (p : P) :
  Get b (fwd k t p) = None ->
  length (rows (_AddTargetTermPair indexInfo b k t p) t')
  = length (rows b t') + (if equal t' t then 1 else 0).
Proof.
  intros Hg. unfold term_rows, _AddTargetTermPair.
  rewrite with_prefix_Put, term_prefix_rev, Nat.add_0_r.
  rewrite with_prefix_Put, Hg.
  destruct (term_cases t' t) as [[-> E]|[Hne E]]; rewrite E.
  - rewrite (proj2 (term_prefix_fwd k t t p) eq_refl). reflexivity.
  - destruct (HasPrefix (fwd k t p) (_TermKeyPrefix indexInfo t')) eqn:F.
    + apply term_prefix_fwd in F. congruence.
    + reflexivity.
Qed.

Lemma rows_nonempty_length (b : BBucket) (t : T) :
  rows b t <> [] <-> length (rows b t) <> 0.
Proof. destruct (rows b t); simpl; split; congruence. Qed.

(** Removing a pairing that is there keeps the invariants. *)
Lemma del_step_inv (b : BBucket) (k : K) (t : T) (p : P) :
  inv b -> Get b (rev_key k t) = Some (encP p) ->
  inv (del_step b k t p)
  /\ (forall k' t',
        Get (del_step b k t p) (rev_key k' t')
        = if bytes_eq_dec (rev_key k' t') (rev_key k t) then None
          else Get b (rev_key k' t')).
Proof.
  intros Hinv Hrev.
  pose proof (inv_ascending Hinv) as Hs.
  pose proof (inv_rows Hinv) as Hrows.
  pose proof (inv_pair Hinv) as Hpair.
  pose proof (inv_count Hinv) as Hcount.
  pose proof (inv_count_row Hinv) as Hcrow.
  assert (Hfwd : Get b (fwd k t p) <> None) by now apply Hpair.
  assert (Hget_rev : forall k' t',
             Get (del_step b k t p) (rev_key k' t')
             = if bytes_eq_dec (rev_key k' t') (rev_key k t) then None
               else Get b (rev_key k' t')).
  { intros k' t'. rewrite IncTermCount_get.
    rewrite Equal_neq by discriminate.
    destruct (bytes_eq_dec (rev_key k' t') (rev_key k t)) as [E|E].
    - rewrite E. now apply Del_get_rev.
    - apply Del_get_other; [assumption | discriminate | assumption]. }
  assert (Hget_fwd : forall k' t' p',
             Get (del_step b k t p) (fwd k' t' p')
             = if bytes_eq_dec (fwd k' t' p') (fwd k t p) then None
               else Get b (fwd k' t' p')).
  { intros k' t' p'. rewrite IncTermCount_get.
    rewrite Equal_neq by discriminate.
    destruct (bytes_eq_dec (fwd k' t' p') (fwd k t p)) as [E|E].
    - rewrite E. now apply Del_get_fwd.
    - apply Del_get_other; [assumption | assumption | discriminate]. }
  assert (Hget_cnt : forall t', t' <> t ->
             Get (del_step b k t p) (cnt t') = Get b (cnt t')).
  { intros t' Hne. rewrite IncTermCount_get.
    rewrite Equal_neq.
    - apply Del_get_other; [assumption | discriminate | discriminate].
    - intros E. apply cnt_inj in E. contradiction. }
  assert (Hcnt_old : count_of (_DelTargetTermPair indexInfo b k t p) t
                     = count_of b t).
  { f_equal. apply count_same.
    apply Del_get_other; [assumption | discriminate | discriminate]. }
  assert (Hrows_len : forall t',
             length (rows (del_step b k t p) t')
             + (if equal t' t then 1 else 0) = length (rows b t')).
  { intros t'. rewrite rows_Inc. now apply rows_Del. }
  split; [|exact Hget_rev]. constructor.
  - unfold _IncTermCount, RawMustPut, _DelTargetTermPair.
    now apply Put_ascending, Delete_ascending, Delete_ascending.
  - intros key value Hg. rewrite IncTermCount_get in Hg.
    destruct (Equal key (cnt t)) eqn:E.
    + apply Equal_eq in E. subst key. injection Hg as <-.
      right. right. eexists t, _. split; [reflexivity|].
      split; [reflexivity | apply wrap_int_range].
    + apply Hrows.
      destruct (bytes_eq_dec key (fwd k t p)) as [->|H1].
      { rewrite Del_get_fwd in Hg by assumption. discriminate. }
      destruct (bytes_eq_dec key (rev_key k t)) as [->|H2].
      { rewrite Del_get_rev in Hg by assumption. discriminate. }
      now rewrite Del_get_other in Hg.
  - intros t' p' k'. rewrite Hget_rev, Hget_fwd.
    destruct (bytes_eq_dec (rev_key k' t') (rev_key k t)) as [E|E].
    + apply rev_inj in E. destruct E as [-> ->].
      split; [|discriminate]. intros H. exfalso.
      destruct (bytes_eq_dec (fwd k t p') (fwd k t p)) as [E|E];
        [congruence|].
      apply Hpair in H. rewrite Hrev in H. injection H as H.
      apply pack_inj in H; [|apply Hok]. subst p'. congruence.
    + destruct (bytes_eq_dec (fwd k' t' p') (fwd k t p)) as [E'|E'].
      * apply fwd_inj in E'. destruct E' as (-> & -> & ->).
        congruence.
      * apply Hpair.
  - intros t'. specialize (Hrows_len t').
    destruct (term_cases t' t) as [[-> E]|[Hne E]];
      rewrite E in Hrows_len.
    + erewrite count_present; [| apply wrap_int_range |].
      2:{ rewrite IncTermCount_get.
          rewrite (proj2 (Equal_eq _ _) eq_refl). reflexivity. }
      simpl. rewrite Hcnt_old, Hcount, wrap_int_add. f_equal. lia.
    + rewrite (count_same _ _ _ (Hget_cnt t' Hne)).
      rewrite Hcount. f_equal. lia.
  - intros t' Hne. specialize (Hrows_len t').
    destruct (term_cases t' t) as [[-> E]|[Hneq E]];
      rewrite E in Hrows_len.
    + rewrite IncTermCount_get.
      rewrite (proj2 (Equal_eq _ _) eq_refl). discriminate.
    + rewrite (Hget_cnt t' Hneq). apply Hcrow.
      apply rows_nonempty_length. apply rows_nonempty_length in Hne. lia.
Qed.

(** Adding a pairing that is not there keeps the invariants. *)
Lemma add_step_inv (b : BBucket) (k : K) (t : T) (p : P) :
  inv b -> Get b (rev_key k t) = None ->
  inv (add_step b k t p)
  /\ (forall k' t',
        Get (add_step b k t p) (rev_key k' t')
        = if bytes_eq_dec (rev_key k' t') (rev_key k t) then Some (encP p)
          else Get b (rev_key k' t')).
Proof.
  intros Hinv Hrev.
  pose proof (inv_ascending Hinv) as Hs.
  pose proof (inv_rows Hinv) as Hrows.
  pose proof (inv_pair Hinv) as Hpair.
  pose proof (inv_count Hinv) as Hcount.
  pose proof (inv_count_row Hinv) as Hcrow.
  assert (Hfwd : forall p', Get b (fwd k t p') = None).
  { intros p'. destruct (Get b (fwd k t p')) eqn:G; [|reflexivity].
    assert (H : Get b (fwd k t p') <> None) by congruence.
    apply Hpair in H. congruence. }
  assert (Hget_rev : forall k' t',
             Get (add_step b k t p) (rev_key k' t')
             = if bytes_eq_dec (rev_key k' t') (rev_key k t)
               then Some (encP p) else Get b (rev_key k' t')).
  { intros k' t'. rewrite IncTermCount_get.
    rewrite Equal_neq by discriminate.
    destruct (bytes_eq_dec (rev_key k' t') (rev_key k t)) as [E|E].
    - rewrite E. apply Add_get_rev.
    - apply Add_get_other; [discriminate | assumption]. }
  assert (Hget_fwd : forall k' t' p',
             Get (add_step b k t p) (fwd k' t' p')
             = if bytes_eq_dec (fwd k' t' p') (fwd k t p) then Some []
               else Get b (fwd k' t' p')).
  { intros k' t' p'. rewrite IncTermCount_get.
    rewrite Equal_neq by discriminate.
    destruct (bytes_eq_dec (fwd k' t' p') (fwd k t p)) as [E|E].
    - rewrite E. apply Add_get_fwd.
    - apply Add_get_other; [assumption | discriminate]. }
  assert (Hget_cnt : forall t', t' <> t ->
             Get (add_step b k t p) (cnt t') = Get b (cnt t')).
  { intros t' Hne. rewrite IncTermCount_get.
    rewrite Equal_neq.
    - apply Add_get_other; discriminate.
    - intros E. apply cnt_inj in E. contradiction. }
  assert (Hcnt_old : count_of (_AddTargetTermPair indexInfo b k t p) t
                     = count_of b t).
  { f_equal. apply count_same. apply Add_get_other; discriminate. }
  assert (Hrows_len : forall t',
             length (rows (add_step b k t p) t')
             = length (rows b t') + (if equal t' t then 1 else 0)).
  { intros t'. rewrite rows_Inc. apply rows_Add. apply Hfwd. }
  split; [|exact Hget_rev]. constructor.
  - unfold _IncTermCount, RawMustPut, _AddTargetTermPair.
    now apply Put_ascending, Put_ascending, Put_ascending.
  - intros key value Hg. rewrite IncTermCount_get in Hg.
    destruct (Equal key (cnt t)) eqn:E.
    + apply Equal_eq in E. subst key. injection Hg as <-.
      right. right. eexists t, _. split; [reflexivity|].
      split; [reflexivity | apply wrap_int_range].
    + destruct (bytes_eq_dec key (fwd k t p)) as [->|H1].
      { rewrite Add_get_fwd in Hg. injection Hg as <-.
        left. now exists t, p, k. }
      destruct (bytes_eq_dec key (rev_key k t)) as [->|H2].
      { rewrite Add_get_rev in Hg. injection Hg as <-.
        right. left. now exists k, t, p. }
      apply Hrows. now rewrite Add_get_other in Hg.
  - intros t' p' k'. rewrite Hget_rev, Hget_fwd.
    destruct (bytes_eq_dec (rev_key k' t') (rev_key k t)) as [E|E].
    + apply rev_inj in E. destruct E as [-> ->].
      destruct (bytes_eq_dec (fwd k t p') (fwd k t p)) as [E|E].
      * apply fwd_inj in E. destruct E as (_ & _ & ->).
        split; [reflexivity | discriminate].
      * rewrite Hfwd. split; [congruence|]. intros [= H].
        apply pack_inj in H; [|apply Hok]. subst p'. congruence.
    + destruct (bytes_eq_dec (fwd k' t' p') (fwd k t p)) as [E'|E'].
      * apply fwd_inj in E'. destruct E' as (-> & -> & ->).
        congruence.
      * apply Hpair.
  - intros t'. specialize (Hrows_len t').
    destruct (term_cases t' t) as [[-> E]|[Hne E]];
      rewrite E in Hrows_len.
    + erewrite count_present; [| apply wrap_int_range |].
      2:{ rewrite IncTermCount_get.
          rewrite (proj2 (Equal_eq _ _) eq_refl). reflexivity. }
      simpl. rewrite Hcnt_old, Hcount, wrap_int_add. f_equal. lia.
    + rewrite (count_same _ _ _ (Hget_cnt t' Hne)).
      rewrite Hcount. f_equal. lia.
  - intros t' Hne. specialize (Hrows_len t').
    destruct (term_cases t' t) as [[-> E]|[Hneq E]];
      rewrite E in Hrows_len.
    + rewrite IncTermCount_get.
      rewrite (proj2 (Equal_eq _ _) eq_refl). discriminate.
    + rewrite (Hget_cnt t' Hneq). apply Hcrow.
      apply rows_nonempty_length. apply rows_nonempty_length in Hne. lia.
Qed.

(** ** What [IterateTarget] reads *)

Lemma fold_left_ext_eq (A B : Type) (f g : A -> B -> A) (l : list B) (a : A) :
  (forall a b, f a b = g a b) -> fold_left f l a = fold_left g l a.
Proof.
  intros H. revert a. induction l as [|x l IH]; intros a; simpl.
  - reflexivity.
  - rewrite H. apply IH.
Qed.

Lemma fold_left_map_eq (A B C : Type) (f : A -> C -> A) (g : B -> C)
    (l : list B) (a : A) :
  fold_left f (map g l) a = fold_left (fun a x => f a (g x)) l a.
Proof.
  revert a. induction l as [|x l IH]; intros a; simpl; [reflexivity|].
  apply IH.
Qed.

Local Notation term_of_row := (row_term_priority indexInfo).

Lemma IterateTarget_fold (St : Type) (g : St -> T -> P -> St)
    (b : BBucket) (k : K) (s : St) :
  keys_ascending b ->
  IterateTarget indexInfo b k (fun s t p => (true, g s t p)) s
  = fold_left (fun s tp => g s (fst tp) (snd tp))
      (map term_of_row (with_prefix (_TargetKeyPrefix indexInfo k) b)) s.
Proof.
  intros Hs. unfold IterateTarget.
  rewrite RawIterateCore_regular; [|reflexivity|simpl; lia].
  simpl. rewrite scan_unlimited; [|intros s0 k0 v0|lia].
  2:{ destruct (_ReadTargetTerm indexInfo k0). reflexivity. }
  simpl. rewrite take_prefixed_seek by assumption.
  rewrite fold_left_map_eq. apply fold_left_ext_eq.
  intros a e. unfold term_of_row. simpl.
  destruct (_ReadTargetTerm indexInfo (fst e)). reflexivity.
Qed.

Lemma pairing_shape (b : BBucket) (k : K) (t : T) (v : bytes) :
  inv b -> Get b (rev_key k t) = Some v -> exists p, v = encP p.
Proof.
  intros Hinv Hg. pose proof (inv_rows Hinv) as Hrows.
  destruct (Hrows _ _ Hg)
    as [(t' & p' & k' & E & _)|[(k' & t' & p' & E & ->)|(t' & c & E & _)]];
    try discriminate.
  now exists p'.
Qed.

Lemma target_row_shape (b : BBucket) (k : K) (e : entry) :
  inv b -> In e (with_prefix (_TargetKeyPrefix indexInfo k) b) ->
  exists t p, e = (rev_key k t, encP p).
Proof.
  intros Hinv Hin. pose proof (inv_rows Hinv) as Hrows.
  apply filter_In in Hin. destruct Hin as [Hin Hp]. destruct e as [key v].
  cbn [fst] in Hp. apply Get_In in Hin; [|apply Hinv].
  destruct (Hrows _ _ Hin)
    as [(t' & p' & k' & -> & _)|[(k' & t' & p' & -> & ->)|(t' & c & -> & _)]].
  - rewrite target_prefix_fwd in Hp. discriminate.
  - apply target_prefix_rev in Hp. subst k'. now exists t', p'.
  - rewrite target_prefix_cnt in Hp. discriminate.
Qed.

Lemma target_row_In (b : BBucket) (k : K) (t : T) (v : bytes) :
  keys_ascending b ->
  (In (rev_key k t, v) (with_prefix (_TargetKeyPrefix indexInfo k) b)
   <-> Get b (rev_key k t) = Some v).
Proof.
  intros Hs. unfold with_prefix. rewrite filter_In. cbn [fst].
  rewrite (proj2 (target_prefix_rev k k t) eq_refl).
  rewrite Get_In by assumption. tauto.
Qed.

Lemma row_term_priority_rev (k : K) (t : T) (p : P) :
  term_of_row (rev_key k t, encP p) = (t, p).
Proof.
  unfold term_of_row. simpl.
  now rewrite ReadTargetTerm_key, read_priority.
Qed.

(** The pairs read from the rows of a target: one per term, and
    exactly the pairings that the reverse rows record. *)
Lemma target_pairs_spec (b : BBucket) (k : K) :
  inv b ->
  let tp := map term_of_row
              (with_prefix (_TargetKeyPrefix indexInfo k) b) in
  NoDup (map fst tp)
  /\ forall t p, In (t, p) tp <-> Get b (rev_key k t) = Some (encP p).
Proof.
  intros Hinv tp. pose proof (inv_ascending Hinv) as Hs.
  assert (Hnd : NoDup (with_prefix (_TargetKeyPrefix indexInfo k) b)).
  { apply NoDup_filter. apply NoDup_map_inv with (f := fst).
    now apply keys_ascending_NoDup. }
  split.
  - unfold tp. rewrite map_map.
    apply NoDup_map_NoDup_ForallPairs; [|assumption].
    intros e1 e2 H1 H2 E.
    destruct (target_row_shape b k e1 Hinv H1) as (t1 & p1 & ->).
    destruct (target_row_shape b k e2 Hinv H2) as (t2 & p2 & ->).
    rewrite !row_term_priority_rev in E. simpl in E. subst t2.
    apply target_row_In in H1; [|assumption].
    apply target_row_In in H2; [|assumption]. congruence.
  - intros t p. unfold tp. rewrite in_map_iff. split.
    + intros [e [He Hin]].
      destruct (target_row_shape b k e Hinv Hin) as (t1 & p1 & ->).
      rewrite row_term_priority_rev in He. injection He as -> ->.
      now apply target_row_In in Hin.
    + intros Hg. exists (rev_key k t, encP p).
      split; [apply row_term_priority_rev | now apply target_row_In].
Qed.

(** The map [existing] that [SetTargetTerms] builds. *)
Lemma existing_spec (b : BBucket) (k : K) :
  inv b ->
  let existing :=
    IterateTarget indexInfo b k
      (fun existing term priority => (true, map_set existing term priority))
      [] in
  NoDup (map fst existing)
  /\ forall t, Get b (rev_key k t) = option_map encP (map_get existing t).
Proof.
  intros Hinv existing. pose proof (inv_ascending Hinv) as Hs.
  destruct (target_pairs_spec b k Hinv) as [Hnd Hin].
  set (tp := map term_of_row
               (with_prefix (_TargetKeyPrefix indexInfo k) b)) in *.
  assert (E : existing
              = fold_left (fun m (tp : T * P) => map_set m (fst tp) (snd tp))
                  tp []).
  { unfold existing. now rewrite IterateTarget_fold. }
  destruct (fold_select T P (ok_term_eq Hok) (fun _ _ => true)
              (fun m (tp : T * P) => map_set m (fst tp) (snd tp))
              (fun acc k0 v0 => eq_refl) tp [] Hnd (NoDup_nil _))
    as [Hnd' Hget].
  rewrite <- E in Hnd', Hget. split; [assumption|].
  intros t. rewrite Hget. simpl.
  destruct (map_get tp t) as [p|] eqn:G.
  - simpl. apply Hin. now apply tmap_get_In.
  - simpl. destruct (Get b (rev_key k t)) as [v|] eqn:Gb; [|reflexivity].
    destruct (pairing_shape b k t v Hinv Gb) as [p ->].
    apply Hin in Gb. apply tmap_get_In in Gb; [congruence | assumption].
Qed.

(** ** The two phases of [SetTargetTerms] *)

Lemma del_phase (target : K) :
  forall (dl : GoMap T P) (b : BBucket),
    inv b -> NoDup (map fst dl) ->
    (forall t p, In (t, p) dl -> Get b (rev_key target t) = Some (encP p)) ->
    let b' :=
      fold_left
        (fun bkt '(term, priority) =>
           let bkt := _DelTargetTermPair indexInfo bkt target term priority in
           _IncTermCount PackCountFn indexInfo bkt term (-1))
        dl b in
    inv b'
    /\ forall k' t',
        Get b' (rev_key k' t')
        = if bytes_eq_dec (rev_key k' t') (rev_key target t')
          then match map_get dl t' with
               | Some _ => None
               | None => Get b (rev_key k' t')
               end
          else Get b (rev_key k' t').
Proof.
  induction dl as [|[t p] dl IH]; intros b Hinv Hnd Hpre; simpl.
  - split; [assumption|]. intros k' t'.
    destruct (bytes_eq_dec (rev_key k' t') (rev_key target t')); reflexivity.
  - inversion Hnd as [|? ? Hnotin Hnd']; subst.
    destruct (del_step_inv b target t p Hinv (Hpre t p (or_introl eq_refl)))
      as [Hinv1 Hget1].
    assert (Hpre1 : forall t2 p2, In (t2, p2) dl ->
               Get (del_step b target t p) (rev_key target t2)
               = Some (encP p2)).
    { intros t2 p2 Hin. rewrite Hget1.
      destruct (bytes_eq_dec (rev_key target t2) (rev_key target t)) as [E|E].
      - apply rev_inj in E. destruct E as [_ ->]. exfalso. apply Hnotin.
        apply in_map_iff. now exists (t, p2).
      - apply Hpre. now right. }
    destruct (IH (del_step b target t p) Hinv1 Hnd' Hpre1) as [Hinv' Hget'].
    split; [exact Hinv'|]. intros k' t'. rewrite Hget', Hget1.
    destruct (bytes_eq_dec (rev_key k' t') (rev_key target t')) as [E|E].
    + destruct (term_cases t' t) as [[-> Eq]|[Hne Eq]]; rewrite Eq.
      * apply tmap_get_None in Hnotin. rewrite Hnotin.
        destruct (bytes_eq_dec (rev_key k' t) (rev_key target t));
          [reflexivity | contradiction].
      * destruct (map_get dl t'); [reflexivity|].
        destruct (bytes_eq_dec (rev_key k' t') (rev_key target t)) as [E'|E'];
          [|reflexivity].
        apply rev_inj in E'. destruct E' as [_ ->]. contradiction.
    + destruct (bytes_eq_dec (rev_key k' t') (rev_key target t)) as [E'|E'];
        [|reflexivity].
      apply rev_inj in E'. destruct E' as [-> ->]. contradiction.
Qed.

Lemma add_phase (target : K) :
  forall (al : GoMap T P) (b : BBucket),
    inv b -> NoDup (map fst al) ->
    (forall t p, In (t, p) al -> Get b (rev_key target t) = None) ->
    let b' :=
      fold_left
        (fun bkt '(term, priority) =>
           let bkt := _AddTargetTermPair indexInfo bkt target term priority in
           _IncTermCount PackCountFn indexInfo bkt term 1)
        al b in
    inv b'
    /\ forall k' t',
        Get b' (rev_key k' t')
        = if bytes_eq_dec (rev_key k' t') (rev_key target t')
          then match map_get al t' with
               | Some p => Some (encP p)
               | None => Get b (rev_key k' t')
               end
          else Get b (rev_key k' t').
Proof.
  induction al as [|[t p] al IH]; intros b Hinv Hnd Hpre; simpl.
  - split; [assumption|]. intros k' t'.
    destruct (bytes_eq_dec (rev_key k' t') (rev_key target t')); reflexivity.
  - inversion Hnd as [|? ? Hnotin Hnd']; subst.
    destruct (add_step_inv b target t p Hinv (Hpre t p (or_introl eq_refl)))
      as [Hinv1 Hget1].
    assert (Hpre1 : forall t2 p2, In (t2, p2) al ->
               Get (add_step b target t p) (rev_key target t2) = None).
    { intros t2 p2 Hin. rewrite Hget1.
      destruct (bytes_eq_dec (rev_key target t2) (rev_key target t)) as [E|E].
      - apply rev_inj in E. destruct E as [_ ->]. exfalso. apply Hnotin.
        apply in_map_iff. now exists (t, p2).
      - apply Hpre with p2. now right. }
    destruct (IH (add_step b target t p) Hinv1 Hnd' Hpre1) as [Hinv' Hget'].
    split; [exact Hinv'|]. intros k' t'. rewrite Hget', Hget1.
    destruct (bytes_eq_dec (rev_key k' t') (rev_key target t')) as [E|E].
    + destruct (term_cases t' t) as [[-> Eq]|[Hne Eq]]; rewrite Eq.
      * apply tmap_get_None in Hnotin. rewrite Hnotin.
        destruct (bytes_eq_dec (rev_key k' t) (rev_key target t));
          [reflexivity | contradiction].
      * destruct (map_get al t'); [reflexivity|].
        destruct (bytes_eq_dec (rev_key k' t') (rev_key target t)) as [E'|E'];
          [|reflexivity].
        apply rev_inj in E'. destruct E' as [_ ->]. contradiction.
    + destruct (bytes_eq_dec (rev_key k' t') (rev_key target t)) as [E'|E'];
        [|reflexivity].
      apply rev_inj in E'. destruct E' as [-> ->]. contradiction.
Qed.

(** The maps [del] and [add]. *)
Lemma del_map_spec (existing terms : GoMap T P) :
  NoDup (map fst existing) ->
  let del :=
    fold_left
      (fun del '(e, priority) =>
         match map_get terms e with
         | Some newPriority =>
             if negb (equal priority newPriority)
             then map_set del e priority
             else del
         | None => map_set del e priority
         end)
      (range_order existing) [] in
  NoDup (map fst del)
  /\ forall t,
      map_get del t
      = match map_get existing t with
        | Some p =>
            match map_get terms t with
            | Some np => if equal p np then None else Some p
            | None => Some p
            end
        | None => None
        end.
Proof.
  intros Hex del.
  destruct (fold_select T P (ok_term_eq Hok)
              (fun e priority =>
                 match map_get terms e with
                 | Some newPriority => negb (equal priority newPriority)
                 | None => true
                 end)
              (fun del '(e, priority) =>
                 match map_get terms e with
                 | Some newPriority =>
                     if negb (equal priority newPriority)
                     then map_set del e priority
                     else del
                 | None => map_set del e priority
                 end))
    with (l := range_order existing) (acc := @nil (T * P)) as [Hnd Hget].
  - intros acc e pr. destruct (map_get terms e); reflexivity.
  - now apply range_is_map.
  - constructor.
  - split; [exact Hnd|]. intros t. unfold del. rewrite Hget.
    rewrite tmap_get_range by assumption.
    destruct (map_get existing t) as [p|]; [|reflexivity].
    destruct (map_get terms t) as [np|]; [|reflexivity].
    destruct (equal p np); reflexivity.
Qed.

Lemma add_map_spec (existing terms : GoMap T P) :
  NoDup (map fst terms) ->
  let add :=
    fold_left
      (fun add '(t, newPriority) =>
         match map_get existing t with
         | Some priority =>
             if negb (equal priority newPriority)
             then map_set add t newPriority
             else add
         | None => map_set add t newPriority
         end)
      (range_order terms) [] in
  NoDup (map fst add)
  /\ forall t,
      map_get add t
      = match map_get terms t with
        | Some np =>
            match map_get existing t with
            | Some p => if equal p np then None else Some np
            | None => Some np
            end
        | None => None
        end.
Proof.
  intros Hterms add.
  destruct (fold_select T P (ok_term_eq Hok)
              (fun t newPriority =>
                 match map_get existing t with
                 | Some priority => negb (equal priority newPriority)
                 | None => true
                 end)
              (fun add '(t, newPriority) =>
                 match map_get existing t with
                 | Some priority =>
                     if negb (equal priority newPriority)
                     then map_set add t newPriority
                     else add
                 | None => map_set add t newPriority
                 end))
    with (l := range_order terms) (acc := @nil (T * P)) as [Hnd Hget].
  - intros acc e pr. destruct (map_get existing e); reflexivity.
  - now apply range_is_map.
  - constructor.
  - split; [exact Hnd|]. intros t. unfold add. rewrite Hget.
    rewrite tmap_get_range by assumption.
    destruct (map_get terms t) as [np|]; [|reflexivity].
    destruct (map_get existing t) as [p|]; [|reflexivity].
    destruct (equal p np); reflexivity.
Qed.

(** [SetTargetTerms] keeps the invariants, leaves the target paired
    with exactly the requested terms, and leaves the other targets
    alone. *)
Lemma SetTargetTerms_spec (b : BBucket) (target : K) (terms : GoMap T P) :
  inv b -> is_map terms ->
  let b' := SetTargetTerms range_order PackCountFn indexInfo b target terms in
  inv b'
  /\ (forall t, Get b' (rev_key target t) = option_map encP (map_get terms t))
  /\ (forall k t, rev_key k t <> rev_key target t ->
                  Get b' (rev_key k t) = Get b (rev_key k t)).
Proof.
  intros Hinv Hterms. unfold SetTargetTerms.
  destruct (existing_spec b target Hinv) as [Hex_nd Hex].
  set (existing := IterateTarget indexInfo b target _ _) in *.
  destruct (del_map_spec existing terms Hex_nd) as [Hdel_nd Hdel].
  set (del := fold_left _ (range_order existing) _) in *.
  destruct (add_map_spec existing terms Hterms) as [Hadd_nd Hadd].
  set (add := fold_left _ (range_order terms) _) in *.
  assert (Hdl : forall t p, In (t, p) (range_order del) ->
                  Get b (rev_key target t) = Some (encP p)).
  { intros t p Hin. apply tmap_get_In in Hin; [|now apply range_is_map].
    rewrite tmap_get_range in Hin by assumption. rewrite Hdel in Hin.
    rewrite Hex. destruct (map_get existing t) as [p0|]; [|discriminate].
    destruct (map_get terms t) as [np|].
    - destruct (equal p0 np); [discriminate|]. now injection Hin as ->.
    - now injection Hin as ->. }
  destruct (del_phase target (range_order del) b Hinv
              (range_is_map del Hdel_nd) Hdl) as [Hinv1 Hget1].
  set (b1 := fold_left _ (range_order del) b) in *.
  assert (Hal : forall t p, In (t, p) (range_order add) ->
                  Get b1 (rev_key target t) = None).
  { intros t p Hin. apply tmap_get_In in Hin; [|now apply range_is_map].
    rewrite tmap_get_range in Hin by assumption. rewrite Hadd in Hin.
    rewrite Hget1.
    destruct (bytes_eq_dec (rev_key target t) (rev_key target t));
      [|congruence].
    rewrite tmap_get_range by assumption. rewrite Hdel, Hex.
    destruct (map_get terms t) as [np|]; [|discriminate].
    destruct (map_get existing t) as [p0|]; [|reflexivity].
    destruct (equal p0 np); [discriminate | reflexivity]. }
  destruct (add_phase target (range_order add) b1 Hinv1
              (range_is_map add Hadd_nd) Hal) as [Hinv2 Hget2].
  split; [exact Hinv2|]. split.
  - intros t. rewrite Hget2.
    destruct (bytes_eq_dec (rev_key target t) (rev_key target t));
      [|congruence].
    rewrite tmap_get_range by assumption. rewrite Hadd.
    rewrite Hget1.
    destruct (bytes_eq_dec (rev_key target t) (rev_key target t));
      [|congruence].
    rewrite tmap_get_range by assumption. rewrite Hdel, Hex.
    destruct (map_get terms t) as [np|]; destruct (map_get existing t) as [p0|];
      simpl; try reflexivity.
    destruct (priority_cases p0 np) as [[-> Eq]|[Hne Eq]]; rewrite Eq;
      reflexivity.
  - intros k t Hne. rewrite Hget2.
    destruct (bytes_eq_dec (rev_key k t) (rev_key target t)); [contradiction|].
    rewrite Hget1.
    destruct (bytes_eq_dec (rev_key k t) (rev_key target t)); [contradiction|].
    reflexivity.
Qed.

(** ** The count rows, and the order of the loops *)

Lemma del_step_cnt (b : BBucket) (k : K) (t t' : T) (p : P) :
  keys_ascending b ->
  Get (del_step b k t p) (cnt t')
  = if bytes_eq_dec (cnt t') (cnt t)
    then bump PackCountFn (Get b (cnt t)) (-1)
    else Get b (cnt t').
Proof.
  intros Hs. rewrite IncTermCount_get.
  destruct (bytes_eq_dec (cnt t') (cnt t)) as [E|E].
  - rewrite (proj2 (Equal_eq _ _) E). unfold bump, ReadTermCount.
    rewrite Del_get_other by (assumption || discriminate). reflexivity.
  - rewrite Equal_neq by assumption.
    apply Del_get_other; assumption || discriminate.
Qed.

Lemma add_step_cnt (b : BBucket) (k : K) (t t' : T) (p : P) :
  Get (add_step b k t p) (cnt t')
  = if bytes_eq_dec (cnt t') (cnt t)
    then bump PackCountFn (Get b (cnt t)) 1
    else Get b (cnt t').
Proof.
  rewrite IncTermCount_get.
  destruct (bytes_eq_dec (cnt t') (cnt t)) as [E|E].
  - rewrite (proj2 (Equal_eq _ _) E). unfold bump, ReadTermCount.
    rewrite Add_get_other by discriminate. reflexivity.
  - rewrite Equal_neq by assumption. apply Add_get_other; discriminate.
Qed.

Lemma del_step_ascending (b : BBucket) (k : K) (t : T) (p : P) :
  keys_ascending b -> keys_ascending (del_step b k t p).
Proof.
  intros Hs. unfold _IncTermCount, RawMustPut, _DelTargetTermPair.
  now apply Put_ascending, Delete_ascending, Delete_ascending.
Qed.

Lemma del_phase_cnt (target : K) :
  forall (dl : GoMap T P) (b : BBucket),
    keys_ascending b -> NoDup (map fst dl) ->
    forall t',
      Get (fold_left
             (fun bkt '(term, priority) =>
                let bkt := _DelTargetTermPair indexInfo bkt target term priority in
                _IncTermCount PackCountFn indexInfo bkt term (-1))
             dl b) (cnt t')
      = match map_get dl t' with
        | Some _ => bump PackCountFn (Get b (cnt t')) (-1)
        | None => Get b (cnt t')
        end.
Proof.
  induction dl as [|[t p] dl IH]; intros b Hs Hnd t'; simpl; [reflexivity|].
  inversion Hnd as [|? ? Hnotin Hnd']; subst.
  rewrite (IH _ (del_step_ascending b target t p Hs) Hnd').
  rewrite del_step_cnt by assumption.
  destruct (term_cases t' t) as [[-> Eq]|[Hne Eq]]; rewrite Eq.
  - apply tmap_get_None in Hnotin. rewrite Hnotin.
    apply bytes_eq_dec_refl.
  - destruct (bytes_eq_dec (cnt t') (cnt t)) as [E|E].
    + apply cnt_inj in E. contradiction.
    + reflexivity.
Qed.

Lemma add_phase_cnt (target : K) :
  forall (al : GoMap T P) (b : BBucket),
    NoDup (map fst al) ->
    forall t',
      Get (fold_left
             (fun bkt '(term, priority) =>
                let bkt := _AddTargetTermPair indexInfo bkt target term priority in
                _IncTermCount PackCountFn indexInfo bkt term 1)
             al b) (cnt t')
      = match map_get al t' with
        | Some _ => bump PackCountFn (Get b (cnt t')) 1
        | None => Get b (cnt t')
        end.
Proof.
  induction al as [|[t p] al IH]; intros b Hnd t'; simpl; [reflexivity|].
  inversion Hnd as [|? ? Hnotin Hnd']; subst.
  rewrite (IH _ Hnd'). rewrite add_step_cnt.
  destruct (term_cases t' t) as [[-> Eq]|[Hne Eq]]; rewrite Eq.
  - apply tmap_get_None in Hnotin. rewrite Hnotin.
    apply bytes_eq_dec_refl.
  - destruct (bytes_eq_dec (cnt t') (cnt t)) as [E|E].
    + apply cnt_inj in E. contradiction.
    + reflexivity.
Qed.

(** The count rows after [SetTargetTerms], whatever the order of its
    loops. *)
Lemma SetTargetTerms_cnt (b : BBucket) (target : K) (terms : GoMap T P)
    (t : T) :
  inv b -> is_map terms ->
  Get (SetTargetTerms range_order PackCountFn indexInfo b target terms) (cnt t)
  = count_row_after PackCountFn indexInfo b target terms t.
Proof.
  intros Hinv Hterms. unfold SetTargetTerms, count_row_after.
  destruct (existing_spec b target Hinv) as [Hex_nd _].
  fold (existing_terms indexInfo b target) in *.
  set (existing := existing_terms indexInfo b target) in *.
  destruct (del_map_spec existing terms Hex_nd) as [Hdel_nd Hdel].
  set (del := fold_left _ (range_order existing) _) in *.
  destruct (add_map_spec existing terms Hterms) as [Hadd_nd Hadd].
  set (add := fold_left _ (range_order terms) _) in *.
  rewrite add_phase_cnt by (now apply range_is_map).
  rewrite del_phase_cnt by (apply Hinv || now apply range_is_map).
  rewrite !tmap_get_range by assumption. rewrite Hadd, Hdel.
  unfold differs.
  destruct (map_get existing t) as [p|]; destruct (map_get terms t) as [np|];
    try reflexivity.
  destruct (priority_cases p np) as [[-> Eq]|[Hne Eq]].
  - rewrite Eq. reflexivity.
  - rewrite Eq. simpl.
    destruct (priority_cases np p) as [[E _]|[_ Eq']]; [congruence|].
    rewrite Eq'. reflexivity.
Qed.

(** ** Reachable states *)

Lemma index_inv_empty : inv [].
Proof.
  constructor.
  - constructor.
  - intros key value H. discriminate.
  - intros t p k. simpl. split; [congruence | discriminate].
  - intros t. rewrite count_missing by reflexivity. reflexivity.
  - intros t H. now contradiction H.
Qed.

Lemma Uniform_is_map (terms : list T) (p : P) : is_map (UniformTerms terms p).
Proof. apply UniformTerms_is_map. apply Hok. Qed.

Lemma reachable_inv (b : BBucket) :
  reachable range_order PackCountFn indexInfo b -> inv b.
Proof.
  induction 1 as [|b k terms _ IH Hm|b k t _ IH|b k p t _ IH|b k _ IH
                  |b k ts _ IH|b k ts p _ IH].
  - apply index_inv_empty.
  - now apply SetTargetTerms_spec.
  - apply SetTargetTerms_spec; [assumption | apply Uniform_is_map].
  - apply SetTargetTerms_spec; [assumption | apply Uniform_is_map].
  - apply SetTargetTerms_spec; [assumption | constructor].
  - apply SetTargetTerms_spec; [assumption | apply Uniform_is_map].
  - apply SetTargetTerms_spec; [assumption | apply Uniform_is_map].
Qed.

(** ** What [_IterateTermCore] reads *)

Local Notation target_of_row := (row_target_priority indexInfo).

Lemma term_row_shape (b : BBucket) (t : T) (e : entry) :
  inv b -> In e (rows b t) -> exists k p, e = (fwd k t p, []).
Proof.
  intros Hinv Hin. pose proof (inv_rows Hinv) as Hrows.
  apply filter_In in Hin. destruct Hin as [Hin Hp]. destruct e as [key v].
  cbn [fst] in Hp. apply Get_In in Hin; [|apply Hinv].
  destruct (Hrows _ _ Hin)
    as [(t' & p' & k' & -> & ->)|[(k' & t' & p' & -> & _)|(t' & c & -> & _)]].
  - apply term_prefix_fwd in Hp. subst t'. now exists k', p'.
  - rewrite term_prefix_rev in Hp. discriminate.
  - rewrite term_prefix_cnt in Hp. discriminate.
Qed.

Lemma term_row_In (b : BBucket) (k : K) (t : T) (p : P) (v : bytes) :
  keys_ascending b ->
  (In (fwd k t p, v) (rows b t) <-> Get b (fwd k t p) = Some v).
Proof.
  intros Hs. unfold term_rows, with_prefix. rewrite filter_In. cbn [fst].
  rewrite (proj2 (term_prefix_fwd k t t p) eq_refl).
  rewrite Get_In by assumption. tauto.
Qed.

Lemma row_target_priority_fwd (k : K) (t : T) (p : P) (v : bytes) :
  target_of_row (fwd k t p, v) = (k, p).
Proof.
  unfold row_target_priority. cbn [fst].
  now rewrite ReadTermTargetPriority_key.
Qed.

Lemma forward_value (b : BBucket) (k : K) (t : T) (p : P) (v : bytes) :
  inv b -> Get b (fwd k t p) = Some v -> v = [].
Proof.
  intros Hinv Hg. pose proof (inv_rows Hinv) as Hrows.
  destruct (Hrows _ _ Hg)
    as [(t' & p' & k' & _ & ->)|[(k' & t' & p' & E & _)|(t' & c & E & _)]];
    try discriminate.
  reflexivity.
Qed.

Lemma IterateTermCore_collect (St : Type) (g : St -> K -> P -> St)
    (b : BBucket) (t : T) (window : Window) (s : St) :
  Direction window = IterateRegular -> (Offset window <= 0)%Z ->
  _IterateTermCore indexInfo b t window (fun s k p => (true, g s k p)) s
  = (page_resume b (mkParams (_TermKeyPrefix indexInfo t) window),
     fold_left (fun s kp => g s (fst kp) (snd kp))
       (map target_of_row
          (page_rows b (mkParams (_TermKeyPrefix indexInfo t) window))) s).
Proof.
  intros Hd Ho. unfold _IterateTermCore.
  rewrite RawIterateCore_collect; try assumption.
  - f_equal. rewrite fold_left_map_eq. apply fold_left_ext_eq.
    intros a e. unfold row_target_priority.
    destruct (_ReadTermTargetPriority indexInfo (fst e)) as [[t0 k0] p0].
    reflexivity.
  - intros s0 k0 v0.
    destruct (_ReadTermTargetPriority indexInfo k0) as [[t1 k1] p1].
    reflexivity.
Qed.

Lemma fold_left_snoc (A B : Type) (f : B -> A) (l : list B) (acc : list A) :
  fold_left (fun acc x => acc ++ [f x]) l acc = acc ++ map f l.
Proof.
  revert acc. induction l as [|x l IH]; intros acc; simpl.
  - now rewrite app_nil_r.
  - rewrite IH, <- app_assoc. reflexivity.
Qed.

Lemma term_page_rows (b : BBucket) (t : T) (window : Window) :
  Direction window = IterateRegular -> (Offset window <= 0)%Z ->
  term_page indexInfo b t window
  = (page_resume b (mkParams (_TermKeyPrefix indexInfo t) window),
     map target_of_row
       (page_rows b (mkParams (_TermKeyPrefix indexInfo t) window))).
Proof.
  intros Hd Ho. unfold term_page.
  rewrite (IterateTermCore_collect (list (K * P))
             (fun acc k p => acc ++ [(k, p)])) by assumption.
  f_equal.
  rewrite (fold_left_ext_eq _ _ _ (fun acc kp => acc ++ [id kp])).
  - rewrite fold_left_snoc. simpl. now rewrite map_id.
  - intros a [k p]. reflexivity.
Qed.

Lemma ReadTermTargets_rows (b : BBucket) (t : T) (targets : list K)
    (window : Window) :
  Direction window = IterateRegular -> (Offset window <= 0)%Z ->
  ReadTermTargets indexInfo b t targets window
  = (page_resume b (mkParams (_TermKeyPrefix indexInfo t) window),
     targets
     ++ map fst
          (map target_of_row
             (page_rows b (mkParams (_TermKeyPrefix indexInfo t) window)))).
Proof.
  intros Hd Ho. unfold ReadTermTargets.
  rewrite (IterateTermCore_collect (list K)
             (fun acc k p => acc ++ [k])) by assumption.
  f_equal. apply fold_left_snoc.
Qed.

Lemma full_page_rows (b : BBucket) (t : T) :
  keys_ascending b ->
  page_rows b (mkParams (_TermKeyPrefix indexInfo t)
                 (mkWindow 0 0 [] IterateRegular))
  = rows b t.
Proof.
  intros Hs. unfold page_rows, page_start. simpl.
  now apply take_prefixed_seek.
Qed.

Lemma term_pairs_rows (b : BBucket) (t : T) :
  keys_ascending b ->
  term_pairs indexInfo b t = map target_of_row (rows b t).
Proof.
  intros Hs. unfold term_pairs, IterateTerm.
  change (mkWindow 0 0 [] 0%N) with (mkWindow 0 0 [] IterateRegular).
  pose proof (term_page_rows b t (mkWindow 0 0 [] IterateRegular)
                eq_refl ltac:(simpl; lia)) as H.
  unfold term_page in H. rewrite H. simpl snd.
  now rewrite (full_page_rows b t Hs).
Qed.

(** The targets of a term are pairwise distinct, and the count of the
    term is their number. *)
Lemma count_targets (b : BBucket) (t : T) :
  inv b ->
  NoDup (map fst (term_pairs indexInfo b t))
  /\ count_of b t = wrap_int (Z.of_nat (length (term_pairs indexInfo b t))).
Proof.
  intros Hinv. pose proof (inv_ascending Hinv) as Hs.
  rewrite term_pairs_rows by assumption. split.
  - rewrite map_map. apply NoDup_map_NoDup_ForallPairs.
    + intros e1 e2 H1 H2 E.
      destruct (term_row_shape b t e1 Hinv H1) as (k1 & p1 & ->).
      destruct (term_row_shape b t e2 Hinv H2) as (k2 & p2 & ->).
      rewrite !row_target_priority_fwd in E. simpl in E. subst k2.
      apply term_row_In in H1; [|assumption].
      apply term_row_In in H2; [|assumption].
      assert (G1 : Get b (fwd k1 t p1) <> None) by congruence.
      assert (G2 : Get b (fwd k1 t p2) <> None) by congruence.
      apply (inv_pair Hinv) in G1. apply (inv_pair Hinv) in G2.
      rewrite G1 in G2. injection G2 as G2.
      apply pack_inj in G2; [|apply Hok]. now subst p2.
    + apply NoDup_filter. apply NoDup_map_inv with (f := fst).
      now apply keys_ascending_NoDup.
  - rewrite length_map. apply (inv_count Hinv).
Qed.

Lemma term_pairs_length (b : BBucket) (t : T) :
  keys_ascending b -> length (term_pairs indexInfo b t) <= length b.
Proof.
  intros Hs. rewrite term_pairs_rows by assumption. rewrite length_map.
  apply filter_length_le.
Qed.

(** ** The contract of [SetTargetTerms] *)

Lemma forward_of_reverse (b : BBucket) (k : K) (t : T) (p : P) :
  inv b ->
  Get b (fwd k t p)
  = match Get b (rev_key k t) with
    | Some v => if bytes_eq_dec v (encP p) then Some [] else None
    | None => None
    end.
Proof.
  intros Hinv. pose proof (inv_pair Hinv t p k) as Hp.
  destruct (Get b (fwd k t p)) as [v|] eqn:G.
  - rewrite (forward_value b k t p v Hinv G).
    rewrite (proj1 Hp) by discriminate.
    now rewrite bytes_eq_dec_refl.
  - destruct (Get b (rev_key k t)) as [v|]; [|reflexivity].
    destruct (bytes_eq_dec v (encP p)) as [->|]; [|reflexivity].
    exfalso. now apply (proj2 Hp).
Qed.

Lemma target_pairs_rows (b : BBucket) (k : K) :
  keys_ascending b ->
  target_pairs indexInfo b k
  = map (row_term_priority indexInfo)
      (with_prefix (_TargetKeyPrefix indexInfo k) b).
Proof.
  intros Hs. unfold target_pairs.
  rewrite (IterateTarget_fold (list (T * P))
             (fun acc t p => acc ++ [(t, p)])) by assumption.
  rewrite (fold_left_ext_eq _ _ _ (fun acc tp => acc ++ [id tp])).
  - rewrite fold_left_snoc. simpl. now rewrite map_id.
  - intros a [t p]. reflexivity.
Qed.

(** Every key of the result, from data that does not depend on the
    order in which the maps are ranged over. *)
Lemma SetTargetTerms_get (b : BBucket) (target : K) (terms : GoMap T P)
    (key : bytes) :
  inv b -> is_map terms ->
  let b' := SetTargetTerms range_order PackCountFn indexInfo b target terms in
  (forall t, key = cnt t ->
             Get b' key = count_row_after PackCountFn indexInfo b target terms t)
  /\ (forall k t, key = rev_key k t ->
        Get b' key
        = if bytes_eq_dec key (rev_key target t)
          then option_map encP (map_get terms t) else Get b key)
  /\ (forall k t p, key = fwd k t p ->
        Get b' key
        = match (if bytes_eq_dec (rev_key k t) (rev_key target t)
                 then option_map encP (map_get terms t)
                 else Get b (rev_key k t)) with
          | Some v => if bytes_eq_dec v (encP p) then Some [] else None
          | None => None
          end)
  /\ ((forall t, key <> cnt t) -> (forall k t, key <> rev_key k t) ->
      (forall k t p, key <> fwd k t p) -> Get b' key = None).
Proof.
  intros Hinv Hterms b'.
  destruct (SetTargetTerms_spec b target terms Hinv Hterms)
    as (Hinv' & Hrev & Hother). fold b' in Hinv', Hrev, Hother.
  assert (Hr : forall k t,
             Get b' (rev_key k t)
             = if bytes_eq_dec (rev_key k t) (rev_key target t)
               then option_map encP (map_get terms t)
               else Get b (rev_key k t)).
  { intros k t.
    destruct (bytes_eq_dec (rev_key k t) (rev_key target t)) as [E|E].
    - rewrite E. apply Hrev.
    - now apply Hother. }
  split; [|split; [|split]].
  - intros t ->. now apply SetTargetTerms_cnt.
  - intros k t ->. apply Hr.
  - intros k t p ->. rewrite (forward_of_reverse b' k t p Hinv').
    now rewrite Hr.
  - intros H1 H2 H3. destruct (Get b' key) as [v|] eqn:G; [|reflexivity].
    exfalso. pose proof (inv_rows Hinv') as Hrows'.
    destruct (Hrows' _ _ G)
      as [(t' & p' & k' & E & _)|[(k' & t' & p' & E & _)|(t' & c & E & _)]].
    + now apply (H3 k' t' p').
    + now apply (H2 k' t').
    + now apply (H1 t').
Qed.

(** C1.  After [SetTargetTerms(tx, info, target, desired)] the
    reverse rows under the prefix of [target] are exactly one row per
    key of [desired], holding the supplied priority; the forward rows
    of [target] are exactly the matching ones, with empty values;
    [IterateTarget] reads back exactly [desired]; and the reverse and
    forward rows of every other target are as before. *)
Theorem SetTargetTerms_sets_exactly (b : BBucket) (target : K)
    (desired : GoMap T P) :
  inv b -> is_map desired ->
  let b' := SetTargetTerms range_order PackCountFn indexInfo b target desired in
  (forall key v,
      HasPrefix key (_TargetKeyPrefix indexInfo target) = true ->
      (Get b' key = Some v <->
       exists t p, map_get desired t = Some p
                   /\ key = rev_key target t /\ v = encP p))
  /\ (forall t p,
        (map_get desired t = Some p -> Get b' (fwd target t p) = Some [])
        /\ (map_get desired t <> Some p -> Get b' (fwd target t p) = None))
  /\ (forall t p,
        In (t, p) (target_pairs indexInfo b' target)
        <-> map_get desired t = Some p)
  /\ (forall k t p,
        k <> target ->
        Get b' (rev_key k t) = Get b (rev_key k t)
        /\ Get b' (fwd k t p) = Get b (fwd k t p)).
Proof.
  intros Hinv Hmap b'.
  destruct (SetTargetTerms_spec b target desired Hinv Hmap)
    as (Hinv' & Hrev & Hother).
  fold b' in Hinv', Hrev, Hother.
  pose proof (inv_rows Hinv') as Hrows'.
  assert (Hinj : forall p p', encP p = encP p' -> p = p').
  { intros p p' E. apply pack_inj in E; [assumption | apply Hok]. }
  split; [|split; [|split]].
  - intros key v Hp. split.
    + intros Hg.
      destruct (Hrows' _ _ Hg)
        as [(t' & p' & k' & -> & _)|[(k' & t' & p' & -> & ->)|(t' & c & -> & _)]].
      * rewrite target_prefix_fwd in Hp. discriminate.
      * apply target_prefix_rev in Hp. subst k'.
        rewrite Hrev in Hg.
        destruct (map_get desired t') as [p|] eqn:G; [|discriminate].
        simpl in Hg. injection Hg as Hg. apply Hinj in Hg. subst p'.
        now exists t', p.
      * rewrite target_prefix_cnt in Hp. discriminate.
    + intros (t & p & G & -> & ->). rewrite Hrev, G. reflexivity.
  - intros t p. rewrite (forward_of_reverse b' target t p Hinv'), Hrev.
    split.
    + intros G. rewrite G. simpl. apply bytes_eq_dec_refl.
    + intros G. destruct (map_get desired t) as [p'|]; [|reflexivity].
      simpl. destruct (bytes_eq_dec (encP p') (encP p)) as [E|E];
        [|reflexivity].
      apply Hinj in E. congruence.
  - intros t p. rewrite target_pairs_rows by apply Hinv'.
    destruct (target_pairs_spec b' target Hinv') as [_ Hin].
    rewrite Hin, Hrev. destruct (map_get desired t) as [p'|]; simpl.
    + split; [intros [= E]; apply Hinj in E; congruence | congruence].
    + split; discriminate.
  - intros k t p Hne.
    assert (Hk : rev_key k t <> rev_key target t).
    { intros E. apply rev_inj in E. tauto. }
    split; [now apply Hother|].
    rewrite (forward_of_reverse b' k t p Hinv').
    rewrite (forward_of_reverse b k t p Hinv).
    now rewrite Hother.
Qed.

(** C4.  In every state reached from the empty index, and after every
    further [SetTargetTerms] call (a change of priority included: the
    term is then removed and added again), the targets that a scan of
    the forward rows of a term discovers are pairwise distinct and
    [ReadTermCount], started from 0, returns their number.  Counts are
    Go [int]s, so the bucket is taken to hold at most [int_max]
    rows. *)
Theorem count_consistency :
  (forall b t,
      reachable range_order PackCountFn indexInfo b ->
      (Z.of_nat (length b) <= int_max)%Z ->
      NoDup (map fst (term_pairs indexInfo b t))
      /\ count_of b t = Z.of_nat (length (term_pairs indexInfo b t)))
  /\ (forall b target terms t,
        reachable range_order PackCountFn indexInfo b -> is_map terms ->
        let b' := SetTargetTerms range_order PackCountFn indexInfo b
                    target terms in
        (Z.of_nat (length b') <= int_max)%Z ->
        NoDup (map fst (term_pairs indexInfo b' t))
        /\ count_of b' t = Z.of_nat (length (term_pairs indexInfo b' t))).
Proof.
  assert (H : forall b t, inv b -> (Z.of_nat (length b) <= int_max)%Z ->
              NoDup (map fst (term_pairs indexInfo b t))
              /\ count_of b t = Z.of_nat (length (term_pairs indexInfo b t))).
  { intros b t Hinv Hlen.
    destruct (count_targets b t Hinv) as [Hnd Hc]. split; [assumption|].
    rewrite Hc. apply wrap_int_small.
    pose proof (term_pairs_length b t (inv_ascending Hinv)).
    unfold int_min, int_max in *. lia. }
  split.
  - intros b t Hr. apply H. now apply reachable_inv.
  - intros b target terms t Hr Hm b'. apply H.
    apply SetTargetTerms_spec; [now apply reachable_inv | assumption].
Qed.

(** C5.  In every state reached from the empty index by the index
    operations, a reverse row names one target and one term, has
    exactly one forward row, at the priority that its value decodes
    to, and that forward row is empty; and every forward row has its
    reverse row, holding the priority of the forward key. *)
Theorem forward_reverse_agreement (b : BBucket) :
  reachable range_order PackCountFn indexInfo b ->
  (forall key v,
      Get b key = Some v -> HasPrefix key [IndexTargetPrefix] = true ->
      exists k t p,
        key = rev_key k t
        /\ FromBytesInto v zero (PriorityPackFn indexInfo) = (true, p)
        /\ Get b (fwd k t p) = Some []
        /\ forall p', Get b (fwd k t p') <> None -> p' = p)
  /\ (forall key v,
        Get b key = Some v -> HasPrefix key [IndexTermPrefix] = true ->
        exists k t p,
          key = fwd k t p /\ v = []
          /\ Get b (rev_key k t) = Some (encP p)).
Proof.
  intros Hr. pose proof (reachable_inv b Hr) as Hinv.
  pose proof (inv_rows Hinv) as Hrows.
  pose proof (inv_pair Hinv) as Hpair.
  split.
  - intros key v Hg Hp.
    destruct (Hrows _ _ Hg)
      as [(t' & p' & k' & -> & _)|[(k' & t' & p' & -> & ->)|(t' & c & -> & _)]];
      try discriminate.
    exists k', t', p'. split; [reflexivity|]. split; [apply read_priority|].
    split.
    + rewrite (forward_of_reverse b k' t' p' Hinv), Hg.
      apply bytes_eq_dec_refl.
    + intros p0 H0. apply Hpair in H0. rewrite Hg in H0.
      injection H0 as H0. apply pack_inj in H0; [congruence | apply Hok].
  - intros key v Hg Hp.
    destruct (Hrows _ _ Hg)
      as [(t' & p' & k' & -> & ->)|[(k' & t' & p' & -> & _)|(t' & c & -> & _)]];
      try discriminate.
    exists k', t', p'. split; [reflexivity|]. split; [reflexivity|].
    apply Hpair. congruence.
Qed.

(** ** Pages of [IterateTerm] *)

Lemma In_past_prefix (b : BBucket) (p : bytes) (e : entry) :
  In e b -> Compare (fst e) p <> Lt -> HasPrefix (fst e) p = false ->
  In e (drop_prefixed p (seek_list p b)).
Proof.
  intros Hin Hge Hnp. destruct (seek_list_suffix p b) as [l0 [Hb Hf]].
  rewrite Hb in Hin. apply in_app_or in Hin. destruct Hin as [Hin|Hin].
  - rewrite Forall_forall in Hf. apply Hf in Hin. contradiction.
  - rewrite <- (take_drop_prefixed p (seek_list p b)) in Hin.
    apply in_app_or in Hin. destruct Hin as [Hin|Hin]; [|assumption].
    pose proof (take_prefixed_all p (seek_list p b)) as Hall.
    rewrite Forall_forall in Hall. apply Hall in Hin. congruence.
Qed.

Lemma two_members (A : Type) (x y : A) (l : list A) :
  In x l -> In y l -> x <> y -> 2 <= length l.
Proof.
  intros Hx Hy Hne. destruct l as [|a [|a' l]]; simpl in *.
  - contradiction.
  - destruct Hx as [<-|[]], Hy as [<-|[]]. congruence.
  - lia.
Qed.

(** After the forward rows of a term that has any come at least two
    more rows: a reverse row and the count row of the term. *)
Lemma two_rows_follow (b : BBucket) (t : T) :
  inv b -> rows b t <> [] ->
  2 <= length (drop_prefixed (_TermKeyPrefix indexInfo t)
                 (seek_list (_TermKeyPrefix indexInfo t) b)).
Proof.
  intros Hinv Hne. pose proof (inv_ascending Hinv) as Hs.
  destruct (rows b t) as [|e r] eqn:Er; [congruence|].
  assert (Hin : In e (rows b t)) by (rewrite Er; now left).
  destruct (term_row_shape b t e Hinv Hin) as (k & p & ->).
  apply term_row_In in Hin; [|assumption].
  assert (Hf : Get b (fwd k t p) <> None) by congruence.
  pose proof (proj1 (inv_pair Hinv t p k) Hf) as Hrev.
  assert (Hc : Get b (cnt t) <> None).
  { apply (inv_count_row Hinv). rewrite Er. discriminate. }
  destruct (Get b (cnt t)) as [vc|] eqn:Gc; [|congruence].
  apply Get_In in Hrev; [|assumption]. apply Get_In in Gc; [|assumption].
  apply two_members with (rev_key k t, encP p) (cnt t, vc).
  - apply In_past_prefix; [assumption | discriminate | reflexivity].
  - apply In_past_prefix; [assumption | discriminate | reflexivity].
  - discriminate.
Qed.

(** Whenever a term has targets, an unlimited [IterateTerm] returns
    a resume key, and that key lies outside the prefix of the term. *)
Lemma IterateTerm_resume_past_prefix (b : BBucket) (t : T) :
  inv b -> rows b t <> [] ->
  exists key,
    fst (term_page indexInfo b t (mkWindow 0 0 [] IterateRegular)) = Some key
    /\ HasPrefix key (_TermKeyPrefix indexInfo t) = false.
Proof.
  intros Hinv Hne. pose proof (inv_ascending Hinv) as Hs.
  rewrite term_page_rows by (reflexivity || (simpl; lia)).
  unfold page_resume, page_start. simpl.
  pose proof (two_rows_follow b t Hinv Hne) as H2.
  pose proof (drop_prefixed_none (_TermKeyPrefix indexInfo t) b Hs) as Hnp.
  destruct (drop_prefixed (_TermKeyPrefix indexInfo t)
              (seek_list (_TermKeyPrefix indexInfo t) b))
    as [|e1 [|e2 r]]; simpl in H2; try lia.
  exists (fst e2). split; [reflexivity|].
  inversion Hnp as [|? ? _ Hr]; subst. now inversion Hr.
Qed.

Lemma keys_nonempty (b : BBucket) (e : entry) :
  inv b -> In e b -> fst e <> [].
Proof.
  intros Hinv Hin. destruct e as [key v].
  apply Get_In in Hin; [|apply Hinv]. simpl.
  now apply key_nonempty with b v.
Qed.

(** C7.  A page of [IterateTerm]/[ReadTermTargets] cut by a limit
    [L > 0], followed by the page that starts at the returned resume
    key, deliver in concatenation the pairs (and targets) that one
    unlimited run delivers. *)
Theorem resume_cursor_pages (b : BBucket) (t : T) (L : Z) :
  inv b -> (0 < L)%Z ->
  let first := mkWindow L 0 [] IterateRegular in
  let page1 := term_page indexInfo b t first in
  let read1 := ReadTermTargets indexInfo b t [] first in
  snd page1
  ++ snd (term_page indexInfo b t
            (mkWindow 0 0 (slice_of (fst page1)) IterateRegular))
  = term_pairs indexInfo b t
  /\ snd (ReadTermTargets indexInfo b t (snd read1)
            (mkWindow 0 0 (slice_of (fst read1)) IterateRegular))
     = snd (ReadTermTargets indexInfo b t []
              (mkWindow 0 0 [] IterateRegular)).
Proof.
  intros Hinv HL first page1 read1.
  pose proof (inv_ascending Hinv) as Hs.
  pose proof (two_pages b (_TermKeyPrefix indexInfo t) L Hs HL
                (fun e => keys_nonempty b e Hinv)
                (two_rows_follow b t Hinv)) as Hpages.
  cbv zeta in Hpages.
  assert (Hd : forall w : Window,
             Direction w = IterateRegular -> (Offset w <= 0)%Z ->
             Direction w = IterateRegular /\ (Offset w <= 0)%Z) by tauto.
  unfold page1, read1.
  rewrite (term_page_rows b t first eq_refl ltac:(simpl; lia)).
  rewrite (ReadTermTargets_rows b t [] first eq_refl ltac:(simpl; lia)).
  cbn [fst snd].
  rewrite term_page_rows by (reflexivity || (simpl; lia)).
  rewrite !ReadTermTargets_rows by (reflexivity || (simpl; lia)).
  cbn [fst snd app].
  rewrite (full_page_rows b t Hs).
  rewrite (term_pairs_rows b t Hs).
  fold first in Hpages. unfold term_rows. rewrite <- Hpages.
  split.
  - now rewrite map_app.
  - now rewrite !map_app.
Qed.

(** ** The order of [IterateTerm] *)

Section Ordering.
Variable P_lt : P -> P -> Prop.
Hypothesis fixed_width : forall p p', length (encP p) = length (encP p').
Hypothesis order_preserving :
  forall p p', bytes_lt (encP p) (encP p') -> P_lt p p'.

Lemma Compare_app_fixed (a a' c c' : bytes) :
  length a = length a' ->
  Compare (a ++ c) (a' ++ c')
  = match Compare a a' with Eq => Compare c c' | o => o end.
Proof.
  revert a'. induction a as [|x a IH]; intros [|x' a'] Hlen;
    simpl in *; try discriminate.
  - destruct (Compare c c'); reflexivity.
  - destruct (byte_compare x x'); try reflexivity.
    apply IH. now injection Hlen.
Qed.

Lemma fwd_order (k k' : K) (t : T) (p p' : P) :
  bytes_lt (fwd k t p) (fwd k' t p') ->
  pair_before indexInfo P_lt (k, p) (k', p').
Proof.
  unfold bytes_lt, _TermTargetKey, pair_before. cbn [fst snd].
  change (Compare (IndexTermPrefix :: ?a) (IndexTermPrefix :: ?b))
    with (Compare a b).
  rewrite Compare_app_same.
  rewrite Compare_app_fixed by apply fixed_width.
  destruct (Compare (encP p) (encP p')) eqn:E; intros H; try discriminate.
  - right. split; [|exact H]. apply Compare_eq in E.
    apply pack_inj in E; [assumption | apply Hok].
  - left. now apply order_preserving.
Qed.

Lemma rows_sorted (b : BBucket) (t : T) (l : list entry) :
  inv b -> (forall e, In e l -> In e (rows b t)) -> keys_ascending l ->
  StronglySorted (pair_before indexInfo P_lt) (map target_of_row l).
Proof.
  intros Hinv. induction l as [|[key v] l IH]; intros Hsub Hasc; simpl;
    constructor.
  - apply IH.
    + intros e He. apply Hsub. now right.
    + now apply keys_ascending_cons in Hasc.
  - apply keys_ascending_cons in Hasc. destruct Hasc as [_ Hf].
    rewrite Forall_map. rewrite Forall_forall in *. intros e He.
    destruct (term_row_shape b t (key, v) Hinv (Hsub _ (or_introl eq_refl)))
      as (k1 & p1 & [= -> ->]).
    destruct (term_row_shape b t e Hinv (Hsub _ (or_intror He)))
      as (k2 & p2 & ->).
    rewrite !row_target_priority_fwd. apply fwd_order with t.
    apply (Hf _ He).
Qed.

Lemma term_pairs_sorted (b : BBucket) (t : T) :
  inv b ->
  StronglySorted (pair_before indexInfo P_lt) (term_pairs indexInfo b t).
Proof.
  intros Hinv. pose proof (inv_ascending Hinv) as Hs.
  rewrite term_pairs_rows by assumption.
  apply rows_sorted with b t; [assumption | auto |].
  now apply keys_ascending_filter.
Qed.
End Ordering.

End IndexProofs.

(** ** The order in which Go ranges over the maps does not matter *)

Section OrderIrrelevant.
Variables K T P : Type.
Context {ZK : HasZero K} {ZT : HasZero T} {ZP : HasZero P}.
Context {CT : Comparable T} {CP : Comparable P}.
Variables order1 order2 : GoMap T P -> GoMap T P.
Variable PackCountFn : PackFn Z.
Variable indexInfo : IndexInfo K T P.
Hypothesis Hok1 : index_ok order1 PackCountFn indexInfo.
Hypothesis Hok2 : index_ok order2 PackCountFn indexInfo.

Lemma SetTargetTerms_order_irrelevant (b : BBucket) (target : K)
    (terms : GoMap T P) :
  index_inv PackCountFn indexInfo b -> is_map terms ->
  SetTargetTerms order1 PackCountFn indexInfo b target terms
  = SetTargetTerms order2 PackCountFn indexInfo b target terms.
Proof.
  intros Hinv Hterms.
  destruct (SetTargetTerms_spec K T P order1 PackCountFn indexInfo Hok1
              b target terms Hinv Hterms) as [Hinv1 _].
  destruct (SetTargetTerms_spec K T P order2 PackCountFn indexInfo Hok2
              b target terms Hinv Hterms) as [Hinv2 _].
  apply bucket_ext; [apply Hinv1 | apply Hinv2 |]. intros key.
  pose proof (SetTargetTerms_get K T P order1 PackCountFn indexInfo Hok1
                b target terms key Hinv Hterms) as (C1 & R1 & F1 & _).
  pose proof (SetTargetTerms_get K T P order2 PackCountFn indexInfo Hok2
                b target terms key Hinv Hterms) as (C2 & R2 & F2 & _).
  assert (Hshape : forall b' v,
             index_inv PackCountFn indexInfo b' -> Get b' key = Some v ->
             Get (SetTargetTerms order1 PackCountFn indexInfo b target terms) key
             = Get (SetTargetTerms order2 PackCountFn indexInfo b target terms) key).
  { intros b' v Hinv' G. pose proof (inv_rows Hinv') as Hrows.
    destruct (Hrows _ _ G)
      as [(t' & p' & k' & E & _)|[(k' & t' & p' & E & _)|(t' & c & E & _)]].
    - now rewrite (F1 k' t' p' E), (F2 k' t' p' E).
    - now rewrite (R1 k' t' E), (R2 k' t' E).
    - now rewrite (C1 t' E), (C2 t' E). }
  pose proof (fun v => Hshape _ v Hinv1) as H1.
  pose proof (fun v => Hshape _ v Hinv2) as H2.
  clear - H1 H2.
  destruct (Get (SetTargetTerms order1 PackCountFn indexInfo b target terms) key)
    as [v1|]; [now apply (H1 v1)|].
  destruct (Get (SetTargetTerms order2 PackCountFn indexInfo b target terms) key)
    as [v2|]; [now apply (H2 v2) | reflexivity].
Qed.

(** The states of the index are the same for every order. *)
Lemma reachable_order_irrelevant (b : BBucket) :
  reachable order1 PackCountFn indexInfo b ->
  reachable order2 PackCountFn indexInfo b.
Proof.
  induction 1 as [|b k terms Hr IH Hm|b k t Hr IH|b k p t Hr IH|b k Hr IH
                  |b k ts Hr IH|b k ts p Hr IH];
    try (pose proof (reachable_inv K T P order1 PackCountFn indexInfo Hok1
                       b Hr) as Hinv).
  - constructor.
  - rewrite SetTargetTerms_order_irrelevant by assumption.
    now constructor.
  - unfold SetTargetSingleTerm.
    rewrite SetTargetTerms_order_irrelevant;
      [|assumption|apply UniformTerms_is_map, Hok1].
    now apply reach_SetTargetSingleTerm.
  - unfold SetTargetSingleTermExt.
    rewrite SetTargetTerms_order_irrelevant;
      [|assumption|apply UniformTerms_is_map, Hok1].
    now apply reach_SetTargetSingleTermExt.
  - unfold DeleteTargetTerms.
    rewrite SetTargetTerms_order_irrelevant;
      [|assumption|constructor].
    now apply reach_DeleteTargetTerms.
  - unfold SetTargetTermsPlain.
    rewrite SetTargetTerms_order_irrelevant;
      [|assumption|apply UniformTerms_is_map, Hok1].
    now apply reach_SetTargetTermsPlain.
  - unfold SetTargetTermsUniform.
    rewrite SetTargetTerms_order_irrelevant;
      [|assumption|apply UniformTerms_is_map, Hok1].
    now apply reach_SetTargetTermsUniform.
Qed.
End OrderIrrelevant.

(** ** The default priority codec *)

Lemma byte_of_N_to_N (n : N) : Byte.to_N (byte_of_N n) = (n mod 256)%N.
Proof.
  unfold byte_of_N.
  destruct (Byte.of_N (n mod 256)) as [b|] eqn:E.
  - now apply Byte.to_of_N.
  - apply Byte.of_N_None_iff in E.
    pose proof (N.mod_lt n 256 ltac:(discriminate)). lia.
Qed.

Lemma uint16_eq (a b : uint16) : u16_val a = u16_val b -> a = b.
Proof.
  destruct a as [x Hx], b as [y Hy]. simpl. intros ->.
  f_equal. apply UIP_dec. apply bool_dec.
Qed.

Lemma u16_val_lt (p : uint16) : (u16_val p < 65536)%N.
Proof. apply N.ltb_lt. apply u16_range. Qed.

Lemma uint16_comparable_ok : Comparable_ok (X := uint16).
Proof.
  intros a b. unfold equal, uint16_comparable. rewrite N.eqb_eq. split.
  - apply uint16_eq.
  - now intros ->.
Qed.

Lemma u16_high_byte (p : uint16) :
  ((u16_val p / 256) mod 256 = u16_val p / 256)%N.
Proof.
  apply N.mod_small. apply N.Div0.div_lt_upper_bound.
  apply (u16_val_lt p).
Qed.

Lemma u16_split (p : uint16) :
  (u16_val p = u16_val p / 256 * 256 + u16_val p mod 256)%N.
Proof.
  rewrite N.mul_comm. apply N.div_mod. discriminate.
Qed.

Lemma FUInt16_self_delimiting : self_delimiting FUInt16.
Proof.
  intros p rest. simpl. f_equal. f_equal. apply uint16_eq. simpl.
  rewrite !byte_of_N_to_N, u16_high_byte, <- u16_split.
  apply N.mod_small. apply u16_val_lt.
Qed.

Lemma FUInt16_fixed_width (p p' : uint16) :
  length (pack FUInt16 p) = length (pack FUInt16 p').
Proof. reflexivity. Qed.

(** Big-endian: the order of the encodings is the order of the
    numbers. *)
Lemma FUInt16_order (p p' : uint16) :
  bytes_lt (pack FUInt16 p) (pack FUInt16 p') ->
  (u16_val p < u16_val p')%N.
Proof.
  unfold bytes_lt. simpl. unfold byte_compare.
  rewrite !byte_of_N_to_N, !u16_high_byte.
  pose proof (u16_split p) as Hp. pose proof (u16_split p') as Hp'.
  pose proof (N.mod_lt (u16_val p) 256 ltac:(discriminate)) as Hm.
  pose proof (N.mod_lt (u16_val p') 256 ltac:(discriminate)) as Hm'.
  destruct (N.compare_spec (u16_val p / 256) (u16_val p' / 256))
    as [E|E|E]; try discriminate.
  - destruct (N.compare_spec (u16_val p mod 256) (u16_val p' mod 256))
      as [E'|E'|E']; try discriminate.
    intros _. rewrite Hp, Hp', E. lia.
  - intros _. rewrite Hp, Hp'.
    generalize dependent (u16_val p / 256)%N.
    generalize dependent (u16_val p' / 256)%N.
    generalize dependent (u16_val p mod 256)%N.
    generalize dependent (u16_val p' mod 256)%N. intros. lia.
Qed.

(** C6.  In an index built by [Index], whose priorities are [uint16]s
    written by the default fixed-width big-endian codec, [IterateTerm]
    delivers the targets of a term in ascending priority, and for equal
    priorities in ascending order of the encoded target. *)
Theorem IterateTerm_priority_order (K T : Type)
    {ZK : HasZero K} {ZT : HasZero T} {CT : Comparable T}
    (range_order : GoMap T uint16 -> GoMap T uint16) (PackCountFn : PackFn Z)
    (dbInfo : Info) (name : String.string)
    (termFn : PackFn T) (targetFn : PackFn K)
    (b : BBucket) (t : T) :
  let indexInfo := snd (Index dbInfo name termFn targetFn) in
  index_ok range_order PackCountFn indexInfo ->
  index_inv PackCountFn indexInfo b ->
  StronglySorted
    (pair_before indexInfo (fun p p' => (u16_val p < u16_val p')%N))
    (snd (IterateTerm indexInfo b t
            (fun acc target priority => (true, acc ++ [(target, priority)]))
            [])).
Proof.
  intros indexInfo Hok Hinv.
  apply (term_pairs_sorted K T uint16 range_order PackCountFn indexInfo Hok
           (fun p p' => (u16_val p < u16_val p')%N)).
  - apply FUInt16_fixed_width.
  - apply FUInt16_order.
  - exact Hinv.
Qed.

(** ** [_NextPrefix] *)

(** C3, as the code has it.  The result is always above its argument.
    It is above every string that begins with the argument exactly when
    the argument has a byte other than 0xff; otherwise (all bytes 0xff,
    or no byte) it is the argument followed by a zero byte, which lies
    below every other extension of the argument. *)
Theorem NextPrefix_law (s : bytes) :
  bytes_lt s (_NextPrefix s)
  /\ ((exists c, In c s /\ c <> xff) ->
      forall e, HasPrefix e s = true -> bytes_lt e (_NextPrefix s))
  /\ ((forall c, In c s -> c = xff) ->
      _NextPrefix s = s ++ [x00]
      /\ forall r, r <> [] -> r <> [x00] -> bytes_lt (_NextPrefix s) (s ++ r))
  /\ _NextPrefix [] = [x00]
  /\ _NextPrefix [xff; xff] = [xff; xff; x00]
  /\ _NextPrefix [x01; xff] = [x02; xff].
Proof.
  split; [apply NextPrefix_gt|].
  split; [intros H e He; now apply NextPrefix_gt_extensions|].
  split; [|repeat split; reflexivity].
  intros H. split; [now apply NextPrefix_all_ff|].
  intros r Hr Hr0. now apply NextPrefix_all_ff_below.
Qed.

Lemma NextPrefix_law_witness :
  (exists c, In c [x01; xff] /\ c <> xff)
  /\ bytes_lt [x01; xff; xff] (_NextPrefix [x01; xff])
  /\ (forall c, In c [xff; xff] -> c = xff)
  /\ bytes_lt (_NextPrefix [xff; xff]) [xff; xff; x01].
Proof.
  assert (H1 : exists c, In c [x01; xff] /\ c <> xff).
  { exists x01. split; [now left | discriminate]. }
  assert (H2 : forall c, In c [xff; xff] -> c = xff).
  { intros c [<-|[<-|[]]]; reflexivity. }
  split; [exact H1|]. split.
  - apply (proj1 (proj2 (NextPrefix_law [x01; xff])) H1). reflexivity.
  - split; [exact H2|].
    apply (proj2 (proj1 (proj2 (proj2 (NextPrefix_law [xff; xff]))) H2) [x01]);
      discriminate.
Defined.

(** C3 as stated fails: the strings [{0x01}] and [{0xff,0xff,0x01}]
    begin with [{}] and [{0xff,0xff}] and lie above the results. *)
Lemma NextPrefix_not_above_extensions :
  (HasPrefix [x01] [] = true /\ Compare [x01] (_NextPrefix []) = Gt)
  /\ (HasPrefix [xff; xff; x01] [xff; xff] = true
      /\ Compare [xff; xff; x01] (_NextPrefix [xff; xff]) = Gt)
  /\ ~ (forall s e, HasPrefix e s = true -> bytes_lt e (_NextPrefix s)).
Proof.
  split; [split; reflexivity|]. split; [split; reflexivity|].
  intros H. specialize (H [] [x01] eq_refl). discriminate.
Qed.

(** ** The sample index meets the contract *)

Import Sample.

Lemma byte_comparable_ok : Comparable_ok (X := byte).
Proof. intros a b. apply byte_eqb_eq. Qed.

Lemma FByte_self_delimiting : self_delimiting FByte.
Proof. intros b rest. reflexivity. Qed.

Lemma be_bytes_length (w : nat) (n : N) : length (be_bytes w n) = w.
Proof.
  revert n. induction w as [|w IH]; intros n; simpl; [reflexivity|].
  rewrite length_app, IH. simpl. lia.
Qed.

Lemma be_value_snoc (l : bytes) (x : byte) :
  be_value (l ++ [x]) = (be_value l * 256 + Byte.to_N x)%N.
Proof. unfold be_value. now rewrite fold_left_app. Qed.

Lemma be_value_bytes (w : nat) (n : N) :
  be_value (be_bytes w n) = (n mod 256 ^ N.of_nat w)%N.
Proof.
  revert n. induction w as [|w IH]; intros n.
  - simpl. now rewrite N.mod_1_r.
  - simpl be_bytes. rewrite be_value_snoc, IH, byte_of_N_to_N.
    rewrite Nat2N.inj_succ, N.pow_succ_r'.
    rewrite N.Div0.mod_mul_r. lia.
Qed.

Lemma FInt_roundtrip (c : Z) :
  (int_min <= c <= int_max)%Z ->
  exists rest, unpack FInt (pack FInt c) = Some (c, rest).
Proof.
  intros Hc. exists []. unfold FInt. cbn [pack unpack].
  set (n := Z.to_N (c mod 2 ^ 64)).
  assert (Hlen : length (be_bytes 8 n) = 8) by apply be_bytes_length.
  rewrite Hlen. cbn [Nat.ltb Nat.leb].
  rewrite firstn_all2 by lia. rewrite skipn_all2 by lia.
  rewrite be_value_bytes. f_equal. f_equal.
  assert (Hn : (n < 256 ^ N.of_nat 8)%N).
  { unfold n. pose proof (Z.mod_pos_bound c (2 ^ 64) eq_refl).
    change (256 ^ N.of_nat 8)%N with (Z.to_N (2 ^ 64)). lia. }
  rewrite N.mod_small by assumption. unfold n.
  rewrite Z2N.id by (apply Z.mod_pos_bound; reflexivity).
  unfold wrap_int, int_min, int_max in *.
  rewrite Zplus_mod_idemp_l. rewrite Z.mod_small; lia.
Qed.

Lemma byteIndex_ok : index_ok (@in_order _) FInt byteIndex.
Proof.
  constructor.
  - apply byte_comparable_ok.
  - apply uint16_comparable_ok.
  - apply FByte_self_delimiting.
  - apply FByte_self_delimiting.
  - apply FUInt16_self_delimiting.
  - apply FInt_roundtrip.
  - reflexivity.
  - intros m. apply Permutation_refl.
Qed.

Lemma is_map_sample (m : GoMap byte uint16) :
  NoDup (map fst m) -> is_map m.
Proof. auto. Qed.

Ltac distinct_bytes :=
  repeat (constructor; [simpl; intuition discriminate|]); constructor.

Lemma B1_reachable : reachable (@in_order _) FInt byteIndex B1.
Proof.
  unfold B1, set_bytes.
  apply reach_SetTargetTerms; [|distinct_bytes].
  apply reach_SetTargetTerms; [|distinct_bytes].
  apply reach_SetTargetTerms; [|distinct_bytes].
  apply reach_empty.
Qed.

Lemma B1_inv : index_inv FInt byteIndex B1.
Proof.
  apply (reachable_inv _ _ _ _ _ _ byteIndex_ok). apply B1_reachable.
Qed.

(** ** Witnesses *)

Lemma SetTargetTerms_sets_exactly_witness :
  let b' := set_bytes B1 x0a [(x61, uint16_of_N 3)] in
  Get b' (_TermTargetKey byteIndex x0a x61 (uint16_of_N 3)) = Some []
  /\ Get b' (_TargetTermKey byteIndex x0c x6c)
     = Get B1 (_TargetTermKey byteIndex x0c x6c).
Proof.
  intros b'.
  destruct (SetTargetTerms_sets_exactly _ _ _ _ _ _ byteIndex_ok
              B1 x0a [(x61, uint16_of_N 3)] B1_inv ltac:(distinct_bytes))
    as (_ & Hfwd & _ & Hother).
  split.
  - apply (Hfwd x61 (uint16_of_N 3)). reflexivity.
  - apply (Hother x0c x6c (uint16_of_N 0)). discriminate.
Defined.

Lemma count_consistency_witness :
  snd (ReadTermCount FInt byteIndex B1 x6c 0)
  = Z.of_nat (length (term_pairs byteIndex B1 x6c)).
Proof.
  apply (proj1 (count_consistency _ _ _ _ _ _ byteIndex_ok) B1 x6c).
  - apply B1_reachable.
  - vm_compute. discriminate.
Defined.

Lemma forward_reverse_agreement_witness :
  exists k t p,
    _TargetTermKey byteIndex x0c x6c = _TargetTermKey byteIndex k t
    /\ FromBytesInto [x00; x05] zero (PriorityPackFn byteIndex) = (true, p)
    /\ Get B1 (_TermTargetKey byteIndex k t p) = Some []
    /\ forall p', Get B1 (_TermTargetKey byteIndex k t p') <> None -> p' = p.
Proof.
  apply (proj1 (forward_reverse_agreement _ _ _ _ _ _ byteIndex_ok
                  B1 B1_reachable)
           (_TargetTermKey byteIndex x0c x6c) [x00; x05]);
    reflexivity.
Defined.

Lemma resume_cursor_pages_witness :
  let page1 := term_page byteIndex B1 x6c (mkWindow 1 0 [] IterateRegular) in
  snd page1
  ++ snd (term_page byteIndex B1 x6c
            (mkWindow 0 0 (slice_of (fst page1)) IterateRegular))
  = term_pairs byteIndex B1 x6c.
Proof.
  apply (proj1 (resume_cursor_pages _ _ _ _ _ _ byteIndex_ok B1 x6c 1
                  B1_inv ltac:(lia))).
Defined.

Lemma IterateTerm_priority_order_witness :
  StronglySorted
    (pair_before byteIndex (fun p p' => (u16_val p < u16_val p')%N))
    (snd (IterateTerm byteIndex B1 x6c
            (fun acc target priority => (true, acc ++ [(target, priority)]))
            [])).
Proof.
  apply (IterateTerm_priority_order byte byte (@in_order _) FInt
           (mkInfo [] []) (Name byteIndex) FByte FByte B1 x6c byteIndex_ok B1_inv).
Defined.

(** ** The resume key and the offset, on scenario S1 *)

(** C2.  In scenario S5 the first page ([limit] 1) of the term "lol"
    returns target 10 and the key of the row of target 12; the second
    page, started at that key, returns target 12 and then a resume key
    that is not nil and does not begin with the prefix of the term: it
    is the first reverse row, two entries past the last row of "lol".
    The same happens to any unlimited run that leaves the prefix before
    the end of the bucket. *)
Theorem resume_key_outside_prefix :
  let prefix := _TermKeyPrefix keywordIndex lol in
  let C := [x01; x6c; x6f; x6c; x00; x00; x05; x0c] in
  let R := [x02; x0a; x6c; x6f; x6c; x00] in
  ReadTermTargets keywordIndex S1 lol [] (mkWindow 1 0 [] IterateRegular)
  = (Some C, [x0a])
  /\ ReadTermTargets keywordIndex S1 lol [] (mkWindow 0 0 C IterateRegular)
     = (Some R, [x0c])
  /\ HasPrefix R prefix = false
  /\ fst (IterateTerm keywordIndex S1 lol
            (fun (acc : list (byte * uint16)) target priority =>
               (true, acc ++ [(target, priority)])) [])
     = Some R.
Proof. vm_compute. repeat split; reflexivity. Qed.

(** C8.  With the cursor on the row of target 10 and an offset of 1,
    the run starts one entry past the cursor: target 10 is skipped,
    which the same window with offset 0 delivers. *)
Theorem offset_applied_after_cursor :
  let C := [x01; x6c; x6f; x6c; x00; x00; x04; x0a] in
  snd (ReadTermTargets keywordIndex S1 lol [] (mkWindow 0 1 C IterateRegular))
  = [x0c]
  /\ snd (ReadTermTargets keywordIndex S1 lol [] (mkWindow 0 0 C IterateRegular))
     = [x0a; x0c]
  /\ snd (_RawIterateCore
            (fun (acc : list bytes) key value => (true, acc ++ [key]))
            [([x6b; x01], []); ([x6b; x02], []); ([x6b; x03], [])]
            (mkParams [x6b] (mkWindow 0 1 [x6b; x01] IterateRegular)) [])
     = [[x6b; x02]; [x6b; x03]].
Proof. vm_compute. repeat split; reflexivity. Qed.

(** ** The typed bucket and the zero key *)

Section BucketFacts.
Variables K T : Type.
Context {ZK : HasZero K} {CK : Comparable K} {ZT : HasZero T}.
Hypothesis K_ok : Comparable_ok (X := K).
Variable bucketInfo : BucketInfo K T.

Lemma equal_zero : equal (zero : K) zero = true.
Proof. now apply K_ok. Qed.

Lemma Read_zero (bkt : option BBucket) (item : T) :
  _Read bucketInfo bkt zero item = (false, item).
Proof.
  unfold _Read. destruct bkt; [|reflexivity]. now rewrite equal_zero.
Qed.

Lemma fold_skip (A B : Type) (f : B -> bool) (step : A -> B -> A)
    (l : list B) (a : A) :
  (forall a x, f x = false -> step a x = a) ->
  fold_left step l a = fold_left step (filter f l) a.
Proof.
  intros H. revert a. induction l as [|x l IH]; intros a; simpl.
  - reflexivity.
  - destruct (f x) eqn:E; simpl.
    + apply IH.
    + rewrite H by assumption. apply IH.
Qed.

(** C9.  [Write] with the zero value of the key type returns at once:
    the transaction and all its buckets are as before. *)
Theorem Write_zero_noop (tx : Tx) (item : T) :
  Write bucketInfo tx zero item = Some tx.
Proof. unfold Write. now rewrite equal_zero. Qed.

(** C10.  Whatever the bucket holds, [_Read] and [Read] with the zero
    key return false and leave the item as it was; [ReadSlice] and
    [ReadSliceToMap] give the same count and the same items as on the
    ids without the zero keys. *)
Theorem Read_zero_skipped :
  (forall (bkt : option BBucket) (item : T),
      _Read bucketInfo bkt zero item = (false, item))
  /\ (forall (tx : Tx) (item : T),
        fst (Read bucketInfo tx zero item) = (false, item))
  /\ (forall (tx : Tx) (ids : list K) (items : list T),
        ReadSlice bucketInfo tx ids items
        = ReadSlice bucketInfo tx
            (filter (fun id => negb (equal id zero)) ids) items)
  /\ (forall (tx : Tx) (ids : list K) (itemsMap : GoMap K T),
        ReadSliceToMap bucketInfo tx ids itemsMap
        = ReadSliceToMap bucketInfo tx
            (filter (fun id => negb (equal id zero)) ids) itemsMap).
Proof.
  assert (Hz : forall id : K, negb (equal id zero) = false -> id = zero).
  { intros id H. apply K_ok. now destruct (equal id zero). }
  split; [apply Read_zero|]. split; [|split].
  - intros tx item. unfold Read.
    destruct (TxRawBucket tx (BName bucketInfo)) as [bkt tx'].
    simpl. apply Read_zero.
  - intros tx ids items. unfold ReadSlice.
    destruct (TxRawBucket tx (BName bucketInfo)) as [[b|] tx'];
      [|reflexivity].
    f_equal. apply fold_skip.
    intros [count l] id H. apply Hz in H. subst id.
    now rewrite Read_zero.
  - intros tx ids itemsMap. unfold ReadSliceToMap.
    destruct (TxRawBucket tx (BName bucketInfo)) as [[b|] tx'];
      [|reflexivity].
    f_equal. apply fold_skip.
    intros [count l] id H. apply Hz in H. subst id.
    now rewrite Read_zero.
Qed.
End BucketFacts.

(** A bucket that holds a row under the encoding of the zero key, as a
    raw put or a restore can leave it. *)
Lemma Write_zero_noop_witness :
  let tx := mkTx true [(BName byteBucket, [([x00], [x61; x00])])] in
  Write byteBucket tx x00 [x62] = Some tx.
Proof.
  intros tx. apply (Write_zero_noop byte bytes byte_comparable_ok byteBucket).
Defined.

Lemma Read_zero_skipped_witness :
  let tx := mkTx false [(BName byteBucket,
                         [([x00], [x61; x00]); ([x01], [x62; x00])])] in
  Get [([x00], [x61; x00]); ([x01], [x62; x00])] (pack FByte x00)
  = Some [x61; x00]
  /\ fst (Read byteBucket tx x00 [x7a]) = (false, [x7a])
  /\ ReadSlice byteBucket tx [x00; x01; x00] []
     = ReadSlice byteBucket tx [x01] [].
Proof.
  intros tx.
  destruct (Read_zero_skipped byte bytes byte_comparable_ok byteBucket)
    as (_ & HRead & HSlice & _).
  split; [reflexivity|]. split.
  - apply HRead.
  - apply (HSlice tx [x00; x01; x00] []).
Defined.

(* ================================================================== *)
(** * Part III: further properties of the package *)
(* ================================================================== *)

(** ** The engine as a scan over a list, in either direction *)

Lemma seek_from_behind (key : bytes) (before rest : list entry) :
  behind (seek_from key before rest) = rev (below_list key rest) ++ before.
Proof.
  revert before. induction rest as [|e rest IH]; intros before; simpl.
  - reflexivity.
  - destruct (Compare (fst e) key); simpl; try reflexivity.
    rewrite IH. rewrite <- app_assoc. reflexivity.
Qed.

Lemma below_seek_split (key : bytes) (b : list entry) :
  b = below_list key b ++ seek_list key b.
Proof.
  induction b as [|e b IH]; simpl; [reflexivity|].
  destruct (Compare (fst e) key); simpl; try reflexivity.
  f_equal. exact IH.
Qed.

Lemma below_list_lt (key : bytes) (b : list entry) :
  Forall (fun e => bytes_lt (fst e) key) (below_list key b).
Proof.
  induction b as [|e b IH]; simpl; [constructor|].
  destruct (Compare (fst e) key) eqn:E; try constructor; assumption.
Qed.

Lemma direction_cases (d : IterationDirection) :
  (d = IterateRegular /\ (d =? IterateRegular)%N = true)
  \/ (d = IterateReverse /\ (d =? IterateRegular)%N = false
      /\ (d =? IterateReverse)%N = true)
  \/ (d <> IterateRegular /\ d <> IterateReverse
      /\ (d =? IterateRegular)%N = false /\ (d =? IterateReverse)%N = false).
Proof.
  destruct (N.eqb_spec d IterateRegular) as [H|H]; [left; auto|].
  destruct (N.eqb_spec d IterateReverse) as [H'|H']; [right; left; auto|].
  right; right; auto.
Qed.

Ltac dir_absurd :=
  intros;
  try match goal with
      | H1 : ?d = IterateRegular, H2 : ?d = IterateReverse |- _ =>
          rewrite H1 in H2; discriminate H2
      | H1 : ?d = IterateRegular, H2 : ?d <> IterateRegular |- _ =>
          destruct (H2 H1)
      | H1 : ?d = IterateReverse, H2 : ?d <> IterateReverse |- _ =>
          destruct (H2 H1)
      end;
  try congruence.

(** Where the engine puts the cursor to start a run. *)
Lemma start_pos (b : BBucket) (window : _RawIterationParams) :
  let r := _CursorStartPosForPrefix (Cursor_of b) (page_start window)
             (Direction window) in
  at_pos (Direction window) (run_list b window) (fst r) (snd r).
Proof.
  unfold run_list, _CursorStartPosForPrefix, _CursorStartPos, at_pos.
  set (start := page_start window).
  destruct (direction_cases (Direction window))
    as [[Hd E1]|[[Hd [E1 E2]]|[Hn1 [Hn2 [E1 E2]]]]]; rewrite E1; try rewrite E2.
  - (* regular *)
    destruct (length start =? 0)%nat eqn:El.
    + apply Nat.eqb_eq in El. destruct start; [|discriminate].
      rewrite seek_list_nil_key. unfold First, Cursor_of, entries. simpl.
      repeat split; auto; dir_absurd.
    + unfold Seek, Cursor_of, entries. simpl.
      rewrite seek_from_ahead.
      repeat split; auto; dir_absurd.
  - (* reverse *)
    destruct (length start =? 0)%nat eqn:El.
    + unfold Last, Cursor_of, entries. simpl.
      destruct (rev b) as [|e before]; simpl;
        repeat split; auto; dir_absurd.
    + unfold Seek, Cursor_of, entries. simpl.
      unfold Prev.
      pose proof (seek_from_behind (_NextPrefix start) [] b) as Hb.
      rewrite app_nil_r in Hb.
      destruct (behind (seek_from (_NextPrefix start) [] b)) as [|e before] eqn:E;
        rewrite <- Hb; simpl; repeat split; auto; dir_absurd.
  - destruct (length start =? 0)%nat; simpl;
      repeat split; auto; dir_absurd.
Qed.

(** One step of the cursor moves to the next entry of the list. *)
Lemma step_pos (direction : IterationDirection) (l : list entry)
    (kv : option entry) (c : Bolt.Cursor) :
  at_pos direction l kv c ->
  at_pos direction (tl l) (fst (_CursorStep c direction))
    (snd (_CursorStep c direction)).
Proof.
  intros [Hkv [Hr [Hv Ho]]]. unfold _CursorStep, at_pos.
  destruct (direction_cases direction)
    as [[Hd E1]|[[Hd [E1 E2]]|[Hn1 [Hn2 [E1 E2]]]]]; rewrite E1; try rewrite E2.
  - specialize (Hr Hd). unfold Next. rewrite Hr.
    destruct l as [|e rest]; simpl; repeat split; auto; dir_absurd.
  - specialize (Hv Hd). unfold Prev. rewrite Hv.
    destruct (tl l) as [|e' rest'] eqn:Et; simpl;
      repeat split; auto; dir_absurd.
  - rewrite (Ho Hn1 Hn2). simpl. repeat split; auto; dir_absurd.
Qed.

Lemma skip_pos (direction : IterationDirection) :
  forall (n : nat) (l : list entry) (kv : option entry) (c : Bolt.Cursor),
    at_pos direction l kv c ->
    match skip_offset n direction c kv with
    | None => 0 < n /\ length l <= n
    | Some (kv', c') =>
        at_pos direction (skipn n l) kv' c' /\ (n = 0 \/ n < length l)
    end.
Proof.
  induction n as [|n IH]; intros l kv c Hp; simpl.
  - split; [exact Hp | left; reflexivity].
  - pose proof (step_pos direction l kv c Hp) as Hs.
    destruct (_CursorStep c direction) as [kv1 c1]. simpl in Hs.
    destruct kv1 as [e1|].
    + specialize (IH (tl l) (Some e1) c1 Hs).
      destruct Hs as [Hh _].
      destruct l as [|e rest]; [discriminate|]. simpl in *.
      destruct (skip_offset n direction c1 (Some e1)) as [[kv' c']|].
      * destruct IH as [Hp' Hn]. split; [exact Hp'|].
        right. destruct rest; [discriminate|]. simpl in *. lia.
      * lia.
    + destruct Hs as [Hh _]. split; [lia|].
      destruct l as [|e rest]; simpl in *; [lia|].
      destruct rest; [simpl; lia | discriminate].
Qed.

Section RunScan.
Variable St : Type.
Variable visitFn : St -> bytes -> bytes -> bool * St.

Lemma loop_pos (window : _RawIterationParams) :
  forall (fuel : nat) (l : list entry) (kv : option entry)
         (c : Bolt.Cursor) (count : Z) (s : St),
    at_pos (Direction window) l kv c -> length l <= fuel ->
    finish (Direction window)
      (yield_loop visitFn fuel window c kv count s)
    = scan visitFn (Prefix window) (Limit window) count s l.
Proof.
  induction fuel as [|fuel IH]; intros l kv c count s Hp Hlen.
  - destruct l; [|simpl in Hlen; lia].
    destruct Hp as [Hkv _]. subst kv. reflexivity.
  - pose proof (step_pos _ l kv c Hp) as Hs.
    destruct Hp as [Hkv Hrest]. subst kv.
    destruct l as [|[key value] rest]; [reflexivity|].
    simpl hd_error. simpl yield_loop. simpl scan. simpl tl in Hs.
    destruct (HasPrefix key (Prefix window)).
    + destruct (visitFn s key value) as [cont s'].
      destruct cont; simpl negb; cbv iota.
      * destruct ((Limit window >? 0)%Z && (count + 1 >=? Limit window)%Z).
        -- unfold finish. destruct Hs as [Hh _]. rewrite Hh. reflexivity.
        -- destruct (_CursorStep c (Direction window)) as [kv' c'].
           simpl in Hs. apply IH; [exact Hs | simpl in Hlen; lia].
      * unfold finish. destruct Hs as [Hh _]. rewrite Hh. reflexivity.
    + unfold finish. destruct Hs as [Hh _]. rewrite Hh. reflexivity.
Qed.

Lemma run_list_length (b : BBucket) (window : _RawIterationParams) :
  length (run_list b window) <= length b.
Proof.
  unfold run_list.
  destruct (Direction window =? IterateRegular)%N.
  - rewrite (below_seek_split (page_start window) b) at 2.
    rewrite length_app. lia.
  - destruct (Direction window =? IterateReverse)%N; [|simpl; lia].
    destruct (length (page_start window) =? 0)%nat.
    + rewrite length_rev. lia.
    + rewrite length_rev.
      rewrite (below_seek_split (_NextPrefix (page_start window)) b) at 2.
      rewrite length_app. lia.
Qed.

(** [_RawIterateCore] is a scan over the entries that lie in the
    direction of the run, after the offset. *)
Lemma RawIterateCore_scan (b : BBucket) (window : _RawIterationParams)
    (s : St) :
  _RawIterateCore visitFn b window s
  = match after_offset window (run_list b window) with
    | None => (None, s)
    | Some l => scan visitFn (Prefix window) (Limit window) 0 s l
    end.
Proof.
  unfold _RawIterateCore, after_offset.
  pose proof (start_pos b window) as Hp. unfold page_start in Hp.
  fold (page_start window) in Hp.
  change (if (0 <? length (Cursor window))%nat then Cursor window
          else Prefix window) with (page_start window).
  destruct (_CursorStartPosForPrefix (Cursor_of b) (page_start window)
              (Direction window)) as [kv c]. simpl in Hp.
  pose proof (run_list_length b window) as Hlen.
  destruct (Offset window >? 0)%Z eqn:Eo.
  - pose proof (skip_pos _ (Z.to_nat (Offset window)) _ _ _ Hp) as Hk.
    destruct (skip_offset (Z.to_nat (Offset window)) (Direction window) c kv)
      as [[kv' c']|].
    + destruct Hk as [Hp' Hn].
      assert (Hlt : (length (run_list b window)
                     <=? Z.to_nat (Offset window))%nat = false).
      { apply Nat.leb_gt. destruct Hn as [Hn|Hn]; [lia|exact Hn]. }
      rewrite Hlt.
      rewrite <- (loop_pos window (S (length b)) _ kv' c' 0%Z s Hp').
      * unfold finish.
        destruct (yield_loop visitFn (S (length b)) window c' kv' 0 s)
          as [[[e|] c''] s']; reflexivity.
      * rewrite length_skipn. lia.
    + destruct Hk as [_ Hn].
      assert (Hle : (length (run_list b window)
                     <=? Z.to_nat (Offset window))%nat = true)
        by (apply Nat.leb_le; exact Hn).
      rewrite Hle. reflexivity.
  - rewrite <- (loop_pos window (S (length b)) _ kv c 0%Z s Hp).
    + unfold finish.
      destruct (yield_loop visitFn (S (length b)) window c kv 0 s)
        as [[[e|] c''] s']; reflexivity.
    + lia.
Qed.
End RunScan.

(** ** What a run visits *)

Ltac fin :=
  repeat split; auto;
  try (rewrite ?app_nil_r; reflexivity);
  try (repeat constructor; simpl; assumption);
  try (intros; simpl in *; lia).

Section Visits.
Variable St : Type.
Variable visitFn : St -> bytes -> bytes -> bool * St.
Variables (prefix : bytes) (limit : Z).

Lemma recording_eq (s : St) (seen0 : list entry) (key value : bytes) :
  recording visitFn (s, seen0) key value
  = (fst (visitFn s key value),
     (snd (visitFn s key value), seen0 ++ [(key, value)])).
Proof.
  unfold recording. simpl. destruct (visitFn s key value); reflexivity.
Qed.

Lemma scan_recording :
  forall (l : list entry) (count : Z) (s : St) (seen0 : list entry),
    let r := scan (recording visitFn) prefix limit count (s, seen0) l in
    (fst r, fst (snd r)) = scan visitFn prefix limit count s l
    /\ exists run rest,
        l = run ++ rest /\ snd (snd r) = seen0 ++ run
        /\ Forall (fun e => HasPrefix (fst e) prefix = true) run
        /\ ((0 < limit)%Z -> (0 <= count < limit)%Z ->
            (Z.of_nat (length run) <= limit - count)%Z).
Proof.
  induction l as [|[key value] rest IH]; intros count s seen0; simpl.
  - split; [reflexivity|]. exists [], []. rewrite app_nil_r.
    fin.
  - destruct (HasPrefix key prefix) eqn:Hp.
    + rewrite recording_eq.
      destruct (visitFn s key value) as [cont s'].
      destruct cont; simpl negb; simpl fst; simpl snd; cbv iota.
      * destruct ((limit >? 0)%Z && (count + 1 >=? limit)%Z) eqn:El.
        -- simpl. split; [reflexivity|].
           exists [(key, value)], rest. fin.
        -- specialize (IH (count + 1)%Z s' (seen0 ++ [(key, value)])).
           simpl in IH. destruct IH as [IH1 [run [rest' [E1 [E2 [F1 F2]]]]]].
           split; [exact IH1|].
           exists ((key, value) :: run), rest'. subst rest.
           rewrite E2, <- app_assoc. repeat split; auto.
           intros H0 Hc. simpl length.
           assert (count + 1 < limit)%Z by lia.
           specialize (F2 H0). lia.
      * simpl. split; [reflexivity|].
        exists [(key, value)], rest. fin.
    + simpl. split; [reflexivity|].
      exists [], ((key, value) :: rest). rewrite app_nil_r.
      fin.
Qed.
End Visits.

(** X1.  The engine calls the visitor only with entries of the bucket whose
    key begins with the prefix, at most [Limit] times when a limit is
    set, and on neighbouring entries one after the other: the entries
    it has visited form one uninterrupted stretch of the bucket, taken
    upwards in the regular direction and downwards in the reverse
    direction.  Recording the visits does not change the run. *)
Theorem RawIterateCore_visits_run (St : Type)
    (visitFn : St -> bytes -> bytes -> bool * St)
    (b : BBucket) (window : _RawIterationParams) (s : St) :
  let r := _RawIterateCore (recording visitFn) b window (s, []) in
  let seen := snd (snd r) in
  (fst r, fst (snd r)) = _RawIterateCore visitFn b window s
  /\ Forall (fun e => HasPrefix (fst e) (Prefix window) = true) seen
  /\ ((0 < Limit window)%Z -> (Z.of_nat (length seen) <= Limit window)%Z)
  /\ exists l1 l2,
      b = l1 ++ (if (Direction window =? IterateReverse)%N
                 then rev seen else seen) ++ l2.
Proof.
  intros r seen. subst seen r.
  rewrite !RawIterateCore_scan.
  assert (Hseg : forall l,
             after_offset window (run_list b window) = Some l ->
             exists h t, (if (Direction window =? IterateReverse)%N
                          then rev b else b) = h ++ l ++ t).
  { intros l Hl.
    assert (Hrun : exists h t, (if (Direction window =? IterateReverse)%N
                                then rev b else b)
                               = h ++ run_list b window ++ t).
    { unfold run_list.
      destruct (direction_cases (Direction window))
        as [[Hd E1]|[[Hd [E1 E2]]|[Hn1 [Hn2 [E1 E2]]]]];
        rewrite E1; try rewrite E2.
      - rewrite Hd. simpl.
        exists (below_list (page_start window) b), [].
        rewrite app_nil_r. apply below_seek_split.
      - destruct (length (page_start window) =? 0)%nat.
        + exists [], []. rewrite app_nil_r. reflexivity.
        + exists (rev (seek_list (_NextPrefix (page_start window)) b)), [].
          rewrite app_nil_r, <- rev_app_distr.
          f_equal. apply below_seek_split.
      - exists [], b. reflexivity. }
    destruct Hrun as [h [t Hrun]].
    unfold after_offset in Hl.
    destruct (Offset window >? 0)%Z.
    - destruct (length (run_list b window) <=? Z.to_nat (Offset window))%nat;
        [discriminate|].
      injection Hl as <-.
      exists (h ++ firstn (Z.to_nat (Offset window)) (run_list b window)), t.
      rewrite Hrun, <- app_assoc. f_equal. rewrite app_assoc.
      f_equal. symmetry. apply firstn_skipn.
    - injection Hl as <-. exists h, t. exact Hrun. }
  destruct (after_offset window (run_list b window)) as [l|].
  - pose proof (scan_recording St visitFn (Prefix window) (Limit window)
                  l 0%Z s []) as H.
    cbv zeta in H. destruct H as [H1 [run [rest [E1 [E2 [F1 F2]]]]]].
    split; [exact H1|]. simpl in E2. rewrite E2.
    split; [exact F1|]. split; [intros H0; specialize (F2 H0); lia|].
    destruct (Hseg l eq_refl) as [h [t Hb]]. subst l.
    destruct (Direction window =? IterateReverse)%N.
    + exists (rev t ++ rev rest), (rev h).
      apply (f_equal (@rev entry)) in Hb. rewrite rev_involutive in Hb.
      rewrite Hb. rewrite !rev_app_distr, <- !app_assoc. reflexivity.
    + exists h, (rest ++ t). rewrite Hb, <- !app_assoc. reflexivity.
  - simpl. split; [reflexivity|]. split; [constructor|].
    split; [intros; lia|].
    destruct (Direction window =? IterateReverse)%N; exists [], b; reflexivity.
Qed.

(** ** Windows: offset and limit, upwards and downwards *)

Lemma fold_left_collect (l acc : list entry) :
  fold_left (fun s (e : entry) => s ++ [(fst e, snd e)]) l acc = acc ++ l.
Proof.
  revert acc. induction l as [|[k v] l IH]; intros acc; simpl.
  - now rewrite app_nil_r.
  - rewrite IH, <- app_assoc. reflexivity.
Qed.

Lemma scan_collect_all (p : bytes) (L : Z) (l : list entry) :
  snd (scan (fun seen key value => (true, seen ++ [(key, value)])) p L 0 [] l)
  = limited L (take_prefixed p l).
Proof.
  unfold limited. destruct (L >? 0)%Z eqn:E.
  - rewrite scan_limited by (try lia; intros; reflexivity).
    simpl snd. rewrite fold_left_collect. simpl.
    rewrite Z.sub_0_r. reflexivity.
  - rewrite scan_unlimited by (try lia; intros; reflexivity).
    simpl snd. rewrite fold_left_collect. reflexivity.
Qed.

Lemma visited_eq (b : BBucket) (window : _RawIterationParams) :
  visited b window
  = match after_offset window (run_list b window) with
    | None => []
    | Some l => limited (Limit window) (take_prefixed (Prefix window) l)
    end.
Proof.
  unfold visited. rewrite RawIterateCore_scan.
  destruct (after_offset window (run_list b window)) as [l|]; [|reflexivity].
  apply scan_collect_all.
Qed.

(** A visitor that never halts is called with the entries of [visited],
    in order. *)
Lemma RawIterateCore_visited (St : Type)
    (visitFn : St -> bytes -> bytes -> bool * St)
    (b : BBucket) (window : _RawIterationParams) (s : St) :
  (forall s k v, fst (visitFn s k v) = true) ->
  snd (_RawIterateCore visitFn b window s)
  = fold_left (fun s (e : entry) => snd (visitFn s (fst e) (snd e)))
      (visited b window) s.
Proof.
  intros Hnh. rewrite visited_eq, RawIterateCore_scan.
  destruct (after_offset window (run_list b window)) as [l|]; [|reflexivity].
  unfold limited. destruct (Limit window >? 0)%Z eqn:E.
  - rewrite scan_limited by (try lia; exact Hnh).
    simpl snd. now rewrite Z.sub_0_r.
  - rewrite scan_unlimited by (try lia; exact Hnh). reflexivity.
Qed.

Lemma take_prefixed_skipn (p : bytes) (run rest : list entry) :
  Forall (fun e => HasPrefix (fst e) p = true) run ->
  Forall (fun e => HasPrefix (fst e) p = false) rest ->
  forall n, take_prefixed p (skipn n (run ++ rest)) = skipn n run.
Proof.
  intros Hrun Hrest. induction Hrun as [|e run He Hrun IH]; intros n.
  - simpl. rewrite skipn_nil.
    pose proof (Forall_skipn _ _ n rest Hrest) as H.
    destruct (skipn n rest) as [|e l]; [reflexivity|].
    simpl. inversion H; subst. now rewrite H2.
  - destruct n as [|n].
    + simpl. rewrite He. f_equal. apply (IH 0).
    + simpl. apply IH.
Qed.

Lemma limited_nil (A : Type) (L : Z) : limited L (@nil A) = [].
Proof. unfold limited. destruct (L >? 0)%Z; [apply firstn_nil|reflexivity]. Qed.

Lemma window_run (window : _RawIterationParams) (run rest : list entry) :
  Forall (fun e => HasPrefix (fst e) (Prefix window) = true) run ->
  Forall (fun e => HasPrefix (fst e) (Prefix window) = false) rest ->
  match after_offset window (run ++ rest) with
  | None => []
  | Some l => limited (Limit window) (take_prefixed (Prefix window) l)
  end
  = limited (Limit window) (skipn (Z.to_nat (Offset window)) run).
Proof.
  intros Hrun Hrest. unfold after_offset.
  destruct (Offset window >? 0)%Z eqn:Eo.
  - destruct (length (run ++ rest) <=? Z.to_nat (Offset window))%nat eqn:El.
    + apply Nat.leb_le in El. rewrite length_app in El.
      rewrite skipn_all2 by lia. now rewrite limited_nil.
    + now rewrite take_prefixed_skipn.
  - assert (Z.to_nat (Offset window) = 0) as -> by lia.
    pose proof (take_prefixed_skipn _ _ _ Hrun Hrest 0) as H.
    simpl in H. simpl. now rewrite H.
Qed.

Lemma visited_regular (b : BBucket) (p : bytes) (L k : Z) :
  keys_ascending b ->
  visited b (mkParams p (mkWindow L k [] IterateRegular))
  = limited L (skipn (Z.to_nat k) (with_prefix p b)).
Proof.
  intros Hasc. rewrite visited_eq.
  unfold run_list, page_start. simpl.
  rewrite <- (take_drop_prefixed p (seek_list p b)).
  rewrite <- (take_prefixed_seek p b Hasc).
  apply (window_run (mkParams p (mkWindow L k [] IterateRegular))).
  - apply take_prefixed_all.
  - apply drop_prefixed_none. exact Hasc.
Qed.

(** X2.  A forward run with an offset and a limit, from the start of the
    prefix, with a visitor that never halts: of the entries under the
    prefix, in ascending order, it skips the first [Offset] and visits
    the next [Limit], or all the others when the limit is zero. *)
Theorem regular_window (St : Type)
    (visitFn : St -> bytes -> bytes -> bool * St)
    (b : BBucket) (p : bytes) (L k : Z) (s : St) :
  (forall s k v, fst (visitFn s k v) = true) ->
  keys_ascending b ->
  snd (_RawIterateCore visitFn b
         (mkParams p (mkWindow L k [] IterateRegular)) s)
  = fold_left (fun s (e : entry) => snd (visitFn s (fst e) (snd e)))
      (limited L (skipn (Z.to_nat k) (with_prefix p b))) s.
Proof.
  intros Hnh Hasc. rewrite RawIterateCore_visited by exact Hnh.
  now rewrite visited_regular.
Qed.

(** The successor of a prefix whose last byte is below 0xff. *)
Lemma NextPrefix_last (q : bytes) (c : byte) :
  c <> xff -> _NextPrefix (q ++ [c]) = q ++ [byte_succ c].
Proof.
  intros Hc. unfold _NextPrefix.
  rewrite length_app. simpl length. rewrite Nat.add_1_r. simpl last_below_ff.
  rewrite app_nth2 by lia. rewrite Nat.sub_diag. simpl nth.
  destruct (Byte.eqb c xff) eqn:E.
  - apply byte_eqb_eq in E. contradiction.
  - clear. induction q as [|x q IH]; simpl; [reflexivity|].
    now rewrite IH.
Qed.

(** A key at or above such a prefix that does not begin with it is at
    or above the successor. *)
Lemma past_last_byte (q : bytes) (c : byte) :
  c <> xff ->
  forall k, Compare k (q ++ [c]) <> Lt -> HasPrefix k (q ++ [c]) = false ->
            Compare k (q ++ [byte_succ c]) <> Lt.
Proof.
  intros Hc. induction q as [|a q IH]; intros k Hge Hp.
  - destruct k as [|x k]; [exfalso; apply Hge; reflexivity|].
    simpl in *. unfold byte_compare in *.
    rewrite byte_succ_to_N by exact Hc.
    destruct (N.compare_spec (Byte.to_N x) (Byte.to_N c)) as [E|E|E].
    + apply to_N_inj in E. subst x. rewrite byte_eqb_refl in Hp.
      simpl in Hp. discriminate.
    + exfalso. apply Hge. reflexivity.
    + destruct (N.compare_spec (Byte.to_N x) (Byte.to_N c + 1)) as [E'|E'|E'];
        try lia; try discriminate.
      destruct k; discriminate.
  - destruct k as [|x k]; [exfalso; apply Hge; reflexivity|].
    simpl in *. unfold byte_compare in *.
    destruct (N.compare_spec (Byte.to_N x) (Byte.to_N a)) as [E|E|E].
    + apply to_N_inj in E. subst x. rewrite byte_eqb_refl in Hp.
      simpl in Hp. apply IH; assumption.
    + exfalso. apply Hge. reflexivity.
    + discriminate.
Qed.

Lemma below_list_app (key : bytes) (l1 l2 : list entry) :
  Forall (fun e => bytes_lt (fst e) key) l1 ->
  (forall e l', l2 = e :: l' -> Compare (fst e) key <> Lt) ->
  below_list key (l1 ++ l2) = l1.
Proof.
  intros H1 H2. induction H1 as [|e l1 He H1 IH]; simpl.
  - destruct l2 as [|e l']; [reflexivity|]. simpl.
    specialize (H2 e l' eq_refl).
    destruct (Compare (fst e) key); try reflexivity.
    exfalso. apply H2. reflexivity.
  - unfold bytes_lt in He. rewrite He. now rewrite IH.
Qed.

Lemma with_prefix_nil (b : BBucket) : with_prefix [] b = b.
Proof.
  induction b as [|e b IH]; [reflexivity|].
  unfold with_prefix in *. simpl in *. f_equal. exact IH.
Qed.

Lemma below_next_prefix (q : bytes) (c : byte) (b : BBucket) :
  c <> xff -> keys_ascending b ->
  below_list (_NextPrefix (q ++ [c])) b
  = below_list (q ++ [c]) b ++ with_prefix (q ++ [c]) b.
Proof.
  intros Hc Hasc. set (p := q ++ [c]).
  assert (Hne : exists x, In x p /\ x <> xff).
  { exists c. split; [|exact Hc]. unfold p. apply in_or_app. right. now left. }
  rewrite <- (take_prefixed_seek p b Hasc).
  rewrite (below_seek_split p b) at 1.
  rewrite <- (take_drop_prefixed p (seek_list p b)) at 1.
  rewrite app_assoc. apply below_list_app.
  - apply Forall_app. split.
    + eapply Forall_impl; [|apply below_list_lt].
      intros e He. simpl in He. eapply bytes_lt_trans; [exact He|].
      apply NextPrefix_gt.
    + eapply Forall_impl; [|apply take_prefixed_all].
      intros e He. simpl in He. now apply NextPrefix_gt_extensions.
  - intros e l' Hd. unfold p. rewrite NextPrefix_last by exact Hc.
    apply past_last_byte; [exact Hc| |].
    + pose proof (seek_list_ge p b Hasc) as Hge.
      rewrite <- (take_drop_prefixed p (seek_list p b)) in Hge.
      apply Forall_app in Hge. destruct Hge as [_ Hge].
      rewrite Hd in Hge. inversion Hge; subst. assumption.
    + eapply drop_prefixed_head. exact Hd.
Qed.

Lemma visited_reverse (b : BBucket) (p : bytes) (L k : Z) :
  keys_ascending b ->
  (p = [] \/ exists q c, p = q ++ [c] /\ c <> xff) ->
  visited b (mkParams p (mkWindow L k [] IterateReverse))
  = limited L (skipn (Z.to_nat k) (rev (with_prefix p b))).
Proof.
  intros Hasc Hp. rewrite visited_eq.
  unfold run_list, page_start. simpl.
  destruct Hp as [->|[q [c [-> Hc]]]].
  - simpl. rewrite with_prefix_nil.
    rewrite <- (app_nil_r (rev b)) at 1.
    apply (window_run (mkParams [] (mkWindow L k [] IterateReverse))).
    + apply Forall_forall. intros; reflexivity.
    + constructor.
  - assert (El : (length (q ++ [c]) =? 0)%nat = false).
    { apply Nat.eqb_neq. rewrite length_app. simpl. lia. }
    rewrite El. rewrite below_next_prefix by assumption.
    rewrite rev_app_distr.
    apply (window_run (mkParams (q ++ [c]) (mkWindow L k [] IterateReverse))).
    + apply Forall_rev. apply Forall_forall. intros e He.
      unfold with_prefix in He. apply filter_In in He. tauto.
    + apply Forall_rev. eapply Forall_impl; [|apply below_list_lt].
      intros e He. simpl in He. simpl. now apply lt_not_HasPrefix.
Qed.

(** X3.  A reverse run with an offset and a limit, with a visitor that never
    halts: of the entries under the prefix, in descending order, it
    skips the first [Offset] and visits the next [Limit], or all the
    others when the limit is zero.  This holds for the empty prefix and
    for a prefix whose last byte is below 0xff.  (For a prefix that ends
    in 0xff, [_NextPrefix] keeps the trailing byte, and the run starts
    from a key that may lie past other entries.) *)
Theorem reverse_window (St : Type)
    (visitFn : St -> bytes -> bytes -> bool * St)
    (b : BBucket) (p : bytes) (L k : Z) (s : St) :
  (forall s k v, fst (visitFn s k v) = true) ->
  keys_ascending b ->
  (p = [] \/ exists q c, p = q ++ [c] /\ c <> xff) ->
  snd (_RawIterateCore visitFn b
         (mkParams p (mkWindow L k [] IterateReverse)) s)
  = fold_left (fun s (e : entry) => snd (visitFn s (fst e) (snd e)))
      (limited L (skipn (Z.to_nat k) (rev (with_prefix p b)))) s.
Proof.
  intros Hnh Hasc Hp. rewrite RawIterateCore_visited by exact Hnh.
  now rewrite visited_reverse.
Qed.

(** ** Looking a key up with a cursor *)

Lemma RawHasKey_seek (b : BBucket) (key : bytes) :
  RawHasKey (Some b) key
  = match hd_error (seek_list key b) with
    | Some (k, _) => Equal key k
    | None => Equal key []
    end.
Proof.
  unfold RawHasKey, Seek, Cursor_of, entries. simpl.
  now rewrite seek_from_ahead.
Qed.

Lemma RawHasKey_of_Get (b : BBucket) (key v : bytes) :
  Get b key = Some v -> RawHasKey (Some b) key = true.
Proof.
  rewrite RawHasKey_seek.
  induction b as [|[k v'] b IH]; simpl; [discriminate|].
  rewrite (Compare_antisym key k).
  destruct (Compare key k) eqn:E; simpl; intros H.
  - unfold Equal. now rewrite E.
  - discriminate.
  - apply IH. exact H.
Qed.

Lemma RawHasKey_iff_Get_aux (b : BBucket) (key : bytes) :
  key <> [] -> RawHasKey (Some b) key = true -> exists v, Get b key = Some v.
Proof.
  intros Hk. rewrite RawHasKey_seek.
  induction b as [|[k v'] b IH]; simpl.
  - destruct key; [congruence|]. discriminate.
  - rewrite (Compare_antisym key k).
    destruct (Compare key k) eqn:E; simpl; intros H.
    + now exists v'.
    + unfold Equal in H. rewrite E in H. discriminate.
    + apply IH. exact H.
Qed.

(** X4.  [RawHasKey] answers whether the bucket holds the key: true exactly
    when [Get] finds a value, for every key that is not empty, and false
    on the nil bucket.  (With the empty key and no entry to land on, the
    comparison of the empty key with the nil key of the cursor makes it
    answer true.) *)
Theorem RawHasKey_iff_Get (b : BBucket) (key : bytes) :
  key <> [] ->
  (RawHasKey (Some b) key = true <-> exists v, Get b key = Some v)
  /\ RawHasKey None key = false.
Proof.
  intros Hk. split; [|reflexivity]. split.
  - now apply RawHasKey_iff_Get_aux.
  - intros [v H]. eapply RawHasKey_of_Get. exact H.
Qed.

Lemma RawHasKey_empty_key : RawHasKey (Some []) [] = true.
Proof. reflexivity. Qed.

(** ** Transactions *)

Lemma tx_Bucket_set_same (bs : list (String.string * BBucket))
    (n : String.string) (b : BBucket) :
  tx_Bucket (set_bucket bs n b) n = Some b.
Proof.
  induction bs as [|[n' b'] bs IH]; simpl.
  - now rewrite String.eqb_refl.
  - destruct (String.eqb n' n) eqn:E; simpl; rewrite E; auto.
Qed.

Lemma tx_Bucket_set_other (bs : list (String.string * BBucket))
    (n n' : String.string) (b : BBucket) :
  n' <> n -> tx_Bucket (set_bucket bs n b) n' = tx_Bucket bs n'.
Proof.
  intros Hn. induction bs as [|[n0 b0] bs IH]; simpl.
  - destruct (String.eqb n n') eqn:E; [|reflexivity].
    apply String.eqb_eq in E. congruence.
  - destruct (String.eqb n0 n) eqn:E; simpl.
    + apply String.eqb_eq in E. subst n0.
      destruct (String.eqb n n') eqn:E'; [|reflexivity].
      apply String.eqb_eq in E'. congruence.
    + destruct (String.eqb n0 n'); auto.
Qed.

Lemma set_bucket_twice (bs : list (String.string * BBucket))
    (n : String.string) (b b' : BBucket) :
  set_bucket (set_bucket bs n b) n b' = set_bucket bs n b'.
Proof.
  induction bs as [|[n0 b0] bs IH]; simpl.
  - now rewrite String.eqb_refl.
  - destruct (String.eqb n0 n) eqn:E; simpl; rewrite E; [reflexivity|].
    now rewrite IH.
Qed.

Lemma set_bucket_same (bs : list (String.string * BBucket))
    (n : String.string) (b : BBucket) :
  tx_Bucket bs n = Some b -> set_bucket bs n b = bs.
Proof.
  induction bs as [|[n0 b0] bs IH]; simpl; [discriminate|].
  destruct (String.eqb n0 n) eqn:E; intros H.
  - now injection H as ->.
  - now rewrite IH.
Qed.

Lemma TxRawBucket_found (tx : Tx) (n : String.string) (b : BBucket) :
  tx_Bucket (Buckets tx) n = Some b -> TxRawBucket tx n = (Some b, tx).
Proof. intros H. unfold TxRawBucket. now rewrite H. Qed.

Lemma TxRawBucket_cases (tx : Tx) (n : String.string) :
  (exists b, tx_Bucket (Buckets tx) n = Some b
             /\ TxRawBucket tx n = (Some b, tx))
  \/ (tx_Bucket (Buckets tx) n = None /\ Writable tx = true
      /\ TxRawBucket tx n
         = (Some [], mkTx true (set_bucket (Buckets tx) n [])))
  \/ (tx_Bucket (Buckets tx) n = None /\ Writable tx = false
      /\ TxRawBucket tx n = (None, tx)).
Proof.
  unfold TxRawBucket.
  destruct (tx_Bucket (Buckets tx) n) as [b|] eqn:E.
  - left. now exists b.
  - destruct (Writable tx) eqn:W; [right; left | right; right]; auto.
Qed.

Lemma Put_Put (b : BBucket) (k v v' : bytes) :
  Put (Put b k v) k v' = Put b k v'.
Proof.
  induction b as [|[k0 v0] b IH]; simpl.
  - now rewrite Compare_refl.
  - destruct (Compare k k0) eqn:E; simpl.
    + now rewrite Compare_refl.
    + now rewrite Compare_refl.
    + rewrite E. now rewrite IH.
Qed.

Lemma Delete_Put_fresh (b : BBucket) (k v : bytes) :
  keys_ascending b -> Get b k = None -> Bolt.Delete (Put b k v) k = b.
Proof.
  intros Hasc Hget. apply bucket_ext.
  - apply Delete_ascending. now apply Put_ascending.
  - exact Hasc.
  - intros k'. destruct (bytes_eq_dec k' k) as [->|Hne].
    + rewrite Get_Delete_same by now apply Put_ascending. now rewrite Hget.
    + rewrite Get_Delete_other by (try assumption; now apply Put_ascending).
      now apply Get_Put_other.
Qed.

(** ** The typed bucket: writes, reads and deletions *)

Section TypedBucketFacts.
Variables K T : Type.
Context {ZK : HasZero K} {CK : Comparable K} {ZT : HasZero T}.
Variable bucketInfo : BucketInfo K T.
Hypothesis K_ok : Comparable_ok (X := K).

Local Notation name := (BName bucketInfo).
Local Notation encK := (pack (KeyPackFn bucketInfo)).
Local Notation encT := (pack (ValuePackFn bucketInfo)).

Lemma nonzero_equal (id : K) : id <> zero -> equal id zero = false.
Proof.
  intros H. destruct (equal id zero) eqn:E; [|reflexivity].
  apply K_ok in E. contradiction.
Qed.

(** What [Write] makes of a writable transaction. *)
Lemma Write_writable (tx : Tx) (id : K) (item : T) :
  Writable tx = true -> id <> zero ->
  exists b0,
    (tx_Bucket (Buckets tx) name = Some b0
     \/ (tx_Bucket (Buckets tx) name = None /\ b0 = []))
    /\ Write bucketInfo tx id item
       = Some (mkTx true
                 (set_bucket (Buckets tx) name
                    (Put b0 (encK id) (encT item)))).
Proof.
  intros Hw Hid. unfold Write. rewrite (nonzero_equal id Hid).
  destruct (TxRawBucket_cases tx name)
    as [[b [Hb ->]]|[[Hb [_ ->]]|[_ [Hw' _]]]]; [| |congruence].
  - exists b. split; [now left|]. rewrite Hw. reflexivity.
  - exists []. split; [now right|]. simpl.
    now rewrite set_bucket_twice.
Qed.

(** X5.  After [Write] of an item under a key that is not the zero
    value, in a writable transaction, [Read] of the key returns the
    item and [HasKey] answers true.  The value codec must read back
    what it wrote, and the engine must accept the entry and the name
    of the bucket (otherwise [Write] panics). *)
Theorem Write_then_Read (tx : Tx) (id : K) (item item0 : T) :
  round_trip (ValuePackFn bucketInfo) ->
  Writable tx = true -> id <> zero ->
  named name -> accepted (encK id) (encT item) ->
  exists tx',
    Write bucketInfo tx id item = Some tx'
    /\ Read bucketInfo tx' id item0 = (true, item, tx')
    /\ HasKey bucketInfo tx' id = (true, tx').
Proof.
  intros Hrt Hw Hid _ _.
  destruct (Write_writable tx id item Hw Hid) as [b0 [_ ->]].
  eexists. split; [reflexivity|].
  unfold Read, HasKey.
  rewrite (TxRawBucket_found _ name (Put b0 (encK id) (encT item)))
    by apply tx_Bucket_set_same.
  split.
  - unfold _Read. rewrite (nonzero_equal id Hid).
    unfold ToBytes. rewrite Get_Put_same.
    unfold FromBytesInto. destruct (Hrt item) as [rest ->]. reflexivity.
  - f_equal. eapply RawHasKey_of_Get. unfold ToBytes. apply Get_Put_same.
Qed.

(** X6.  A [Write] that returns leaves the other keys of the bucket and all
    the other buckets as they were, and the transaction writable or
    not as it was. *)
Theorem Write_frame (tx tx' : Tx) (id : K) (item : T) :
  Write bucketInfo tx id item = Some tx' ->
  Writable tx' = Writable tx
  /\ (forall (id' : K) (item0 : T),
         encK id' <> encK id ->
         fst (Read bucketInfo tx' id' item0)
         = fst (Read bucketInfo tx id' item0))
  /\ (forall n, n <> name ->
                tx_Bucket (Buckets tx') n = tx_Bucket (Buckets tx) n).
Proof.
  unfold Write. destruct (equal id zero) eqn:Ez.
  - intros H. injection H as <-. repeat split; reflexivity.
  - destruct (TxRawBucket_cases tx name)
      as [[b [Hb E]]|[[Hb [Hw E]]|[Hb [Hw E]]]]; rewrite E.
    + destruct (Writable tx) eqn:Hw; [|discriminate].
      intros H. injection H as <-. simpl.
      split; [reflexivity|]. split.
      * intros id' item0 Hne. unfold Read.
        rewrite (TxRawBucket_found _ name (Put b (encK id) (encT item)))
          by apply tx_Bucket_set_same.
        rewrite (TxRawBucket_found tx name b Hb). simpl.
        unfold _Read. destruct (equal id' zero); [reflexivity|].
        unfold ToBytes, RawMustPut.
        rewrite (Get_Put_other _ (encK id) (encT item) (encK id') Hne).
        reflexivity.
      * intros n Hn. now apply tx_Bucket_set_other.
    + cbn [Writable]. intros H. injection H as <-.
      split; [now rewrite Hw|]. split.
      * intros id' item0 Hne. unfold Read.
        rewrite (TxRawBucket_found _ name (Put [] (encK id) (encT item)))
          by apply tx_Bucket_set_same.
        rewrite E. cbn [fst].
        unfold _Read. destruct (equal id' zero); [reflexivity|].
        unfold ToBytes, RawMustPut.
        rewrite (Get_Put_other _ (encK id) (encT item) (encK id') Hne).
        reflexivity.
      * intros n Hn. cbn [Buckets].
        rewrite !tx_Bucket_set_other by exact Hn. reflexivity.
    + discriminate.
Qed.

(** Two writes under the same key, in the model. *)
Lemma Write_twice (tx : Tx) (id : K) (a b : T) :
  match Write bucketInfo tx id a with
  | Some tx1 => Write bucketInfo tx1 id b
  | None => None
  end
  = Write bucketInfo tx id b.
Proof.
  unfold Write. destruct (equal id zero) eqn:Ez; [reflexivity|].
  destruct (TxRawBucket_cases tx name)
    as [[b0 [Hb E]]|[[Hb [Hw E]]|[Hb [Hw E]]]]; rewrite E.
  - destruct (Writable tx) eqn:Hw; [|reflexivity].
    rewrite (TxRawBucket_found _ name
               (RawMustPut b0 (ToBytes id (KeyPackFn bucketInfo))
                  (ToBytes a (ValuePackFn bucketInfo))))
      by apply tx_Bucket_set_same.
    cbn [Writable Buckets]. unfold RawMustPut, ToBytes.
    now rewrite set_bucket_twice, Put_Put.
  - cbn [Writable Buckets].
    rewrite (TxRawBucket_found _ name
               (RawMustPut [] (ToBytes id (KeyPackFn bucketInfo))
                  (ToBytes a (ValuePackFn bucketInfo))))
      by apply tx_Bucket_set_same.
    cbn [Writable Buckets]. unfold RawMustPut, ToBytes.
    rewrite !set_bucket_twice. now rewrite Put_Put.
  - reflexivity.
Qed.

(** X7.  The last write wins: after a [Write] that has returned, a
    second [Write] under the same key leaves what it would have left
    without the first one, and panics where it would have
    panicked. *)
Theorem Write_last_wins (tx tx1 : Tx) (id : K) (a b : T) :
  Write bucketInfo tx id a = Some tx1 ->
  Write bucketInfo tx1 id b = Write bucketInfo tx id b.
Proof.
  intros H. pose proof (Write_twice tx id a b) as E.
  rewrite H in E. exact E.
Qed.

(** X8.  After [Delete] in a writable transaction, on a bucket with
    a name, [Read] of the key finds nothing and [HasKey] answers false
    (for a key whose encoding is not empty); the other keys and the
    other buckets are as they were. *)
Theorem Delete_removes (tx : Tx) (id : K) :
  Writable tx = true -> tx_ascending tx -> named name ->
  exists tx',
    TypedBucket.Delete bucketInfo tx id = Some tx'
    /\ (forall item0, Read bucketInfo tx' id item0 = (false, item0, tx'))
    /\ (encK id <> [] -> HasKey bucketInfo tx' id = (false, tx'))
    /\ (forall (id' : K) (item0 : T),
           encK id' <> encK id ->
           fst (Read bucketInfo tx' id' item0)
           = fst (Read bucketInfo tx id' item0))
    /\ (forall n, n <> name ->
                  tx_Bucket (Buckets tx') n = tx_Bucket (Buckets tx) n).
Proof.
  intros Hw Hasc _. unfold TypedBucket.Delete.
  assert (Hcases : exists b0 bs,
             keys_ascending b0
             /\ TxRawBucket tx name = (Some b0, mkTx true bs)
             /\ tx_Bucket bs name = Some b0
             /\ (forall n, n <> name ->
                           tx_Bucket bs n = tx_Bucket (Buckets tx) n)
             /\ forall id' item0,
                 fst (Read bucketInfo tx id' item0)
                 = _Read bucketInfo (Some b0) id' item0).
  { destruct (TxRawBucket_cases tx name)
      as [[b [Hb E]]|[[Hb [_ E]]|[_ [Hw' _]]]]; [| |congruence].
    - exists b, (Buckets tx). split; [eapply Hasc; exact Hb|].
      split; [rewrite E; destruct tx; simpl in *; now subst|].
      split; [exact Hb|]. split; [reflexivity|].
      intros id' item0. unfold Read. now rewrite E.
    - exists [], (set_bucket (Buckets tx) name []).
      split; [apply keys_ascending_nil|]. split; [exact E|].
      split; [apply tx_Bucket_set_same|].
      split; [intros n Hn; now apply tx_Bucket_set_other|].
      intros id' item0. unfold Read. now rewrite E. }
  destruct Hcases as [b0 [bs [Hb0 [E [Hbs [Hother Hread]]]]]].
  rewrite E. simpl. eexists. split; [reflexivity|].
  assert (Hfound : forall X,
             TxRawBucket
               (mkTx true (set_bucket bs name X)) name
             = (Some X, mkTx true (set_bucket bs name X))).
  { intros X. apply TxRawBucket_found. apply tx_Bucket_set_same. }
  split; [|split; [|split]].
  - intros item0. unfold Read. rewrite Hfound. unfold _Read.
    destruct (equal id zero); [reflexivity|].
    unfold ToBytes. now rewrite Get_Delete_same.
  - intros Hne. unfold HasKey. rewrite Hfound. f_equal.
    destruct (RawHasKey (Some (Bolt.Delete b0 (ToBytes id (KeyPackFn bucketInfo))))
                (ToBytes id (KeyPackFn bucketInfo))) eqn:Eh; [|reflexivity].
    apply (RawHasKey_iff_Get_aux _ _ Hne) in Eh. destruct Eh as [v Hv].
    unfold ToBytes in Hv. rewrite Get_Delete_same in Hv by exact Hb0.
    discriminate.
  - intros id' item0 Hne. unfold Read at 1. rewrite Hfound. simpl.
    rewrite Hread. unfold _Read.
    destruct (equal id' zero); [reflexivity|].
    unfold ToBytes. now rewrite Get_Delete_other.
  - intros n Hn. simpl. rewrite tx_Bucket_set_other by exact Hn.
    now apply Hother.
Qed.

(** X9.  [Delete] undoes the [Write] of an entry, one that the engine
    accepts, under a key that the bucket did not hold: the
    transaction is back in the state it was in. *)
Theorem Write_then_Delete (tx : Tx) (b0 : BBucket) (id : K) (item : T) :
  Writable tx = true -> id <> zero ->
  tx_Bucket (Buckets tx) name = Some b0 -> keys_ascending b0 ->
  Get b0 (encK id) = None -> accepted (encK id) (encT item) ->
  match Write bucketInfo tx id item with
  | Some tx1 => TypedBucket.Delete bucketInfo tx1 id
  | None => None
  end
  = Some tx.
Proof.
  intros Hw Hid Hb Hasc Hget _.
  unfold Write. rewrite (nonzero_equal id Hid).
  rewrite (TxRawBucket_found tx name b0 Hb). rewrite Hw.
  unfold TypedBucket.Delete.
  rewrite (TxRawBucket_found _ name (RawMustPut b0 (ToBytes id (KeyPackFn bucketInfo))
                                       (ToBytes item (ValuePackFn bucketInfo))))
    by apply tx_Bucket_set_same.
  simpl. unfold RawMustPut, ToBytes.
  rewrite set_bucket_twice, Delete_Put_fresh by assumption.
  rewrite set_bucket_same by exact Hb.
  destruct tx; simpl in *; now subst.
Qed.

(** X10.  A read-only transaction is never changed: reads hand it back as
    it was and create no bucket, [Delete] changes nothing where the
    bucket exists, and [Write] under a key that is not the zero value
    panics, as does [Delete] where the bucket is missing. *)
Theorem read_only_unchanged (tx : Tx) :
  Writable tx = false ->
  (forall n, snd (TxRawBucket tx n) = tx)
  /\ (forall id item0, snd (Read bucketInfo tx id item0) = tx)
  /\ (forall id, snd (HasKey bucketInfo tx id) = tx)
  /\ (forall ids l, snd (ReadSlice bucketInfo tx ids l) = tx)
  /\ (forall id item, id <> zero -> Write bucketInfo tx id item = None)
  /\ (forall id,
         TypedBucket.Delete bucketInfo tx id
         = match tx_Bucket (Buckets tx) name with
           | Some _ => Some tx
           | None => None
           end).
Proof.
  intros Hw.
  assert (Hraw : forall n, TxRawBucket tx n
                           = (tx_Bucket (Buckets tx) n, tx)).
  { intros n. unfold TxRawBucket. rewrite Hw.
    destruct (tx_Bucket (Buckets tx) n); reflexivity. }
  split; [intros n; now rewrite Hraw|].
  split; [intros; unfold Read; now rewrite Hraw|].
  split; [intros; unfold HasKey; now rewrite Hraw|].
  split.
  { intros ids l. unfold ReadSlice. rewrite Hraw.
    destruct (tx_Bucket (Buckets tx) name); reflexivity. }
  split.
  - intros id item Hid. unfold Write. rewrite (nonzero_equal id Hid).
    rewrite Hraw, Hw.
    destruct (tx_Bucket (Buckets tx) name); reflexivity.
  - intros id. unfold TypedBucket.Delete. rewrite Hraw, Hw. reflexivity.
Qed.

End TypedBucketFacts.

(** ** Buckets made sure of *)

Lemma ensure_fold (names : list String.string) :
  forall tx : Tx,
    Writable tx = true ->
    let tx' := fold_left (fun tx name => snd (TxRawBucket tx name)) names tx in
    Writable tx' = true
    /\ forall n,
        tx_Bucket (Buckets tx') n
        = match tx_Bucket (Buckets tx) n with
          | Some b => Some b
          | None => if existsb (String.eqb n) names then Some [] else None
          end.
Proof.
  induction names as [|m names IH]; intros tx Hw; simpl.
  - split; [exact Hw|]. intros n. now destruct (tx_Bucket (Buckets tx) n).
  - assert (Hstep : Writable (snd (TxRawBucket tx m)) = true
                    /\ forall n,
                        tx_Bucket (Buckets (snd (TxRawBucket tx m))) n
                        = match tx_Bucket (Buckets tx) n with
                          | Some b => Some b
                          | None => if String.eqb n m then Some [] else None
                          end).
    { destruct (TxRawBucket_cases tx m)
        as [[b [Hb E]]|[[Hb [_ E]]|[_ [Hw' _]]]]; [| |congruence]; rewrite E.
      - simpl. split; [exact Hw|]. intros n.
        destruct (tx_Bucket (Buckets tx) n) eqn:En; [reflexivity|].
        destruct (String.eqb n m) eqn:Enm; [|reflexivity].
        apply String.eqb_eq in Enm. congruence.
      - simpl. split; [reflexivity|]. intros n.
        destruct (String.eqb n m) eqn:Enm.
        + apply String.eqb_eq in Enm. subst n.
          now rewrite tx_Bucket_set_same, Hb.
        + apply String.eqb_neq in Enm.
          rewrite tx_Bucket_set_other by exact Enm.
          now destruct (tx_Bucket (Buckets tx) n). }
    destruct Hstep as [Hw1 Hb1].
    destruct (IH _ Hw1) as [Hw2 Hb2]. split; [exact Hw2|].
    intros n. rewrite Hb2, Hb1.
    destruct (tx_Bucket (Buckets tx) n); [reflexivity|].
    destruct (String.eqb n m); simpl; [|reflexivity].
    now destruct (existsb (String.eqb n) names).
Qed.

(** X11.  [EnsureBuckets] panics in a read-only transaction.  In a
    writable one, when every listed name is a name the engine accepts,
    it returns a transaction in which every listed bucket and index has
    its bucket: the buckets that were there keep their contents, the
    listed ones that were missing are there and empty, and no other
    bucket appears. *)
Theorem EnsureBuckets_spec (tx : Tx) (dbInfo : Info) :
  (Writable tx = false -> EnsureBuckets tx dbInfo = None)
  /\ (Writable tx = true ->
      Forall named (BucketList dbInfo ++ IndexList dbInfo) ->
      exists tx',
        EnsureBuckets tx dbInfo = Some tx'
        /\ Writable tx' = true
        /\ forall n,
            tx_Bucket (Buckets tx') n
            = match tx_Bucket (Buckets tx) n with
              | Some b => Some b
              | None => if ensured dbInfo n then Some [] else None
              end).
Proof.
  unfold EnsureBuckets. split; intros Hw; rewrite Hw; [reflexivity|].
  intros _. eexists. split; [reflexivity|].
  destruct (ensure_fold (BucketList dbInfo) tx Hw) as [Hw1 Hb1].
  destruct (ensure_fold (IndexList dbInfo) _ Hw1) as [Hw2 Hb2].
  split; [exact Hw2|]. intros n. rewrite Hb2, Hb1.
  unfold ensured. rewrite existsb_app.
  destruct (tx_Bucket (Buckets tx) n); [reflexivity|].
  destruct (existsb (String.eqb n) (BucketList dbInfo)); reflexivity.
Qed.

(** ** Reading several keys, scanning and iterating *)

Section BucketScans.
Variables K T : Type.
Context {ZK : HasZero K} {CK : Comparable K} {ZT : HasZero T}.
Variable bucketInfo : BucketInfo K T.

Local Notation name := (BName bucketInfo).
Local Notation encK := (pack (KeyPackFn bucketInfo)).
Local Notation item_of_row := (item_of (ValuePackFn bucketInfo)).
Local Notation decoded := (key_item_of bucketInfo).

(** X12.  [ReadSlice] returns the number of items it has appended; the
    items already in the slice stay in front, each appended item was
    read under one of the keys, and there is at most one per key
    asked for. *)
Theorem ReadSlice_count (tx : Tx) (ids : list K) (l : list T) :
  let '(count, l', tx') := ReadSlice bucketInfo tx ids l in
  exists found,
    l' = l ++ found /\ count = Z.of_nat (length found)
    /\ length found <= length ids
    /\ Forall (fun item =>
                 exists id, In id ids
                   /\ fst (Read bucketInfo tx id zero) = (true, item))
         found.
Proof.
  unfold ReadSlice, Read.
  destruct (TxRawBucket tx name) as [[b|] tx'] eqn:E.
  - assert (H : forall ids0 count0 l0,
               let '(count, l') :=
                 fold_left
                   (fun '(count, list_) id =>
                      let (ok, item) := _Read bucketInfo (Some b) id zero in
                      if ok then ((count + 1)%Z, list_ ++ [item])
                      else (count, list_))
                   ids0 (count0, l0) in
               exists found,
                 l' = l0 ++ found
                 /\ count = (count0 + Z.of_nat (length found))%Z
                 /\ length found <= length ids0
                 /\ Forall (fun item =>
                              exists id, In id ids0
                                /\ _Read bucketInfo (Some b) id zero
                                   = (true, item)) found).
    { induction ids0 as [|id ids0 IH]; intros count0 l0;
        cbn [fold_left]; cbv beta iota.
      - exists []. rewrite app_nil_r. simpl. repeat split; auto. lia.
      - destruct (_Read bucketInfo (Some b) id zero) as [ok item] eqn:Er.
        destruct ok.
        + specialize (IH (count0 + 1)%Z (l0 ++ [item])). revert IH.
          match goal with
          | |- context [fold_left ?f ?x ?a] =>
              destruct (fold_left f x a) as [count l']
          end.
          cbv beta iota. intros [found [E1 [E2 [E3 E4]]]].
          exists (item :: found). rewrite E1, <- app_assoc.
          repeat split; auto; simpl; try lia.
          constructor.
          * exists id. split; [now left | exact Er].
          * eapply Forall_impl; [|exact E4].
            intros x [id' [Hin Hr]]. exists id'. split; [now right|exact Hr].
        + specialize (IH count0 l0). revert IH.
          match goal with
          | |- context [fold_left ?f ?x ?a] =>
              destruct (fold_left f x a) as [count l']
          end.
          cbv beta iota. intros [found [E1 [E2 [E3 E4]]]].
          exists found. repeat split; auto; [simpl; lia|].
          eapply Forall_impl; [|exact E4].
          intros x [id' [Hin Hr]]. exists id'. split; [now right|exact Hr]. }
    specialize (H ids 0%Z l). revert H.
    match goal with
    | |- context [fold_left ?f ?x ?a] =>
        destruct (fold_left f x a) as [count l']
    end.
    cbv beta iota. intros [found [E1 [E2 [E3 E4]]]].
    exists found. repeat split; auto.
  - exists []. rewrite app_nil_r. simpl. repeat split; auto. lia.
Qed.

Lemma fold_left_collect_map (A B : Type) (f : A -> B) (l : list A)
    (acc : list B) :
  fold_left (fun s x => s ++ [f x]) l acc = acc ++ map f l.
Proof.
  revert acc. induction l as [|x l IH]; intros acc; simpl.
  - now rewrite app_nil_r.
  - rewrite IH, <- app_assoc. reflexivity.
Qed.

Lemma take_prefixed_nil (l : list entry) : take_prefixed [] l = l.
Proof. induction l as [|e l IH]; simpl; [reflexivity|]. now rewrite IH. Qed.

Lemma drop_prefixed_nil (l : list entry) : drop_prefixed [] l = [].
Proof. induction l as [|e l IH]; simpl; [reflexivity|]. exact IH. Qed.

(** A run over the whole bucket with a visitor that collects what it
    decodes. *)
Lemma collect_all (A : Type) (f : entry -> A) (b : BBucket)
    (direction : IterationDirection) (acc : list A) :
  snd (_RawIterateCore (fun acc key value => (true, acc ++ [f (key, value)]))
         b (mkParams [] (mkWindow 0 0 [] direction)) acc)
  = acc ++ map f (run_list b (mkParams [] (mkWindow 0 0 [] direction))).
Proof.
  rewrite RawIterateCore_scan. unfold after_offset. simpl.
  rewrite scan_unlimited by (try lia; intros; reflexivity).
  simpl snd. rewrite take_prefixed_nil.
  rewrite <- fold_left_collect_map. apply fold_left_ext_eq.
  intros a [k v]. reflexivity.
Qed.

(** X13.  [IterateAll] hands the visitor every entry of the bucket, decoded,
    in ascending order of the keys, and [IterateAllReverse] hands it
    the same entries in the opposite order. *)
Theorem IterateAll_order (tx : Tx) (b : BBucket) :
  tx_Bucket (Buckets tx) name = Some b ->
  let collect := fun (acc : list (K * T)) (key : K) (item : T) =>
                   (true, acc ++ [(key, item)]) in
  TypedBucket.IterateAll bucketInfo tx collect [] = Some (map decoded b, tx)
  /\ TypedBucket.IterateAllReverse bucketInfo tx collect []
     = Some (rev (map decoded b), tx).
Proof.
  intros Hb collect.
  unfold TypedBucket.IterateAll, TypedBucket.IterateAllReverse.
  rewrite (TxRawBucket_found tx name b Hb).
  unfold TypedBucket._IterateAllCore. simpl option_map.
  split; f_equal; f_equal.
  - pose proof (collect_all _ decoded b IterateRegular []) as H.
    simpl app in H. unfold run_list in H. simpl in H.
    rewrite seek_list_nil_key in H. exact H.
  - pose proof (collect_all _ decoded b IterateReverse []) as H.
    simpl app in H. unfold run_list in H. simpl in H.
    rewrite map_rev in H. exact H.
Qed.

(** The engine on the window of [ScanList]: a page of the whole
    bucket from the start key on. *)
Lemma scan_page (A : Type) (f : entry -> A) (b : BBucket) (start : bytes)
    (count : Z) (acc : list A) :
  _RawIterateCore (fun acc key value => (true, acc ++ [f (key, value)]))
    b (mkParams [] (mkWindow count 0 start IterateRegular)) acc
  = (key_of_next (if (count >? 0)%Z
                  then skipn (Z.to_nat count) (seek_list start b) else []),
     acc ++ map f (limited count (seek_list start b))).
Proof.
  rewrite RawIterateCore_scan. unfold after_offset. simpl.
  assert (Hrun : run_list b (mkParams [] (mkWindow count 0 start IterateRegular))
                 = seek_list start b).
  { unfold run_list, page_start. simpl.
    destruct start; simpl; [|reflexivity].
    now rewrite seek_list_nil_key. }
  rewrite Hrun. set (l := seek_list start b). unfold limited.
  destruct (count >? 0)%Z eqn:Ec.
  - rewrite scan_limited by (try lia; intros; reflexivity).
    rewrite take_prefixed_nil, drop_prefixed_nil, Z.sub_0_r.
    f_equal.
    + destruct (Z.to_nat count <=? length l)%nat eqn:El; [reflexivity|].
      apply Nat.leb_gt in El. rewrite skipn_all2 by lia. reflexivity.
    + rewrite <- fold_left_collect_map. apply fold_left_ext_eq.
      intros a [k v]. reflexivity.
  - rewrite scan_unlimited by (try lia; intros; reflexivity).
    rewrite take_prefixed_nil, drop_prefixed_nil. f_equal.
    rewrite <- fold_left_collect_map. apply fold_left_ext_eq.
    intros a [k v]. reflexivity.
Qed.

Lemma ScanList_result (tx : Tx) (b : BBucket) (startKey : K) (count : Z)
    (items : list T) :
  tx_Bucket (Buckets tx) name = Some b ->
  let l := seek_list (encK startKey) b in
  let rest := if (count >? 0)%Z then skipn (Z.to_nat count) l else [] in
  TypedBucket.ScanList bucketInfo tx startKey count items
  = Some (match rest with
          | e :: _ => fst (decoded e)
          | [] => zero
          end,
          match rest with [] => true | _ :: _ => false end,
          items ++ map item_of_row (limited count l),
          tx).
Proof.
  intros Hb l rest. unfold TypedBucket.ScanList.
  rewrite (TxRawBucket_found tx name b Hb).
  pose proof (scan_page _ item_of_row b (encK startKey) count items) as H.
  unfold item_of in H. simpl snd in H. unfold ToBytes.
  rewrite H. fold l. fold rest.
  destruct rest as [|[k v] rest']; reflexivity.
Qed.

(** X14.  [ScanList] appends the items of the first [count] entries at or
    after the encoding of the start key, or of all of them when
    [count] is zero or less.  It reports [done] exactly when no entry
    follows the ones it has read, and otherwise returns the decoded
    key of the entry that follows. *)
Theorem ScanList_page (tx : Tx) (b : BBucket) (startKey : K) (count : Z)
    (items : list T) :
  tx_Bucket (Buckets tx) name = Some b ->
  let l := seek_list (encK startKey) b in
  let rest := if (count >? 0)%Z then skipn (Z.to_nat count) l else [] in
  TypedBucket.ScanList bucketInfo tx startKey count items
  = Some (match rest with
          | e :: _ => fst (decoded e)
          | [] => zero
          end,
          match rest with [] => true | _ :: _ => false end,
          items ++ map item_of_row (limited count l),
          tx).
Proof. apply ScanList_result. Qed.

Lemma chunks_concat (A : Type) (n : nat) :
  0 < n ->
  forall (rounds : nat) (l : list A),
    length l < rounds -> concat (chunks rounds n l) = l.
Proof.
  intros Hn. induction rounds as [|rounds IH]; intros l Hl; [lia|].
  simpl. destruct (length l <=? n)%nat eqn:E.
  - simpl. apply app_nil_r.
  - apply Nat.leb_gt in E. simpl. rewrite IH.
    + apply firstn_skipn.
    + rewrite length_skipn. lia.
Qed.

Section Batches.

Lemma batches_run (tx : Tx) (b : BBucket) (n : nat) :
  tx_Bucket (Buckets tx) name = Some b -> keys_ascending b -> 0 < n ->
  Forall (fun e => encK (fst (decoded e)) = fst e) b ->
  forall (rounds : nat) (key : K) (acc : list (list T)),
    length (seek_list (encK key) b) < rounds ->
    TypedBucket.batches_loop bucketInfo rounds tx (Z.of_nat n)
      (fun acc l => (true, acc ++ [l])) key acc
    = Returns
        (acc ++ chunks rounds n
                  (map item_of_row (seek_list (encK key) b)),
         tx).
Proof.
  intros Hb Hasc Hn Hback.
  induction rounds as [|rounds IH]; intros key acc Hlen; [lia|].
  cbn [TypedBucket.batches_loop].
  rewrite (ScanList_result tx b key (Z.of_nat n) [] Hb). cbv zeta.
  assert (Hc : (Z.of_nat n >? 0)%Z = true) by lia. rewrite Hc.
  rewrite Nat2Z.id. unfold limited. rewrite Hc, Nat2Z.id.
  cbn [negb app]. set (l := seek_list (encK key) b) in *.
  cbn [chunks]. rewrite length_map.
  destruct (skipn n l) as [|e rest'] eqn:Es.
  - assert (Hle : length l <= n).
    { apply (f_equal (@length entry)) in Es. rewrite length_skipn in Es.
      simpl in Es. lia. }
    assert (El : (length l <=? n)%nat = true) by now apply Nat.leb_le.
    rewrite El. rewrite firstn_all2 by exact Hle. reflexivity.
  - assert (Hgt : n < length l).
    { apply (f_equal (@length entry)) in Es. rewrite length_skipn in Es.
      simpl in Es. lia. }
    assert (El : (length l <=? n)%nat = false) by now apply Nat.leb_gt.
    rewrite El.
    assert (Hin : In e b).
    { destruct (seek_list_suffix (encK key) b) as [l0 [Eb _]].
      rewrite Eb. apply in_or_app. right. fold l.
      rewrite <- (firstn_skipn n l). apply in_or_app. right.
      rewrite Es. now left. }
    assert (Hseek : seek_list (encK (fst (decoded e))) b = e :: rest').
    { rewrite (proj1 (Forall_forall _ _) Hback e Hin).
      apply (seek_list_inside (encK key) b (firstn n l) rest' e Hasc).
      fold l. rewrite <- Es. symmetry. apply firstn_skipn. }
    rewrite IH.
    + rewrite Hseek, <- Es, <- app_assoc. cbn [app].
      rewrite firstn_map, skipn_map. reflexivity.
    + rewrite Hseek, <- Es, length_skipn. lia.
Qed.

(** X15.  [IterateInBatches] with a batch size above zero hands the
    visitor the items of the bucket in key order, cut into batches
    of that size (the last one may be shorter; an empty bucket
    gives one empty batch), when the stored keys are encodings that
    decode back to themselves and none lies below the encoding of
    the zero key, from which the first batch starts.  (The slice is
    reused from one batch to the next: a batch is what the slice
    holds at the time of the call.) *)
Theorem IterateInBatches_chunks (tx : Tx) (b : BBucket) (batchSize : Z)
    (rounds : nat) :
  tx_Bucket (Buckets tx) name = Some b -> keys_ascending b ->
  (0 < batchSize)%Z ->
  Forall (fun e => encK (fst (decoded e)) = fst e) b ->
  Forall (fun e => Compare (fst e) (encK zero) <> Lt) b ->
  length b < rounds ->
  let items := map item_of_row b in
  let batches := chunks rounds (Z.to_nat batchSize) items in
  TypedBucket.IterateInBatches bucketInfo rounds tx batchSize
    (fun acc l => (true, acc ++ [l])) []
  = Returns (batches, tx)
  /\ concat batches = items.
Proof.
  intros Hb Hasc Hn Hback Hzero Hlen items batches.
  assert (Hall : seek_list (encK zero) b = b).
  { clear - Hzero. induction Hzero as [|e b He Hz IH]; [reflexivity|].
    simpl. destruct (Compare (fst e) (encK zero)); congruence. }
  split.
  - unfold TypedBucket.IterateInBatches.
    assert (Hneg : (batchSize <? 0)%Z = false) by lia. rewrite Hneg.
    rewrite <- (Z2Nat.id batchSize) at 1 by lia.
    rewrite (batches_run tx b (Z.to_nat batchSize) Hb Hasc); try lia;
      try exact Hback.
    + rewrite Hall. reflexivity.
    + rewrite Hall. exact Hlen.
  - apply chunks_concat; [lia|]. unfold items. now rewrite length_map.
Qed.
End Batches.

(** X16.  The edges of [IterateInBatches]: a negative batch size panics
    (the slice cannot be made), and a batch size of zero hands the
    visitor one batch with every item from the encoding of the zero
    key on. *)
Theorem IterateInBatches_edges (tx : Tx) (b : BBucket) (rounds : nat)
    (St : Type) (visitFn : St -> list T -> bool * St) (s : St) :
  tx_Bucket (Buckets tx) name = Some b ->
  (forall batchSize, (batchSize < 0)%Z ->
     TypedBucket.IterateInBatches bucketInfo rounds tx batchSize visitFn s
     = Panics)
  /\ TypedBucket.IterateInBatches bucketInfo (S rounds) tx 0 visitFn s
     = Returns (snd (visitFn s (map item_of_row
                                  (seek_list (encK zero) b))), tx).
Proof.
  intros Hb. split.
  - intros batchSize Hneg. unfold TypedBucket.IterateInBatches.
    assert (E : (batchSize <? 0)%Z = true) by lia. now rewrite E.
  - unfold TypedBucket.IterateInBatches. simpl (0 <? 0)%Z. cbv iota.
    cbn [TypedBucket.batches_loop].
    rewrite (ScanList_result tx b zero 0 [] Hb). cbv zeta.
    simpl (0 >? 0)%Z. cbv iota. unfold limited. simpl (0 >? 0)%Z.
    cbv iota. cbn [app].
    destruct (visitFn s _) as [cont s']. simpl.
    destruct cont; reflexivity.
Qed.

(** X17.  [IterateBucketFrom] does not run from the start key to the end of
    the bucket: it takes the encoding of the start key as a prefix,
    and hands the visitor the entries whose key begins with it, and
    no other. *)
Theorem IterateBucketFrom_prefix (tx : Tx) (b : BBucket) (startKey : K) :
  tx_Bucket (Buckets tx) name = Some b -> keys_ascending b ->
  exists resume,
    TypedBucket.IterateBucketFrom bucketInfo tx startKey
      (fun (acc : list (K * T)) key item => (true, acc ++ [(key, item)])) []
    = Some (resume, map decoded (with_prefix (encK startKey) b), tx).
Proof.
  intros Hb Hasc. unfold TypedBucket.IterateBucketFrom.
  rewrite (TxRawBucket_found tx name b Hb). unfold ToBytes.
  set (w := mkParams (encK startKey) (mkWindow 0 0 [] 0%N)).
  pose proof (RawIterateCore_collect _
                (fun (acc : list (K * T)) key value =>
                   (true, acc ++ [decoded (key, value)]))
                b w [] (fun _ _ _ => eq_refl) eq_refl
                ltac:(simpl; lia)) as H.
  unfold key_item_of, item_of in H. simpl fst in H. simpl snd in H.
  rewrite H. eexists. f_equal. f_equal.
  assert (Hrows : page_rows b w = with_prefix (encK startKey) b).
  { unfold page_rows, page_start, w. simpl.
    now apply take_prefixed_seek. }
  rewrite Hrows.
  rewrite (fold_left_ext_eq _ _ _
             (fun s (x : entry) => s ++ [decoded x])).
  - now rewrite fold_left_collect_map.
  - intros a [k v]. reflexivity.
Qed.

End BucketScans.

(** ** The index: repeated calls, listings and windows *)

Lemma map_limited (A B : Type) (f : A -> B) (L : Z) (l : list A) :
  map f (limited L l) = limited L (map f l).
Proof.
  unfold limited. destruct (L >? 0)%Z; [|reflexivity].
  symmetry. apply firstn_map.
Qed.

Section IndexMore.
Variables K T P : Type.
Context {ZK : HasZero K} {ZT : HasZero T} {ZP : HasZero P}.
Context {CT : Comparable T} {CP : Comparable P}.
Variable range_order : GoMap T P -> GoMap T P.
Variable PackCountFn : PackFn Z.
Variable indexInfo : IndexInfo K T P.
Hypothesis Hok : index_ok range_order PackCountFn indexInfo.

Local Notation encK := (pack (TargetPackFn indexInfo)).
Local Notation encT := (pack (TermPackFn indexInfo)).
Local Notation encP := (pack (PriorityPackFn indexInfo)).
Local Notation fwd := (_TermTargetKey indexInfo).
Local Notation rev_key := (_TargetTermKey indexInfo).
Local Notation cnt := (_TermCountKey indexInfo).
Local Notation inv := (index_inv PackCountFn indexInfo).
Local Notation rows b t := (term_rows indexInfo b t).
Local Notation set_terms := (SetTargetTerms range_order PackCountFn indexInfo).
Local Notation target_of_row := (row_target_priority indexInfo).

Lemma map_all_None (m : GoMap T P) :
  (forall t, map_get m t = None) -> m = [].
Proof.
  destruct m as [|[t p] m]; [reflexivity|]. intros H.
  specialize (H t). simpl in H.
  destruct (term_cases _ _ _ _ _ _ Hok t t) as [[_ E]|[Hne _]];
    [rewrite E in H; discriminate | congruence].
Qed.

Lemma range_order_nil : range_order [] = [].
Proof.
  apply Permutation_nil. apply Permutation_sym. apply (ok_range Hok).
Qed.

Lemma encP_option_inj (x y : option P) :
  option_map encP x = option_map encP y -> x = y.
Proof.
  destruct x as [p|], y as [q|]; simpl; intros H; try congruence.
  injection H as H. f_equal. eapply pack_inj; [apply (ok_priority Hok)|].
  exact H.
Qed.

(** Nothing is written when the target is already paired with
    exactly the requested terms. *)
Lemma SetTargetTerms_unchanged (b : BBucket) (target : K)
    (terms : GoMap T P) :
  inv b -> is_map terms ->
  (forall t, Get b (rev_key target t) = option_map encP (map_get terms t)) ->
  set_terms b target terms = b.
Proof.
  intros Hinv Hterms Hsame. unfold SetTargetTerms.
  destruct (existing_spec _ _ _ _ _ _ Hok b target Hinv) as [Hex_nd Hex].
  set (existing := IterateTarget indexInfo b target _ _) in *.
  assert (Heq : forall t, map_get existing t = map_get terms t).
  { intros t. apply encP_option_inj. now rewrite <- Hex, Hsame. }
  destruct (del_map_spec _ _ _ _ _ _ Hok existing terms Hex_nd)
    as [_ Hdel].
  set (del := fold_left _ (range_order existing) _) in *.
  destruct (add_map_spec _ _ _ _ _ _ Hok existing terms Hterms)
    as [_ Hadd].
  set (add := fold_left _ (range_order terms) _) in *.
  assert (Ed : del = []).
  { apply map_all_None. intros t. rewrite Hdel, Heq.
    destruct (map_get terms t) as [p|]; [|reflexivity].
    destruct (priority_cases _ _ _ _ _ _ Hok p p) as [[_ E]|[Hne _]];
      [now rewrite E | congruence]. }
  assert (Ea : add = []).
  { apply map_all_None. intros t. rewrite Hadd, Heq.
    destruct (map_get terms t) as [p|]; [|reflexivity].
    destruct (priority_cases _ _ _ _ _ _ Hok p p) as [[_ E]|[Hne _]];
      [now rewrite E | congruence]. }
  rewrite Ed, Ea, range_order_nil. reflexivity.
Qed.

(** X18.  [SetTargetTerms] is idempotent: a second call with the same
    target and the same terms finds nothing to delete or to add, and
    leaves the bucket, counts included, as the first call left it. *)
Theorem SetTargetTerms_idempotent (b : BBucket) (target : K)
    (terms : GoMap T P) :
  inv b -> is_map terms ->
  set_terms (set_terms b target terms) target terms
  = set_terms b target terms.
Proof.
  intros Hinv Hterms.
  destruct (SetTargetTerms_spec _ _ _ _ _ _ Hok b target terms Hinv Hterms)
    as [Hinv' [Hget _]].
  apply SetTargetTerms_unchanged; assumption.
Qed.

(** *** Listings *)

Lemma forward_pair_iff (b : BBucket) (k : K) (t : T) (p : P) :
  inv b ->
  (In (k, p) (term_pairs indexInfo b t)
   <-> Get b (fwd k t p) = Some []).
Proof.
  intros Hinv. pose proof (inv_ascending Hinv) as Hasc.
  rewrite term_pairs_rows by exact Hasc. split.
  - intros Hin. apply in_map_iff in Hin. destruct Hin as [e [He Hin]].
    destruct (term_row_shape _ _ _ _ _ _ Hok b t e Hinv Hin)
      as [k' [p' ->]].
    rewrite (row_target_priority_fwd _ _ _ _ _ _ Hok) in He.
    injection He as -> ->.
    now apply (term_row_In _ _ _ _ _ _ Hok b k t p [] Hasc).
  - intros Hget.
    apply (term_row_In _ _ _ _ _ _ Hok b k t p [] Hasc) in Hget.
    apply in_map_iff. exists (fwd k t p, []).
    split; [apply (row_target_priority_fwd _ _ _ _ _ _ Hok) | exact Hget].
Qed.

Lemma reverse_pair_iff (b : BBucket) (k : K) (t : T) (p : P) :
  inv b ->
  (In (t, p) (target_pairs indexInfo b k)
   <-> Get b (rev_key k t) = Some (encP p)).
Proof.
  intros Hinv. rewrite target_pairs_rows by apply (inv_ascending Hinv).
  apply (target_pairs_spec _ _ _ _ _ _ Hok b k Hinv).
Qed.

Lemma pair_both_ways (b : BBucket) (k : K) (t : T) (p : P) :
  inv b ->
  (In (k, p) (term_pairs indexInfo b t)
   <-> In (t, p) (target_pairs indexInfo b k)).
Proof.
  intros Hinv. rewrite forward_pair_iff, reverse_pair_iff by exact Hinv.
  rewrite <- (inv_pair Hinv). split.
  - intros H. congruence.
  - intros H. destruct (Get b (fwd k t p)) as [v|] eqn:G; [|congruence].
    f_equal. eapply forward_value; eassumption.
Qed.

(** The rows that [IterateAllTerms] runs over. *)
Lemma all_rows_forward (b : BBucket) (e : entry) :
  inv b -> In e (with_prefix [IndexTermPrefix] b) ->
  exists k t p, e = (fwd k t p, []).
Proof.
  intros Hinv Hin. unfold with_prefix in Hin. apply filter_In in Hin.
  destruct Hin as [Hin Hp]. destruct e as [key v].
  apply (Get_In b key v (inv_ascending Hinv)) in Hin.
  pose proof (inv_rows Hinv) as Hrows.
  destruct (Hrows _ _ Hin) as [[t [p [k [-> ->]]]]|[[k [t [p [-> _]]]]|
                               [t [c [-> _]]]]].
  - now exists k, t, p.
  - discriminate.
  - discriminate.
Qed.

(** X19.  [IterateAllTerms] hands the visitor every pairing of the index
    once, as its term, target and priority: the triples it delivers
    are exactly those that [IterateTerm] delivers for the term and
    that [IterateTarget] delivers for the target. *)
Theorem IterateAllTerms_lists (b : BBucket) :
  inv b ->
  let all := IterateAllTerms indexInfo b
               (fun acc term target priority =>
                  (true, acc ++ [(term, target, priority)])) [] in
  NoDup all
  /\ forall t k p,
      (In (t, k, p) all <-> In (k, p) (term_pairs indexInfo b t))
      /\ (In (t, k, p) all <-> In (t, p) (target_pairs indexInfo b k)).
Proof.
  intros Hinv all. pose proof (inv_ascending Hinv) as Hasc.
  assert (E : all = map (fun e => _ReadTermTargetPriority indexInfo (fst e))
                      (with_prefix [IndexTermPrefix] b)).
  { unfold all, IterateAllTerms.
    rewrite RawIterateCore_visited
      by (intros s k v; destruct (_ReadTermTargetPriority indexInfo k)
            as [[? ?] ?]; reflexivity).
    rewrite visited_regular by exact Hasc. unfold limited. simpl.
    rewrite (fold_left_ext_eq _ _ _
               (fun s (e : entry) =>
                  s ++ [_ReadTermTargetPriority indexInfo (fst e)])).
    - now rewrite fold_left_snoc.
    - intros a [key v]. simpl.
      destruct (_ReadTermTargetPriority indexInfo key) as [[? ?] ?].
      reflexivity. }
  assert (Hmem : forall t k p,
             In (t, k, p) all <-> Get b (fwd k t p) = Some []).
  { intros t k p. rewrite E. split.
    - intros Hin. apply in_map_iff in Hin. destruct Hin as [e [He Hin]].
      destruct (all_rows_forward b e Hinv Hin) as [k' [t' [p' ->]]].
      simpl in He.
      rewrite (ReadTermTargetPriority_key _ _ _ _ _ _ Hok) in He.
      injection He as -> -> ->.
      unfold with_prefix in Hin. apply filter_In in Hin.
      now apply (Get_In b _ _ Hasc).
    - intros Hget. apply in_map_iff. exists (fwd k t p, []). split.
      + apply (ReadTermTargetPriority_key _ _ _ _ _ _ Hok).
      + unfold with_prefix. apply filter_In. split.
        * now apply (Get_In b _ _ Hasc).
        * reflexivity. }
  split.
  - rewrite E.
    assert (Hnd : NoDup (with_prefix [IndexTermPrefix] b)).
    { apply (NoDup_map_inv fst). apply keys_ascending_NoDup.
      apply keys_ascending_filter. exact Hasc. }
    revert Hnd.
    assert (Hsh : forall e, In e (with_prefix [IndexTermPrefix] b) ->
                    exists k t p, e = (fwd k t p, []))
      by (intros e; now apply all_rows_forward).
    revert Hsh. generalize (with_prefix [IndexTermPrefix] b) as l.
    induction l as [|e l IH]; intros Hsh Hnd; simpl; [constructor|].
    inversion Hnd as [|? ? Hni Hnd']; subst. constructor.
    + intros Hin. apply Hni. apply in_map_iff in Hin.
      destruct Hin as [e' [He' Hin']].
      destruct (Hsh e (or_introl eq_refl)) as [k [t [p ->]]].
      destruct (Hsh e' (or_intror Hin')) as [k' [t' [p' ->]]].
      simpl in He'.
      rewrite !(ReadTermTargetPriority_key _ _ _ _ _ _ Hok) in He'.
      injection He' as -> -> ->. exact Hin'.
    + apply IH; [|exact Hnd'].
      intros e' He'. apply Hsh. now right.
  - intros t k p. split.
    + rewrite Hmem. symmetry. now apply forward_pair_iff.
    + rewrite Hmem, <- pair_both_ways by exact Hinv.
      symmetry. now apply forward_pair_iff.
Qed.

(** X20.  [ReadTermTargetSingle] answers false and leaves the caller's
    target alone when the term has no target; otherwise it answers
    true with the first target in the order of [IterateTerm]. *)
Theorem ReadTermTargetSingle_first (b : BBucket) (t : T) (k0 : K) :
  keys_ascending b ->
  ReadTermTargetSingle indexInfo b t k0
  = match term_pairs indexInfo b t with
    | [] => (false, k0)
    | (k, _) :: _ => (true, k)
    end.
Proof.
  intros Hasc. unfold ReadTermTargetSingle.
  rewrite ReadTermTargets_rows by (simpl; reflexivity || lia).
  rewrite term_pairs_rows by exact Hasc.
  unfold page_rows, page_start. simpl.
  rewrite take_prefixed_seek by exact Hasc.
  fold (term_rows indexInfo b t).
  destruct (rows b t) as [|e l]; simpl; [reflexivity|].
  destruct (target_of_row e) as [k p]. reflexivity.
Qed.

(** *** Windows *)

Lemma ReadTermTargets_visited (b : BBucket) (t : T) (targets : list K)
    (window : Window) :
  snd (ReadTermTargets indexInfo b t targets window)
  = targets
    ++ map (fun e => fst (target_of_row e))
         (visited b (mkParams (_TermKeyPrefix indexInfo t) window)).
Proof.
  unfold ReadTermTargets, _IterateTermCore.
  rewrite RawIterateCore_visited
    by (intros s k v; destruct (_ReadTermTargetPriority indexInfo k)
          as [[? ?] ?]; reflexivity).
  rewrite (fold_left_ext_eq _ _ _
             (fun s (e : entry) => s ++ [fst (target_of_row e)])).
  - now rewrite fold_left_snoc.
  - intros a [key v]. unfold row_target_priority. simpl.
    destruct (_ReadTermTargetPriority indexInfo key) as [[? ?] ?].
    reflexivity.
Qed.

(** X21.  [ReadTermTargets] with an offset and a limit (and no cursor), in
    the regular direction: of the targets of the term, in the order of
    [IterateTerm], it skips the first [Offset] and appends the next
    [Limit], or all the others when the limit is zero. *)
Theorem ReadTermTargets_offset_limit (b : BBucket) (t : T)
    (targets : list K) (L k : Z) :
  keys_ascending b ->
  snd (ReadTermTargets indexInfo b t targets
         (mkWindow L k [] IterateRegular))
  = targets
    ++ limited L (skipn (Z.to_nat k)
                    (map fst (term_pairs indexInfo b t))).
Proof.
  intros Hasc. rewrite ReadTermTargets_visited.
  rewrite visited_regular by exact Hasc.
  rewrite term_pairs_rows by exact Hasc. unfold term_rows.
  rewrite map_map, map_limited, skipn_map. reflexivity.
Qed.

(** X22.  In the reverse direction the same window runs over the targets of
    the term in the opposite order, for a term whose encoding does
    not end in the byte 0xff. *)
Theorem ReadTermTargets_reverse (b : BBucket) (t : T)
    (targets : list K) (L k : Z) :
  keys_ascending b ->
  (exists q c, encT t = q ++ [c] /\ c <> xff) ->
  snd (ReadTermTargets indexInfo b t targets
         (mkWindow L k [] IterateReverse))
  = targets
    ++ limited L (skipn (Z.to_nat k)
                    (rev (map fst (term_pairs indexInfo b t)))).
Proof.
  intros Hasc [q [c [Eq Hc]]]. rewrite ReadTermTargets_visited.
  rewrite visited_reverse; [|exact Hasc|].
  - rewrite term_pairs_rows by exact Hasc. unfold term_rows.
    rewrite map_map, map_limited, <- map_rev, skipn_map. reflexivity.
  - right. exists (IndexTermPrefix :: q), c. split; [|exact Hc].
    unfold _TermKeyPrefix. now rewrite Eq.
Qed.

(** *** The flag of [ReadTermCount] *)

Lemma count_row_value (b : BBucket) (t : T) (v : bytes) :
  inv b -> Get b (cnt t) = Some v ->
  exists c, v = pack PackCountFn c /\ (int_min <= c <= int_max)%Z.
Proof.
  intros Hinv Hget. pose proof (inv_rows Hinv) as Hrows.
  destruct (Hrows _ _ Hget) as [[t' [p [k [E _]]]]|[[k [t' [p [E _]]]]|
                                [t' [c [_ [-> Hc]]]]]].
  - discriminate.
  - discriminate.
  - now exists c.
Qed.

Lemma ReadTermCount_cases (b : BBucket) (t : T) (c0 : Z) :
  inv b ->
  (Get b (cnt t) = None /\ ReadTermCount PackCountFn indexInfo b t c0
                           = (false, c0))
  \/ (exists c, Get b (cnt t) = Some (pack PackCountFn c)
                /\ ReadTermCount PackCountFn indexInfo b t c0 = (true, c)).
Proof.
  intros Hinv. unfold ReadTermCount, FromBytesInto.
  destruct (Get b (cnt t)) as [v|] eqn:G.
  - right. destruct (count_row_value b t v Hinv G) as [c [-> Hc]].
    exists c. split; [reflexivity|]. simpl.
    destruct (ok_count Hok Hc) as [rest ->]. reflexivity.
  - left. split; [reflexivity|]. simpl. now rewrite (ok_count_nil Hok).
Qed.

(** X23.  [ReadTermCount] answers false only for a term that has no target,
    and then leaves the caller's count as it was.  Once it answers
    true for a term it does so after every later [SetTargetTerms]:
    the count row of a term is never removed, it goes down to zero. *)
Theorem ReadTermCount_flag (b : BBucket) (t : T) (c0 : Z) :
  inv b ->
  (fst (ReadTermCount PackCountFn indexInfo b t c0) = false ->
   ReadTermCount PackCountFn indexInfo b t c0 = (false, c0)
   /\ term_pairs indexInfo b t = [])
  /\ (forall target terms,
         is_map terms ->
         fst (ReadTermCount PackCountFn indexInfo b t c0) = true ->
         fst (ReadTermCount PackCountFn indexInfo
                (set_terms b target terms) t c0) = true).
Proof.
  intros Hinv. split.
  - intros Hf.
    destruct (ReadTermCount_cases b t c0 Hinv) as [[G E]|[c [G E]]];
      [|rewrite E in Hf; discriminate].
    split; [exact E|].
    rewrite term_pairs_rows by apply (inv_ascending Hinv).
    destruct (rows b t) as [|e l] eqn:Er; [reflexivity|].
    exfalso. apply (inv_count_row Hinv t); [|exact G].
    rewrite Er. discriminate.
  - intros target terms Hterms Ht.
    destruct (ReadTermCount_cases b t c0 Hinv) as [[G E]|[c [G E]]];
      [rewrite E in Ht; discriminate|].
    destruct (SetTargetTerms_spec _ _ _ _ _ _ Hok b target terms Hinv Hterms)
      as [Hinv' _].
    destruct (ReadTermCount_cases (set_terms b target terms) t c0 Hinv')
      as [[G' E']|[c' [G' E']]]; [|now rewrite E'].
    exfalso.
    rewrite (SetTargetTerms_cnt _ _ _ _ _ _ Hok b target terms t Hinv Hterms)
      in G'.
    unfold count_row_after, bump in G'. rewrite G in G'.
    destruct (differs (existing_terms indexInfo b target) terms t);
      destruct (differs terms (existing_terms indexInfo b target) t);
      discriminate.
Qed.

(** *** The calls built on [SetTargetTerms] *)

Lemma target_pairs_after (b : BBucket) (target : K) (terms : GoMap T P) :
  inv b -> is_map terms ->
  NoDup (target_pairs indexInfo (set_terms b target terms) target)
  /\ forall t p,
      In (t, p) (target_pairs indexInfo (set_terms b target terms) target)
      <-> map_get terms t = Some p.
Proof.
  intros Hinv Hterms.
  destruct (SetTargetTerms_spec _ _ _ _ _ _ Hok b target terms Hinv Hterms)
    as [Hinv' [Hget _]].
  split.
  - rewrite target_pairs_rows by apply (inv_ascending Hinv').
    apply (NoDup_map_inv fst).
    apply (target_pairs_spec _ _ _ _ _ _ Hok _ target Hinv').
  - intros t p. rewrite reverse_pair_iff by exact Hinv'. rewrite Hget.
    split.
    + intros H. apply encP_option_inj. exact H.
    + intros ->. reflexivity.
Qed.

Lemma UniformTerms_fold (p : P) (t : T) :
  forall (terms : list T) (acc : GoMap T P),
    map_get (fold_left (fun out t => map_set out t p) terms acc) t
    = if existsb (equal t) terms then Some p else map_get acc t.
Proof.
  induction terms as [|x terms IH]; intros acc; simpl; [reflexivity|].
  rewrite IH.
  destruct (existsb (equal t) terms); [now rewrite orb_true_r|].
  rewrite orb_false_r.
  destruct (term_cases _ _ _ _ _ _ Hok t x) as [[-> E]|[Hne E]]; rewrite E.
  - apply map_get_set_same. apply (ok_term_eq Hok).
  - apply map_get_set_other; [apply (ok_term_eq Hok) | exact Hne].
Qed.

Lemma UniformTerms_get (terms : list T) (p p' : P) (t : T) :
  map_get (UniformTerms terms p) t = Some p' <-> In t terms /\ p' = p.
Proof.
  unfold UniformTerms. rewrite UniformTerms_fold. simpl.
  destruct (existsb (equal t) terms) eqn:E.
  - apply existsb_exists in E. destruct E as [x [Hin Hx]].
    apply (ok_term_eq Hok) in Hx. subst x.
    split; [intros H; injection H as <-; auto | intros [_ ->]; reflexivity].
  - split; [discriminate|]. intros [Hin _]. exfalso.
    assert (Ht : existsb (equal t) terms = true).
    { apply existsb_exists. exists t. split; [exact Hin|].
      now apply (ok_term_eq Hok). }
    congruence.
Qed.

Lemma only_member (A : Type) (a : A) (l : list A) :
  NoDup l -> (forall x, In x l <-> x = a) -> l = [a].
Proof.
  intros Hnd H. destruct l as [|x l].
  - exfalso. apply (proj2 (H a) eq_refl).
  - assert (x = a) as -> by (apply H; now left).
    destruct l as [|y l]; [reflexivity|]. exfalso.
    assert (y = a) as -> by (apply H; right; now left).
    inversion Hnd; subst. apply H2. now left.
Qed.

(** X24.  The calls built on [SetTargetTerms] leave the target paired as
    their names say: [SetTargetTermsUniform] with exactly the listed
    terms, each once, at the given priority; [SetTargetTermsPlain]
    with the listed terms at the zero priority; the single-term calls
    with the one term alone; [DeleteTargetTerms] with no term. *)
Theorem SetTargetTerms_wrappers (b : BBucket) (target : K) :
  inv b ->
  (forall terms p t p',
      In (t, p') (target_pairs indexInfo
                    (SetTargetTermsUniform range_order PackCountFn indexInfo
                       b target terms p) target)
      <-> In t terms /\ p' = p)
  /\ (forall terms t p',
         In (t, p') (target_pairs indexInfo
                       (SetTargetTermsPlain range_order PackCountFn indexInfo
                          b target terms) target)
         <-> In t terms /\ p' = zero)
  /\ (forall t,
         target_pairs indexInfo
           (SetTargetSingleTerm range_order PackCountFn indexInfo
              b target t) target
         = [(t, zero)])
  /\ (forall p t,
         target_pairs indexInfo
           (SetTargetSingleTermExt range_order PackCountFn indexInfo
              b target p t) target
         = [(t, p)])
  /\ target_pairs indexInfo
       (DeleteTargetTerms range_order PackCountFn indexInfo b target) target
     = [].
Proof.
  intros Hinv.
  assert (Hu : forall (terms : list T) (p : P),
             is_map (UniformTerms terms p))
    by (intros; apply (Uniform_is_map _ _ _ _ _ _ Hok)).
  assert (Hone : forall t p,
             target_pairs indexInfo
               (set_terms b target (UniformTerms [t] p)) target
             = [(t, p)]).
  { intros t p.
    destruct (target_pairs_after b target (UniformTerms [t] p) Hinv (Hu _ _))
      as [Hnd Hmem].
    apply only_member; [exact Hnd|]. intros [t' p']. rewrite Hmem.
    rewrite UniformTerms_get. simpl. split.
    - intros [[<-|[]] ->]. reflexivity.
    - intros H. injection H as -> ->. auto. }
  split; [|split; [|split; [|split]]].
  - intros terms p t p'. unfold SetTargetTermsUniform.
    rewrite (proj2 (target_pairs_after b target _ Hinv (Hu terms p))).
    apply UniformTerms_get.
  - intros terms t p'. unfold SetTargetTermsPlain, _PlainTerms.
    rewrite (proj2 (target_pairs_after b target _ Hinv (Hu terms zero))).
    apply UniformTerms_get.
  - intros t. apply Hone.
  - intros p t. apply Hone.
  - unfold DeleteTargetTerms.
    destruct (target_pairs_after b target [] Hinv (NoDup_nil _))
      as [_ Hmem].
    destruct (target_pairs indexInfo (set_terms b target []) target)
      as [|[t p] l]; [reflexivity|].
    exfalso. specialize (Hmem t p). simpl in Hmem.
    destruct Hmem as [Hmem _]. discriminate Hmem. now left.
Qed.

End IndexMore.

(** X25.  The order in which Go ranges over the maps of [SetTargetTerms] has
    no effect on the outcome: whatever two orders are taken, the calls
    leave the same bucket, byte for byte, in every state the index can
    reach, and the index can reach the same states. *)
Theorem SetTargetTerms_any_order (K T P : Type)
    {ZK : HasZero K} {ZT : HasZero T} {ZP : HasZero P}
    {CT : Comparable T} {CP : Comparable P}
    (order1 order2 : GoMap T P -> GoMap T P) (PackCountFn : PackFn Z)
    (indexInfo : IndexInfo K T P) (b : BBucket) (target : K)
    (terms : GoMap T P) :
  index_ok order1 PackCountFn indexInfo ->
  index_ok order2 PackCountFn indexInfo ->
  reachable order1 PackCountFn indexInfo b -> is_map terms ->
  SetTargetTerms order1 PackCountFn indexInfo b target terms
  = SetTargetTerms order2 PackCountFn indexInfo b target terms
  /\ reachable order2 PackCountFn indexInfo b.
Proof.
  intros Hok1 Hok2 Hr Hterms. split.
  - apply SetTargetTerms_order_irrelevant; try assumption.
    exact (reachable_inv _ _ _ _ _ _ Hok1 b Hr).
  - exact (reachable_order_irrelevant _ _ _ _ _ _ _ Hok1 Hok2 b Hr).
Qed.

(** ** Collections *)

Lemma Get_Put (b : BBucket) (k v k' : bytes) :
  Get (Put b k v) k' = if bytes_eq_dec k' k then Some v else Get b k'.
Proof.
  destruct (bytes_eq_dec k' k) as [->|Hne].
  - apply Get_Put_same.
  - now apply Get_Put_other.
Qed.

Lemma Get_Delete (b : BBucket) (k k' : bytes) :
  keys_ascending b ->
  Get (Bolt.Delete b k) k' = if bytes_eq_dec k' k then None else Get b k'.
Proof.
  intros Hasc. destruct (bytes_eq_dec k' k) as [->|Hne].
  - now apply Get_Delete_same.
  - now apply Get_Delete_other.
Qed.

Section CollectionProofs.
Variables K O I : Type.
Context {ZK : HasZero K} {ZO : HasZero O} {ZI : HasZero I}.
Variable PackIntFn : PackFn Z.
Variable info : CollectionInfo K O I.
Hypothesis Hok : collection_ok info.

Local Notation encK := (pack (KeyFn info)).
Local Notation encO := (pack (OrderFn info)).
Local Notation encI := (pack (ItemFn info)).
Local Notation full := (_CKeyFull info).
Local Notation member := (member_key info).
Local Notation ccnt := (_CCountKey info).
Local Notation inv := (collection_inv info).
Local Notation add := (CollectionAddEntry PackIntFn info).
Local Notation remove := (CollectionRemoveEntry PackIntFn info).
Local Notation entries := (collection_entries info).

(** *** Keys *)

Lemma full_inj (k k' : K) (o o' : O) (i i' : I) :
  full k o i = full k' o' i' -> k = k' /\ o = o' /\ i = i'.
Proof.
  unfold _CKeyFull. intros H. injection H as H.
  apply (pack_app_inj _ _ _ _ _ _ (cok_key Hok)) in H. destruct H as [-> H].
  apply (pack_app_inj _ _ _ _ _ _ (cok_order Hok)) in H. destruct H as [-> H].
  apply (pack_inj _ _ _ _ (cok_item Hok)) in H. now subst.
Qed.

Lemma member_inj (k k' : K) (i i' : I) :
  member k i = member k' i' -> k = k' /\ i = i'.
Proof.
  unfold member_key, _CRevKeyValue. simpl. intros H. injection H as H.
  apply (pack_app_inj _ _ _ _ _ _ (cok_item Hok)) in H. destruct H as [-> H].
  apply (pack_inj _ _ _ _ (cok_key Hok)) in H. now subst.
Qed.

Lemma ccnt_inj (k k' : K) : ccnt k = ccnt k' -> k = k'.
Proof.
  unfold _CCountKey. intros H. injection H as H.
  now apply (pack_inj _ _ _ _ (cok_key Hok)) in H.
Qed.

Lemma full_not_member (k k' : K) (o : O) (i i' : I) :
  full k o i <> member k' i'.
Proof. discriminate. Qed.

Lemma full_not_ccnt (k k' : K) (o : O) (i : I) : full k o i <> ccnt k'.
Proof. discriminate. Qed.

Lemma member_not_ccnt (k k' : K) (i : I) : member k i <> ccnt k'.
Proof. discriminate. Qed.

Lemma member_nonempty (k : K) (i : I) : member k i <> [].
Proof. discriminate. Qed.

Lemma key_dec (k k' : K) : {k = k'} + {k <> k'}.
Proof.
  destruct (bytes_eq_dec (encK k) (encK k')) as [E|E].
  - left. now apply (pack_inj _ _ _ _ (cok_key Hok)).
  - right. congruence.
Qed.

Lemma item_dec (i i' : I) : {i = i'} + {i <> i'}.
Proof.
  destruct (bytes_eq_dec (encI i) (encI i')) as [E|E].
  - left. now apply (pack_inj _ _ _ _ (cok_item Hok)).
  - right. congruence.
Qed.

Lemma order_dec (o o' : O) : {o = o'} + {o <> o'}.
Proof.
  destruct (bytes_eq_dec (encO o) (encO o')) as [E|E].
  - left. now apply (pack_inj _ _ _ _ (cok_order Hok)).
  - right. congruence.
Qed.

Lemma read_sd (X : Type) (fn : PackFn X) (x x0 : X) (rest : bytes) :
  self_delimiting fn -> read fn x0 (Some (pack fn x ++ rest)) = (x, Some rest).
Proof. intros H. unfold read. now rewrite H. Qed.

Lemma ReadKeyOrderItem_full (k : K) (o : O) (i : I) :
  _ReadKeyOrderItem info (full k o i) = (k, o, i).
Proof.
  unfold _ReadKeyOrderItem, _CKeyFull, NewReader, skip_byte.
  rewrite (read_sd _ _ _ _ _ (cok_key Hok)).
  rewrite (read_sd _ _ _ _ _ (cok_order Hok)).
  rewrite <- (app_nil_r (encI i)).
  rewrite (read_sd _ _ _ _ _ (cok_item Hok)). reflexivity.
Qed.

Lemma read_order (o o0 : O) :
  FromBytesInto (encO o) o0 (OrderFn info) = (true, o).
Proof.
  unfold FromBytesInto. rewrite <- (app_nil_r (encO o)).
  now rewrite (cok_order Hok).
Qed.

(** *** Looking a row up with [Seek] *)

Lemma seek_entry_list (b : BBucket) (key : bytes) :
  seek_entry b key
  = match hd_error (seek_list key b) with
    | Some e => e
    | None => ([], [])
    end.
Proof.
  unfold seek_entry, Seek, Cursor_of, entries. simpl.
  now rewrite seek_from_ahead.
Qed.

Lemma seek_entry_get (b : BBucket) (key : bytes) :
  key <> [] ->
  (Equal key (fst (seek_entry b key)) = true
   /\ Get b key = Some (snd (seek_entry b key)))
  \/ (Equal key (fst (seek_entry b key)) = false /\ Get b key = None).
Proof.
  intros Hne. rewrite seek_entry_list.
  induction b as [|[k v] b IH]; simpl.
  - right. split; [|reflexivity]. destruct key; [congruence|reflexivity].
  - rewrite (Compare_antisym key k).
    destruct (Compare key k) eqn:E; simpl.
    + left. unfold Equal. rewrite E. auto.
    + right. unfold Equal. rewrite E. auto.
    + exact IH.
Qed.

Lemma member_value (b : BBucket) (k : K) (i : I) (v : bytes) :
  inv b -> Get b (member k i) = Some v -> exists o, v = encO o.
Proof.
  intros Hinv Hget. pose proof (cinv_rows Hinv) as Hrows.
  destruct (Hrows _ _ Hget) as [[k' [o [i' [E _]]]]|[[k' [o [i' [_ ->]]]]|
                                [k' E]]].
  - discriminate.
  - now exists o.
  - discriminate.
Qed.

Lemma entry_value (b : BBucket) (k : K) (o : O) (i : I) (v : bytes) :
  inv b -> Get b (full k o i) = Some v -> v = [].
Proof.
  intros Hinv Hget. pose proof (cinv_rows Hinv) as Hrows.
  destruct (Hrows _ _ Hget) as [[k' [o' [i' [_ ->]]]]|[[k' [o' [i' [E _]]]]|
                                [k' E]]].
  - reflexivity.
  - discriminate.
  - discriminate.
Qed.

(** *** The three ways through [CollectionAddEntry] and the two
    through [CollectionRemoveEntry] *)

Lemma add_same (b : BBucket) (k : K) (o : O) (i : I) :
  Get b (member k i) = Some (encO o) -> add b k o i = b.
Proof.
  intros Hget. unfold CollectionAddEntry, _CRevKeyValue.
  change (CItemPrefix :: encI i ++ encK k) with (member k i).
  destruct (seek_entry_get b (member k i) (member_nonempty k i))
    as [[E G]|[E G]]; [|congruence].
  destruct (seek_entry b (member k i)) as [eKey eValue]. simpl in *.
  rewrite E. rewrite Hget in G. injection G as <-.
  unfold ToBytes. now rewrite (proj2 (Equal_eq _ _) eq_refl).
Qed.

Lemma add_move (b : BBucket) (k : K) (o o0 : O) (i : I) :
  Get b (member k i) = Some (encO o0) -> o0 <> o ->
  add b k o i
  = Put (Put (Bolt.Delete b (full k o0 i)) (full k o i) [])
      (member k i) (encO o).
Proof.
  intros Hget Hne. unfold CollectionAddEntry, _CRevKeyValue.
  change (CItemPrefix :: encI i ++ encK k) with (member k i).
  destruct (seek_entry_get b (member k i) (member_nonempty k i))
    as [[E G]|[E G]]; [|congruence].
  destruct (seek_entry b (member k i)) as [eKey eValue]. simpl in *.
  rewrite E. rewrite Hget in G. injection G as <-.
  unfold ToBytes. rewrite Equal_neq.
  - now rewrite read_order.
  - intros H. apply (pack_inj _ _ _ _ (cok_order Hok)) in H. congruence.
Qed.

Lemma add_new (b : BBucket) (k : K) (o : O) (i : I) :
  Get b (member k i) = None ->
  add b k o i
  = _IncCount PackIntFn info
      (Put (Put b (full k o i) []) (member k i) (encO o)) k 1.
Proof.
  intros Hget. unfold CollectionAddEntry, _CRevKeyValue.
  change (CItemPrefix :: encI i ++ encK k) with (member k i).
  destruct (seek_entry_get b (member k i) (member_nonempty k i))
    as [[E G]|[E G]]; [congruence|].
  destruct (seek_entry b (member k i)) as [eKey eValue]. simpl in *.
  now rewrite E.
Qed.

Lemma remove_absent (b : BBucket) (k : K) (i : I) :
  Get b (member k i) = None -> remove b k i = b.
Proof.
  intros Hget. unfold CollectionRemoveEntry, _CRevKeyValue.
  change (CItemPrefix :: encI i ++ encK k) with (member k i).
  destruct (seek_entry_get b (member k i) (member_nonempty k i))
    as [[E G]|[E G]]; [congruence|].
  destruct (seek_entry b (member k i)) as [eKey eValue]. simpl in *.
  now rewrite E.
Qed.

Lemma remove_present (b : BBucket) (k : K) (o0 : O) (i : I) :
  Get b (member k i) = Some (encO o0) ->
  remove b k i
  = _IncCount PackIntFn info
      (Bolt.Delete (Bolt.Delete b (full k o0 i)) (member k i)) k (-1).
Proof.
  intros Hget. unfold CollectionRemoveEntry, _CRevKeyValue.
  change (CItemPrefix :: encI i ++ encK k) with (member k i).
  destruct (seek_entry_get b (member k i) (member_nonempty k i))
    as [[E G]|[E G]]; [|congruence].
  destruct (seek_entry b (member k i)) as [eKey eValue]. simpl in *.
  rewrite E. rewrite Hget in G. injection G as <-. simpl.
  now rewrite read_order.
Qed.

Lemma IncCount_get (b : BBucket) (k : K) (d : Z) (bKey : bytes) :
  Get (_IncCount PackIntFn info b k d) bKey
  = if bytes_eq_dec bKey (ccnt k)
    then Some (pack PackIntFn
                 (wrap_int (snd (FromBytesInto (ccnt k) 0%Z PackIntFn) + d)))
    else Get b bKey.
Proof. unfold _IncCount, ToBytes. apply Get_Put. Qed.

Lemma IncCount_ascending (b : BBucket) (k : K) (d : Z) :
  keys_ascending b -> keys_ascending (_IncCount PackIntFn info b k d).
Proof. intros H. unfold _IncCount. now apply Put_ascending. Qed.

(** *** What the two operations leave in the bucket *)

Local Notation decodeO v := (snd (FromBytesInto v zero (OrderFn info))).
Local Notation counted k d :=
  (pack PackIntFn (wrap_int (snd (FromBytesInto (ccnt k) 0%Z PackIntFn) + d))).

Lemma add_get (b : BBucket) (k : K) (o : O) (i : I) :
  inv b ->
  keys_ascending (add b k o i)
  /\ forall bKey,
      Get (add b k o i) bKey
      = if bytes_eq_dec bKey (full k o i) then Some []
        else if bytes_eq_dec bKey (member k i) then Some (encO o)
        else match Get b (member k i) with
             | None =>
                 if bytes_eq_dec bKey (ccnt k) then Some (counted k 1)
                 else Get b bKey
             | Some v =>
                 if bytes_eq_dec bKey (full k (decodeO v) i) then None
                 else Get b bKey
             end.
Proof.
  intros Hinv. pose proof (cinv_ascending Hinv) as Hasc.
  destruct (Get b (member k i)) as [v|] eqn:G.
  - destruct (member_value b k i v Hinv G) as [o0 ->].
    rewrite read_order. simpl snd.
    destruct (order_dec o0 o) as [->|Hne].
    + rewrite (add_same b k o i G). split; [exact Hasc|].
      intros bKey.
      destruct (bytes_eq_dec bKey (full k o i)) as [->|H1].
      * destruct (Get b (full k o i)) as [v|] eqn:G1.
        -- f_equal. eapply entry_value; eassumption.
        -- exfalso. now apply (proj2 (cinv_pair Hinv k o i)) in G.
      * destruct (bytes_eq_dec bKey (member k i)) as [->|H2];
          [exact G | reflexivity].
    + rewrite (add_move b k o o0 i G Hne). split.
      * repeat apply Put_ascending. now apply Delete_ascending.
      * intros bKey. rewrite !Get_Put, Get_Delete by exact Hasc.
        destruct (bytes_eq_dec bKey (member k i)) as [->|H2].
        -- destruct (bytes_eq_dec (member k i) (full k o i)) as [E|_];
             [discriminate E | reflexivity].
        -- reflexivity.
  - rewrite (add_new b k o i G). split.
    + apply IncCount_ascending. now repeat apply Put_ascending.
    + intros bKey. rewrite IncCount_get, !Get_Put.
      destruct (bytes_eq_dec bKey (ccnt k)) as [->|H3].
      * destruct (bytes_eq_dec (ccnt k) (full k o i)) as [E|_];
          [discriminate E|].
        destruct (bytes_eq_dec (ccnt k) (member k i)) as [E|_];
          [discriminate E | reflexivity].
      * destruct (bytes_eq_dec bKey (member k i)) as [->|H2].
        -- destruct (bytes_eq_dec (member k i) (full k o i)) as [E|_];
             [discriminate E | reflexivity].
        -- reflexivity.
Qed.

Lemma remove_get (b : BBucket) (k : K) (i : I) :
  inv b ->
  keys_ascending (remove b k i)
  /\ forall bKey,
      Get (remove b k i) bKey
      = match Get b (member k i) with
        | None => Get b bKey
        | Some v =>
            if bytes_eq_dec bKey (ccnt k) then Some (counted k (-1))
            else if bytes_eq_dec bKey (member k i) then None
            else if bytes_eq_dec bKey (full k (decodeO v) i) then None
            else Get b bKey
        end.
Proof.
  intros Hinv. pose proof (cinv_ascending Hinv) as Hasc.
  destruct (Get b (member k i)) as [v|] eqn:G.
  - destruct (member_value b k i v Hinv G) as [o0 ->].
    rewrite read_order. simpl snd.
    rewrite (remove_present b k o0 i G). split.
    + apply IncCount_ascending. now repeat apply Delete_ascending.
    + intros bKey. rewrite IncCount_get.
      rewrite !Get_Delete by (try apply Delete_ascending; exact Hasc).
      reflexivity.
  - rewrite (remove_absent b k i G). split; [exact Hasc | reflexivity].
Qed.

Ltac key_cases :=
  repeat match goal with
    | H : full _ _ _ = full _ _ _ |- _ =>
        apply full_inj in H; destruct H as [? [? ?]]; subst
    | H : member _ _ = member _ _ |- _ =>
        apply member_inj in H; destruct H as [? ?]; subst
    | H : ccnt _ = ccnt _ |- _ => apply ccnt_inj in H; subst
    | H : full _ _ _ = member _ _ |- _ => discriminate H
    | H : member _ _ = full _ _ _ |- _ => discriminate H
    | H : full _ _ _ = ccnt _ |- _ => discriminate H
    | H : ccnt _ = full _ _ _ |- _ => discriminate H
    | H : member _ _ = ccnt _ |- _ => discriminate H
    | H : ccnt _ = member _ _ |- _ => discriminate H
    end.

(** The entries and the memberships after an addition. *)
Lemma add_rows (b : BBucket) (k : K) (o : O) (i : I) :
  inv b ->
  (forall k' o' i',
      Get (add b k o i) (full k' o' i')
      = if key_dec k' k
        then if item_dec i' i
             then if order_dec o' o then Some [] else None
             else Get b (full k' o' i')
        else Get b (full k' o' i'))
  /\ (forall k' i',
         Get (add b k o i) (member k' i')
         = if key_dec k' k
           then if item_dec i' i then Some (encO o)
                else Get b (member k' i')
           else Get b (member k' i')).
Proof.
  intros Hinv. destruct (add_get b k o i Hinv) as [_ Hget].
  assert (Hold : forall o', o' <> o ->
             match Get b (member k i) with
             | None =>
                 if bytes_eq_dec (full k o' i) (ccnt k)
                 then Some (counted k 1) else Get b (full k o' i)
             | Some v =>
                 if bytes_eq_dec (full k o' i) (full k (decodeO v) i)
                 then None else Get b (full k o' i)
             end = None).
  { intros o' Hne.
    destruct (Get b (member k i)) as [v|] eqn:G.
    - destruct (bytes_eq_dec (full k o' i) (full k (decodeO v) i));
        [reflexivity|].
      destruct (Get b (full k o' i)) as [v'|] eqn:G'; [|reflexivity].
      exfalso.
      assert (Hx : Get b (member k i) = Some (encO o'))
        by (apply (cinv_pair Hinv); congruence).
      rewrite G in Hx. injection Hx as ->.
      rewrite read_order in n. now apply n.
    - destruct (bytes_eq_dec (full k o' i) (ccnt k)) as [E|_];
        [discriminate E|].
      destruct (Get b (full k o' i)) as [v'|] eqn:G'; [|reflexivity].
      exfalso.
      assert (Hx : Get b (member k i) = Some (encO o'))
        by (apply (cinv_pair Hinv); congruence).
      congruence. }
  split.
  - intros k' o' i'. rewrite Hget.
    destruct (bytes_eq_dec (full k' o' i') (full k o i)) as [E|E].
    + key_cases.
      destruct (key_dec k k); [|congruence].
      destruct (item_dec i i); [|congruence].
      destruct (order_dec o o); [reflexivity|congruence].
    + destruct (bytes_eq_dec (full k' o' i') (member k i)) as [E'|_];
        [discriminate E'|].
      destruct (key_dec k' k) as [->|Hk].
      * destruct (item_dec i' i) as [->|Hi].
        -- destruct (order_dec o' o) as [->|Ho]; [congruence|].
           now apply Hold.
        -- destruct (Get b (member k i)) as [v|].
           ++ destruct (bytes_eq_dec (full k o' i') (full k (decodeO v) i))
                as [E'|_]; [key_cases; congruence | reflexivity].
           ++ destruct (bytes_eq_dec (full k o' i') (ccnt k)) as [E'|_];
                [discriminate E' | reflexivity].
      * destruct (Get b (member k i)) as [v|].
        -- destruct (bytes_eq_dec (full k' o' i') (full k (decodeO v) i))
             as [E'|_]; [key_cases; congruence | reflexivity].
        -- destruct (bytes_eq_dec (full k' o' i') (ccnt k)) as [E'|_];
             [discriminate E' | reflexivity].
  - intros k' i'. rewrite Hget.
    destruct (bytes_eq_dec (member k' i') (full k o i)) as [E|_];
      [discriminate E|].
    destruct (bytes_eq_dec (member k' i') (member k i)) as [E|E].
    + key_cases.
      destruct (key_dec k k); [|congruence].
      destruct (item_dec i i); [reflexivity|congruence].
    + assert (Hrest :
                match Get b (member k i) with
                | None =>
                    if bytes_eq_dec (member k' i') (ccnt k)
                    then Some (counted k 1) else Get b (member k' i')
                | Some v =>
                    if bytes_eq_dec (member k' i') (full k (decodeO v) i)
                    then None else Get b (member k' i')
                end = Get b (member k' i')).
      { destruct (Get b (member k i)) as [v|].
        - destruct (bytes_eq_dec (member k' i') (full k (decodeO v) i))
            as [E'|_]; [discriminate E' | reflexivity].
        - destruct (bytes_eq_dec (member k' i') (ccnt k)) as [E'|_];
            [discriminate E' | reflexivity]. }
      rewrite Hrest.
      destruct (key_dec k' k) as [->|Hk]; [|reflexivity].
      destruct (item_dec i' i) as [->|Hi]; [congruence | reflexivity].
Qed.

Lemma remove_rows (b : BBucket) (k : K) (i : I) :
  inv b ->
  (forall k' o' i',
      Get (remove b k i) (full k' o' i')
      = if key_dec k' k
        then if item_dec i' i then None else Get b (full k' o' i')
        else Get b (full k' o' i'))
  /\ (forall k' i',
         Get (remove b k i) (member k' i')
         = if key_dec k' k
           then if item_dec i' i then None else Get b (member k' i')
           else Get b (member k' i')).
Proof.
  intros Hinv. destruct (remove_get b k i Hinv) as [_ Hget].
  split.
  - intros k' o' i'. rewrite Hget.
    destruct (Get b (member k i)) as [v|] eqn:G.
    + destruct (bytes_eq_dec (full k' o' i') (ccnt k)) as [E|_];
        [discriminate E|].
      destruct (bytes_eq_dec (full k' o' i') (member k i)) as [E|_];
        [discriminate E|].
      destruct (member_value b k i v Hinv G) as [o0 ->].
      rewrite read_order. simpl snd.
      destruct (bytes_eq_dec (full k' o' i') (full k o0 i)) as [E|E].
      * key_cases. destruct (key_dec k k); [|congruence].
        destruct (item_dec i i); [reflexivity|congruence].
      * destruct (key_dec k' k) as [->|Hk]; [|reflexivity].
        destruct (item_dec i' i) as [->|Hi]; [|reflexivity].
        destruct (Get b (full k o' i)) as [v'|] eqn:G'; [|reflexivity].
        exfalso.
        assert (Hx : Get b (member k i) = Some (encO o'))
          by (apply (cinv_pair Hinv); congruence).
        rewrite G in Hx. injection Hx as Hx.
        apply (pack_inj _ _ _ _ (cok_order Hok)) in Hx. congruence.
    + destruct (key_dec k' k) as [->|Hk]; [|reflexivity].
      destruct (item_dec i' i) as [->|Hi]; [|reflexivity].
      destruct (Get b (full k o' i)) as [v'|] eqn:G'; [|reflexivity].
      exfalso.
      assert (Hx : Get b (member k i) = Some (encO o'))
        by (apply (cinv_pair Hinv); congruence).
      congruence.
  - intros k' i'. rewrite Hget.
    destruct (Get b (member k i)) as [v|] eqn:G.
    + destruct (bytes_eq_dec (member k' i') (ccnt k)) as [E|_];
        [discriminate E|].
      destruct (bytes_eq_dec (member k' i') (member k i)) as [E|E].
      * key_cases. destruct (key_dec k k); [|congruence].
        destruct (item_dec i i); [reflexivity|congruence].
      * destruct (bytes_eq_dec (member k' i') (full k (decodeO v) i))
          as [E'|_]; [discriminate E'|].
        destruct (key_dec k' k) as [->|Hk]; [|reflexivity].
        destruct (item_dec i' i) as [->|Hi]; [congruence | reflexivity].
    + destruct (key_dec k' k) as [->|Hk]; [|reflexivity].
      destruct (item_dec i' i) as [->|Hi]; [congruence | reflexivity].
Qed.

(** The invariants follow from the shape of the rows. *)
Lemma inv_from_rows (b b' : BBucket) :
  inv b -> keys_ascending b' ->
  (forall bKey bValue, Get b' bKey = Some bValue ->
     Get b bKey = Some bValue
     \/ entry_row info bKey bValue \/ member_row info bKey bValue
     \/ ccount_row info bKey) ->
  (forall k o i,
      Get b' (full k o i) <> None <->
      Get b' (member k i) = Some (encO o)) ->
  inv b'.
Proof.
  intros Hinv Hasc Hrows Hpair. constructor; [exact Hasc| |exact Hpair].
  intros bKey bValue Hget.
  destruct (Hrows bKey bValue Hget) as [H|H]; [|exact H].
  now apply (cinv_rows Hinv).
Qed.

Lemma add_inv (b : BBucket) (k : K) (o : O) (i : I) :
  inv b -> inv (add b k o i).
Proof.
  intros Hinv. destruct (add_get b k o i Hinv) as [Hasc Hget].
  destruct (add_rows b k o i Hinv) as [Hfull Hmem].
  apply (inv_from_rows b); [exact Hinv | exact Hasc | |].
  - intros bKey bValue. rewrite Hget.
    destruct (bytes_eq_dec bKey (full k o i)) as [->|_].
    { intros H. injection H as <-. right. left. now exists k, o, i. }
    destruct (bytes_eq_dec bKey (member k i)) as [->|_].
    { intros H. injection H as <-. right. right. left. now exists k, o, i. }
    destruct (Get b (member k i)) as [v|].
    + destruct (bytes_eq_dec bKey (full k (decodeO v) i)); [discriminate|].
      now left.
    + destruct (bytes_eq_dec bKey (ccnt k)) as [->|_]; [|now left].
      intros _. right. right. right. now exists k.
  - intros k' o' i'. rewrite Hfull, Hmem.
    destruct (key_dec k' k) as [->|Hk]; [|apply (cinv_pair Hinv)].
    destruct (item_dec i' i) as [->|Hi]; [|apply (cinv_pair Hinv)].
    destruct (order_dec o' o) as [->|Ho].
    + split; [reflexivity | discriminate].
    + split; [congruence|]. intros H. injection H as H.
      apply (pack_inj _ _ _ _ (cok_order Hok)) in H. congruence.
Qed.

Lemma remove_inv (b : BBucket) (k : K) (i : I) :
  inv b -> inv (remove b k i).
Proof.
  intros Hinv. destruct (remove_get b k i Hinv) as [Hasc Hget].
  destruct (remove_rows b k i Hinv) as [Hfull Hmem].
  apply (inv_from_rows b); [exact Hinv | exact Hasc | |].
  - intros bKey bValue. rewrite Hget.
    destruct (Get b (member k i)) as [v|]; [|now left].
    destruct (bytes_eq_dec bKey (ccnt k)) as [->|_].
    { intros _. right. right. right. now exists k. }
    destruct (bytes_eq_dec bKey (member k i)); [discriminate|].
    destruct (bytes_eq_dec bKey (full k (decodeO v) i)); [discriminate|].
    now left.
  - intros k' o' i'. rewrite Hfull, Hmem.
    destruct (key_dec k' k) as [->|Hk]; [|apply (cinv_pair Hinv)].
    destruct (item_dec i' i) as [->|Hi]; [|apply (cinv_pair Hinv)].
    split; [congruence | discriminate].
Qed.

Lemma collection_inv_empty : inv [].
Proof.
  constructor.
  - apply keys_ascending_nil.
  - intros bKey bValue H. discriminate H.
  - intros k o i. simpl. split; [congruence | discriminate].
Qed.

Lemma creachable_inv (b : BBucket) : creachable PackIntFn info b -> inv b.
Proof.
  induction 1.
  - apply collection_inv_empty.
  - now apply add_inv.
  - now apply remove_inv.
Qed.

(** *** Listings *)

Local Notation row_oi :=
  (fun e : entry =>
     let '(_, order, item) := _ReadKeyOrderItem info (fst e) in
     (order, item)).

Lemma key_prefix_full (k k' : K) (o : O) (i : I) :
  HasPrefix (full k' o i) (_CKeyPrefix info k) = true <-> k' = k.
Proof.
  unfold _CKeyFull, _CKeyPrefix. simpl. split.
  - intros H. apply HasPrefix_iff in H. destruct H as [r E].
    apply (pack_app_inj _ _ _ _ _ _ (cok_key Hok)) in E. tauto.
  - intros ->. apply HasPrefix_app.
Qed.

Lemma entries_rows (b : BBucket) (k : K) :
  keys_ascending b ->
  entries b k = map row_oi (with_prefix (_CKeyPrefix info k) b).
Proof.
  intros Hasc. unfold collection_entries, IterateCollection,
    _IterateCollectionCore.
  rewrite RawIterateCore_visited
    by (intros s key v; destruct (_ReadKeyOrderItem info key) as [[? ?] ?];
        reflexivity).
  rewrite visited_regular by exact Hasc. unfold limited. simpl.
  rewrite (fold_left_ext_eq _ _ _ (fun s (e : entry) => s ++ [row_oi e])).
  - now rewrite fold_left_snoc.
  - intros a [key v]. simpl.
    destruct (_ReadKeyOrderItem info key) as [[? ?] ?]. reflexivity.
Qed.

Lemma key_row_shape (b : BBucket) (k : K) (e : entry) :
  inv b -> In e (with_prefix (_CKeyPrefix info k) b) ->
  exists o i, e = (full k o i, []).
Proof.
  intros Hinv Hin. unfold with_prefix in Hin. apply filter_In in Hin.
  destruct Hin as [Hin Hp]. destruct e as [key v]. cbn [fst] in Hp.
  apply (Get_In b key v (cinv_ascending Hinv)) in Hin.
  pose proof (cinv_rows Hinv) as Hrows.
  destruct (Hrows _ _ Hin) as [[k' [o [i [-> ->]]]]|[[k' [o [i [-> _]]]]|
                               [k' ->]]].
  - apply key_prefix_full in Hp. subst k'. now exists o, i.
  - discriminate.
  - discriminate.
Qed.

Lemma entries_iff (b : BBucket) (k : K) (o : O) (i : I) :
  inv b -> (In (o, i) (entries b k) <-> Get b (full k o i) = Some []).
Proof.
  intros Hinv. pose proof (cinv_ascending Hinv) as Hasc.
  rewrite entries_rows by exact Hasc. split.
  - intros Hin. apply in_map_iff in Hin. destruct Hin as [e [He Hin]].
    destruct (key_row_shape b k e Hinv Hin) as [o' [i' ->]].
    cbn [fst] in He. rewrite ReadKeyOrderItem_full in He.
    injection He as -> ->.
    unfold with_prefix in Hin. apply filter_In in Hin.
    now apply (Get_In b _ _ Hasc).
  - intros Hget. apply in_map_iff. exists (full k o i, []). split.
    + cbn [fst]. now rewrite ReadKeyOrderItem_full.
    + unfold with_prefix. apply filter_In. split.
      * now apply (Get_In b _ _ Hasc).
      * cbn [fst]. now apply key_prefix_full.
Qed.

Lemma entries_iff' (b : BBucket) (k : K) (o : O) (i : I) :
  inv b -> (In (o, i) (entries b k) <-> Get b (full k o i) <> None).
Proof.
  intros Hinv. rewrite entries_iff by exact Hinv. split.
  - congruence.
  - intros H. destruct (Get b (full k o i)) as [v|] eqn:G; [|congruence].
    f_equal. eapply entry_value; eassumption.
Qed.

(** X26.  After [CollectionAddEntry] the item is in the collection of the
    key under the given order key, and under no other; the other
    items of that collection and all the other collections are as
    they were.  Adding the same entry once more changes nothing.  The
    invariants of the bucket are kept. *)
Theorem CollectionAddEntry_spec (b : BBucket) (k : K) (o : O) (i : I) :
  inv b ->
  let b' := add b k o i in
  inv b'
  /\ (forall o' i',
         In (o', i') (entries b' k)
         <-> (i' = i /\ o' = o) \/ (i' <> i /\ In (o', i') (entries b k)))
  /\ (forall k' o' i',
         k' <> k ->
         (In (o', i') (entries b' k') <-> In (o', i') (entries b k')))
  /\ add b' k o i = b'.
Proof.
  intros Hinv b'. pose proof (add_inv b k o i Hinv) as Hinv'.
  destruct (add_rows b k o i Hinv) as [Hfull Hmem].
  split; [exact Hinv'|]. split; [|split].
  - intros o' i'. unfold b'.
    rewrite (entries_iff' _ k o' i' Hinv'), (entries_iff' b k o' i' Hinv).
    rewrite Hfull. destruct (key_dec k k) as [_|]; [|congruence].
    destruct (item_dec i' i) as [->|Hi].
    + destruct (order_dec o' o) as [->|Ho].
      * split; [auto | discriminate].
      * split; [congruence|]. intros [[_ ->]|[H _]]; congruence.
    + split; [auto|]. intros [[-> _]|[_ H]]; [congruence | exact H].
  - intros k' o' i' Hk. unfold b'.
    rewrite (entries_iff' _ k' o' i' Hinv'), (entries_iff' b k' o' i' Hinv).
    rewrite Hfull. destruct (key_dec k' k); [congruence | reflexivity].
  - apply add_same. unfold b'. rewrite Hmem.
    destruct (key_dec k k); [|congruence].
    destruct (item_dec i i); [reflexivity | congruence].
Qed.

(** X27.  After [CollectionRemoveEntry] the item is no longer in the
    collection of the key; the other items of that collection and all
    the other collections are as they were.  Removing an item that is
    not in the collection leaves the bucket as it was.  The
    invariants of the bucket are kept. *)
Theorem CollectionRemoveEntry_spec (b : BBucket) (k : K) (i : I) :
  inv b ->
  let b' := remove b k i in
  inv b'
  /\ (forall o' i',
         In (o', i') (entries b' k)
         <-> i' <> i /\ In (o', i') (entries b k))
  /\ (forall k' o' i',
         k' <> k ->
         (In (o', i') (entries b' k') <-> In (o', i') (entries b k')))
  /\ ((forall o', ~ In (o', i) (entries b k)) -> b' = b).
Proof.
  intros Hinv b'. pose proof (remove_inv b k i Hinv) as Hinv'.
  destruct (remove_rows b k i Hinv) as [Hfull Hmem].
  split; [exact Hinv'|]. split; [|split].
  - intros o' i'. unfold b'.
    rewrite (entries_iff' _ k o' i' Hinv'), (entries_iff' b k o' i' Hinv).
    rewrite Hfull. destruct (key_dec k k) as [_|]; [|congruence].
    destruct (item_dec i' i) as [->|Hi].
    + split; [congruence | tauto].
    + tauto.
  - intros k' o' i' Hk. unfold b'.
    rewrite (entries_iff' _ k' o' i' Hinv'), (entries_iff' b k' o' i' Hinv).
    rewrite Hfull. destruct (key_dec k' k); [congruence | reflexivity].
  - intros Hnot. apply remove_absent.
    destruct (Get b (member k i)) as [v|] eqn:G; [|reflexivity].
    exfalso. destruct (member_value b k i v Hinv G) as [o0 ->].
    apply (Hnot o0). apply entries_iff'; [exact Hinv|].
    now apply (cinv_pair Hinv).
Qed.

(** X28.  The count row that [_IncCount] writes for a key is computed from
    the bytes of the row's key, not from the count stored before: the
    addition of an entry that was not there leaves, whatever the
    collection held, the same count row. *)
Theorem collection_count_not_counted (b : BBucket) (k : K) (o : O) (i : I) :
  inv b -> (forall o', ~ In (o', i) (entries b k)) ->
  Get (add b k o i) (ccnt k)
  = Some (pack PackIntFn
            (wrap_int (snd (FromBytesInto (ccnt k) 0%Z PackIntFn) + 1))).
Proof.
  intros Hinv Hnot.
  assert (G : Get b (member k i) = None).
  { destruct (Get b (member k i)) as [v|] eqn:G; [|reflexivity].
    exfalso. destruct (member_value b k i v Hinv G) as [o0 ->].
    apply (Hnot o0). apply entries_iff'; [exact Hinv|].
    now apply (cinv_pair Hinv). }
  rewrite (add_new b k o i G), IncCount_get.
  destruct (bytes_eq_dec (ccnt k) (ccnt k)); [reflexivity | congruence].
Qed.

(** *** Reading a number of items *)

Local Notation item_of_row :=
  (fun e : entry => snd (row_oi e)).

Local Notation counting count :=
  (fun (s : list I * Z) (bKey bValue : bytes) =>
     let '(key, order, item) := _ReadKeyOrderItem info bKey in
     (let '(items, added) := s in
      fun (_k : K) (_o : O) (item : I) =>
        let items := items ++ [item] in
        let added := wrap_int (added + 1) in
        ((added <? count)%Z, (items, added))) key order item).

Lemma scan_counting (p : bytes) (count : Z) :
  forall (l : list entry) (items : list I) (added c0 : Z),
    (0 <= added)%Z -> (added + Z.of_nat (length l) <= int_max)%Z ->
    fst (snd (scan (counting count) p 0 c0 (items, added) l))
    = items
      ++ firstn (Z.to_nat (Z.max 1 (count - added)))
           (map item_of_row (take_prefixed p l)).
Proof.
  induction l as [|[key value] rest IH]; intros items added c0 H0 Hmax.
  - simpl. rewrite firstn_nil. now rewrite app_nil_r.
  - simpl scan. simpl take_prefixed.
    destruct (HasPrefix key p); simpl fst.
    + destruct (_ReadKeyOrderItem info key) as [[k' o'] i'] eqn:Er.
      simpl length in Hmax.
      assert (Hw : wrap_int (added + 1) = (added + 1)%Z).
      { apply wrap_int_small. unfold int_min, int_max in *. lia. }
      rewrite Hw.
      destruct (added + 1 <? count)%Z eqn:Ec; simpl negb; cbv iota.
      * simpl andb. cbv iota. rewrite IH by lia.
        assert (En : Z.to_nat (Z.max 1 (count - added))
                     = S (Z.to_nat (Z.max 1 (count - (added + 1)))))
          by lia.
        rewrite En. simpl. rewrite Er. simpl.
        now rewrite <- app_assoc.
      * assert (En : Z.to_nat (Z.max 1 (count - added)) = 1) by lia.
        rewrite En. simpl. rewrite Er. reflexivity.
    + simpl. rewrite firstn_nil. now rewrite app_nil_r.
Qed.

Lemma read_forward (b : BBucket) (k : K) (items : list I) (count : Z) :
  keys_ascending b -> (Z.of_nat (length b) <= int_max)%Z ->
  ReadCollection info b k items count
  = if (count <? 0)%Z then items
    else items
         ++ firstn (Z.to_nat (Z.max 1 count)) (map snd (entries b k)).
Proof.
  intros Hasc Hlen. unfold ReadCollection.
  destruct (count <? 0)%Z; [reflexivity|].
  unfold IterateCollection, _IterateCollectionCore.
  rewrite RawIterateCore_scan. unfold after_offset. simpl.
  set (w := mkParams (_CKeyPrefix info k) (mkWindow 0 0 [] IterateRegular)).
  pose proof (run_list_length b w) as Hrl.
  pose proof (scan_counting (_CKeyPrefix info k) count (run_list b w)
                items 0%Z 0%Z ltac:(lia) ltac:(lia)) as H.
  rewrite Z.sub_0_r in H. simpl in H. simpl. rewrite H.
  rewrite entries_rows by exact Hasc. rewrite map_map.
  unfold run_list, page_start, w. simpl.
  now rewrite take_prefixed_seek.
Qed.

(** X29.  [ReadCollection] appends the items of the collection of the key,
    in the order of their order keys, up to [count] of them, and
    [ReadCollectionReverse] does so from the other end (for a key
    whose encoding does not end in the byte 0xff).  A negative count
    appends nothing; a count of zero appends one item, like a count of
    one, because the visitor appends before it compares. *)
Theorem ReadCollection_count (b : BBucket) (k : K) (items : list I)
    (count : Z) :
  keys_ascending b -> (Z.of_nat (length b) <= int_max)%Z ->
  ReadCollection info b k items count
  = (if (count <? 0)%Z then items
     else items
          ++ firstn (Z.to_nat (Z.max 1 count)) (map snd (entries b k)))
  /\ ((exists q c, encK k = q ++ [c] /\ c <> xff) ->
      ReadCollectionReverse info b k items count
      = if (count <? 0)%Z then items
        else items
             ++ firstn (Z.to_nat (Z.max 1 count))
                  (rev (map snd (entries b k)))).
Proof.
  intros Hasc Hlen. split; [now apply read_forward|].
  intros [q [c [Eq Hc]]]. unfold ReadCollectionReverse.
  destruct (count <? 0)%Z; [reflexivity|].
  unfold IterateCollectionReverse, _IterateCollectionCore.
  rewrite RawIterateCore_scan. unfold after_offset. simpl.
  set (w := mkParams (_CKeyPrefix info k) (mkWindow 0 0 [] IterateReverse)).
  pose proof (run_list_length b w) as Hrl.
  pose proof (scan_counting (_CKeyPrefix info k) count (run_list b w)
                items 0%Z 0%Z ltac:(lia) ltac:(lia)) as H.
  rewrite Z.sub_0_r in H. simpl in H. simpl. rewrite H.
  rewrite entries_rows by exact Hasc. rewrite map_map, <- map_rev.
  do 3 f_equal.
  unfold run_list, page_start, w. simpl.
  assert (Ep : _CKeyPrefix info k = (CKeyPrefix :: q) ++ [c])
    by (unfold _CKeyPrefix; now rewrite Eq).
  rewrite Ep. simpl length.
  rewrite below_next_prefix by assumption.
  rewrite rev_app_distr. apply take_prefixed_app.
  - apply Forall_rev. apply Forall_forall. intros e He.
    unfold with_prefix in He. apply filter_In in He. tauto.
  - intros e l' El.
    assert (Hin : In e (rev (below_list ((CKeyPrefix :: q) ++ [c]) b)))
      by (rewrite El; now left).
    apply in_rev in Hin.
    pose proof (below_list_lt ((CKeyPrefix :: q) ++ [c]) b) as Hlt.
    rewrite Forall_forall in Hlt. apply lt_not_HasPrefix. now apply Hlt.
Qed.

End CollectionProofs.

(** ** The sequence of a bucket and fresh identifiers *)

Lemma last_greatest (l : BBucket) (e : entry) :
  keys_ascending (l ++ [e]) ->
  Forall (fun e' => bytes_lt (fst e') (fst e)) l.
Proof.
  induction l as [|[k v] l IH]; intros Hasc; [constructor|].
  simpl in Hasc. apply keys_ascending_cons in Hasc.
  destruct Hasc as [Hasc Hall]. constructor.
  - rewrite Forall_forall in Hall. apply (Hall e).
    apply in_or_app. right. now left.
  - now apply IH.
Qed.

Lemma Last_of_bucket (b : BBucket) :
  fst (Last (Cursor_of b)) = hd_error (rev b).
Proof.
  unfold Last, Cursor_of, entries. simpl.
  destruct (rev b); reflexivity.
Qed.

Section Sequences.
Variable fn : PackFn N.

(** The codec reads back the numbers below 2^64 and keeps their
    order. *)
Hypothesis fn_round_trip :
  forall n, (n < 2 ^ 64)%N -> exists rest, unpack fn (pack fn n) = Some (n, rest).
Hypothesis fn_order :
  forall n m, (n < m)%N -> (m < 2 ^ 64)%N -> bytes_lt (pack fn n) (pack fn m).

(** X30.  [RawSetSequenceCorrectly] cannot work on a bucket without
    entries: there is no last key to read the number from, and it
    panics.  On a bucket whose keys are the encodings of numbers below
    2^64 - 1 it sets the sequence to the number of the last key, and
    the identifier that [NextIntId] then returns is one more: it is
    above the number of every key in the bucket, and so is not in
    use. *)
Theorem sequence_fresh_id (b : BBucket) (seq0 : N) :
  keys_ascending b ->
  Forall (fun e => exists n, fst e = pack fn n /\ (n < 2 ^ 64 - 1)%N) b ->
  (unpack fn [] = None -> RawSetSequenceCorrectly fn ([], seq0) = None)
  /\ (b <> [] ->
      exists m,
        RawSetSequenceCorrectly fn (b, seq0) = Some (b, m)
        /\ (exists v, In (pack fn m, v) b)
        /\ fst (RawNextSequence (b, m)) = (m + 1)%N
        /\ fst (NextIntId (b, m)) = wrap_int (Z.of_N (m + 1))
        /\ forall e n, In e b -> fst e = pack fn n -> (n < 2 ^ 64)%N ->
                       (n < fst (RawNextSequence (b, m)))%N).
Proof.
  intros Hasc Hkeys. split.
  - intros Hnil. unfold RawSetSequenceCorrectly. simpl. now rewrite Hnil.
  - intros Hne.
    destruct (rev b) as [|[k v] before] eqn:Er.
    { apply (f_equal (@rev entry)) in Er. rewrite rev_involutive in Er.
      simpl in Er. contradiction. }
    assert (Eb : b = rev before ++ [(k, v)]).
    { apply (f_equal (@rev entry)) in Er. rewrite rev_involutive in Er.
      exact Er. }
    assert (Hin : In (k, v) b)
      by (rewrite Eb; apply in_or_app; right; now left).
    rewrite Forall_forall in Hkeys.
    destruct (Hkeys _ Hin) as [m [Ek Hm]]. simpl in Ek. subst k.
    exists m.
    assert (Hnext : fst (RawNextSequence (b, m)) = (m + 1)%N).
    { unfold RawNextSequence. simpl. apply N.mod_small. lia. }
    split; [|split; [|split; [|split]]].
    + unfold RawSetSequenceCorrectly.
      pose proof (Last_of_bucket b) as HL. simpl fst.
      destruct (Last (Cursor_of b)) as [last c']. simpl in HL.
      rewrite HL, Er. simpl.
      destruct (fn_round_trip m ltac:(lia)) as [rest ->]. reflexivity.
    + now exists v.
    + exact Hnext.
    + unfold NextIntId.
      unfold RawNextSequence in *. simpl in *. now rewrite Hnext.
    + intros e n He En Hn. rewrite Hnext.
      destruct (N.lt_ge_cases m n) as [Hlt|Hge]; [|lia].
      exfalso.
      pose proof (fn_order m n Hlt Hn) as Hord.
      rewrite Eb in Hasc, He.
      pose proof (last_greatest _ _ Hasc) as Hlast.
      apply in_app_or in He. destruct He as [He|[<-|[]]].
      * rewrite Forall_forall in Hlast. specialize (Hlast e He).
        simpl in Hlast. rewrite En in Hlast.
        eapply bytes_lt_asym; eassumption.
      * simpl in En. rewrite En in Hord.
        eapply bytes_lt_irrefl; eassumption.
Qed.
End Sequences.

(** The eight-byte big-endian codec keeps the order of the numbers. *)
Lemma be_bytes_order (w : nat) :
  forall n m, (n < m)%N -> (m < 256 ^ N.of_nat w)%N ->
              bytes_lt (be_bytes w n) (be_bytes w m).
Proof.
  induction w as [|w IH]; intros n m Hlt Hm.
  - simpl in Hm. lia.
  - simpl be_bytes. unfold bytes_lt.
    rewrite Compare_app_fixed by (now rewrite !be_bytes_length).
    rewrite Nat2N.inj_succ, N.pow_succ_r' in Hm.
    assert (Hdiv : (n / 256 <= m / 256)%N) by (apply N.Div0.div_le_mono; lia).
    destruct (N.eq_dec (n / 256) (m / 256)) as [E|E].
    + rewrite E, Compare_refl. simpl. unfold byte_compare.
      rewrite !byte_of_N_to_N.
      assert (Hc : (n mod 256 ?= m mod 256)%N = Lt).
      { apply N.compare_lt_iff.
        pose proof (N.div_mod n 256 ltac:(lia)).
        pose proof (N.div_mod m 256 ltac:(lia)). lia. }
      now rewrite Hc.
    + assert (Hl : bytes_lt (be_bytes w (n / 256)) (be_bytes w (m / 256))).
      { apply IH; [lia|]. apply N.Div0.div_lt_upper_bound. lia. }
      unfold bytes_lt in Hl. now rewrite Hl.
Qed.

(** ** The examples meet the hypotheses *)

Import Examples.

Lemma B1_ascending : keys_ascending B1.
Proof. apply (inv_ascending B1_inv). Qed.

Lemma FByte_round_trip : round_trip FByte.
Proof. intros b. exists []. reflexivity. Qed.

Ltac ascending_rows :=
  unfold keys_ascending; simpl; repeat constructor.

Lemma pairRows_ascending : keys_ascending pairRows.
Proof. ascending_rows. Qed.

Lemma pairTx_bucket (w : bool) :
  tx_Bucket (Buckets (pairTx w)) (BName pairBucket) = Some pairRows.
Proof. reflexivity. Qed.

Lemma pairTx_ascending (w : bool) : tx_ascending (pairTx w).
Proof.
  intros name b. unfold pairTx. cbn [Buckets tx_Bucket].
  destruct (String.eqb (BName pairBucket) name); [|discriminate].
  intros H. injection H as <-. apply pairRows_ascending.
Qed.

Lemma byteCollection_ok : collection_ok byteCollection.
Proof. constructor; apply FByte_self_delimiting. Qed.

Lemma twoItems_inv : collection_inv byteCollection twoItems.
Proof.
  apply (creachable_inv _ _ _ FInt _ byteCollection_ok).
  unfold twoItems. repeat apply creach_add. apply creach_empty.
Qed.

Lemma byteIndex_ok_rev : index_ok (@rev _) FInt byteIndex.
Proof.
  constructor.
  - apply byte_comparable_ok.
  - apply uint16_comparable_ok.
  - apply FByte_self_delimiting.
  - apply FByte_self_delimiting.
  - apply FUInt16_self_delimiting.
  - apply FInt_roundtrip.
  - reflexivity.
  - intros m. apply Permutation_sym. apply Permutation_rev.
Qed.

Lemma FUInt64_round_trip (n : N) :
  (n < 2 ^ 64)%N -> exists rest, unpack FUInt64 (pack FUInt64 n) = Some (n, rest).
Proof.
  intros Hn. exists []. unfold FUInt64. cbn [pack unpack].
  assert (Hlen : length (be_bytes 8 n) = 8) by apply be_bytes_length.
  rewrite Hlen. cbn [Nat.ltb Nat.leb].
  rewrite firstn_all2 by lia. rewrite skipn_all2 by lia.
  rewrite be_value_bytes.
  change (256 ^ N.of_nat 8)%N with (2 ^ 64)%N.
  now rewrite N.mod_small.
Qed.

Lemma FUInt64_order (n m : N) :
  (n < m)%N -> (m < 2 ^ 64)%N -> bytes_lt (pack FUInt64 n) (pack FUInt64 m).
Proof. intros Hlt Hm. apply be_bytes_order; assumption. Qed.

Lemma idRows_ascending : keys_ascending idRows.
Proof. unfold keys_ascending. vm_compute. repeat constructor. Qed.

(** ** Witnesses *)

Lemma regular_window_witness :
  snd (_RawIterateCore collect_rows B1
         (mkParams (_TermKeyPrefix byteIndex x6c)
            (mkWindow 1 1 [] IterateRegular)) [])
  = fold_left (fun s (e : entry) => snd (collect_rows s (fst e) (snd e)))
      (limited 1 (skipn (Z.to_nat 1)
                    (with_prefix (_TermKeyPrefix byteIndex x6c) B1))) [].
Proof.
  apply (regular_window _ collect_rows B1 (_TermKeyPrefix byteIndex x6c) 1 1 []).
  - intros s k v. reflexivity.
  - apply B1_ascending.
Defined.

Lemma reverse_window_witness :
  snd (_RawIterateCore collect_rows B1
         (mkParams (_TermKeyPrefix byteIndex x6c)
            (mkWindow 1 0 [] IterateReverse)) [])
  = fold_left (fun s (e : entry) => snd (collect_rows s (fst e) (snd e)))
      (limited 1 (skipn (Z.to_nat 0)
                    (rev (with_prefix (_TermKeyPrefix byteIndex x6c) B1)))) [].
Proof.
  apply (reverse_window _ collect_rows B1 (_TermKeyPrefix byteIndex x6c) 1 0 []).
  - intros s k v. reflexivity.
  - apply B1_ascending.
  - right. exists [x01], x6c. split; [reflexivity | discriminate].
Defined.

Lemma byte_entry_accepted (k v : byte) : accepted (pack FByte k) (pack FByte v).
Proof.
  unfold accepted, MaxKeySize, MaxValueSize. simpl.
  repeat split; [discriminate | lia | lia].
Qed.

Lemma RawHasKey_iff_Get_witness :
  (RawHasKey (Some pairRows) [x02] = true
   <-> exists v, Get pairRows [x02] = Some v)
  /\ RawHasKey None [x02] = false.
Proof.
  apply (RawHasKey_iff_Get pairRows [x02]). discriminate.
Defined.

Lemma Write_then_Read_witness :
  exists tx',
    Write pairBucket (mkTx true []) x01 x62 = Some tx'
    /\ Read pairBucket tx' x01 x00 = (true, x62, tx')
    /\ HasKey pairBucket tx' x01 = (true, tx').
Proof.
  apply (Write_then_Read byte byte pairBucket byte_comparable_ok
           (mkTx true []) x01 x62 x00).
  - apply FByte_round_trip.
  - reflexivity.
  - discriminate.
  - discriminate.
  - apply byte_entry_accepted.
Defined.

Lemma Write_frame_witness :
  let tx' := mkTx true [(BName pairBucket,
                         [([x01], [x61]); ([x02], [x7a]); ([x03], [x63])])] in
  Writable tx' = Writable (pairTx true)
  /\ (forall (id' : byte) (item0 : byte),
         pack FByte id' <> pack FByte x02 ->
         fst (Read pairBucket tx' id' item0)
         = fst (Read pairBucket (pairTx true) id' item0))
  /\ (forall n, n <> BName pairBucket ->
                tx_Bucket (Buckets tx') n
                = tx_Bucket (Buckets (pairTx true)) n).
Proof.
  intros tx'.
  apply (Write_frame byte byte pairBucket (pairTx true) tx' x02 x7a).
  reflexivity.
Defined.

Lemma Write_last_wins_witness :
  let tx1 := mkTx true [(BName pairBucket,
                         [([x01], [x61]); ([x02], [x7a]); ([x03], [x63])])] in
  Write pairBucket tx1 x02 x7b = Write pairBucket (pairTx true) x02 x7b.
Proof.
  intros tx1.
  apply (Write_last_wins byte byte pairBucket (pairTx true) tx1 x02 x7a x7b).
  reflexivity.
Defined.

Lemma Delete_removes_witness :
  exists tx',
    TypedBucket.Delete pairBucket (pairTx true) x02 = Some tx'
    /\ (forall item0, Read pairBucket tx' x02 item0 = (false, item0, tx'))
    /\ (pack FByte x02 <> [] -> HasKey pairBucket tx' x02 = (false, tx'))
    /\ (forall (id' : byte) (item0 : byte),
           pack FByte id' <> pack FByte x02 ->
           fst (Read pairBucket tx' id' item0)
           = fst (Read pairBucket (pairTx true) id' item0))
    /\ (forall n, n <> BName pairBucket ->
                  tx_Bucket (Buckets tx') n
                  = tx_Bucket (Buckets (pairTx true)) n).
Proof.
  apply (Delete_removes byte byte pairBucket (pairTx true) x02).
  - reflexivity.
  - apply pairTx_ascending.
  - discriminate.
Defined.

Lemma Write_then_Delete_witness :
  match Write pairBucket (pairTx true) x09 x7a with
  | Some tx1 => TypedBucket.Delete pairBucket tx1 x09
  | None => None
  end
  = Some (pairTx true).
Proof.
  apply (Write_then_Delete byte byte pairBucket byte_comparable_ok
           (pairTx true) pairRows x09 x7a).
  - reflexivity.
  - discriminate.
  - reflexivity.
  - apply pairRows_ascending.
  - reflexivity.
  - apply byte_entry_accepted.
Defined.

Lemma read_only_unchanged_witness :
  snd (Read pairBucket (pairTx false) x02 x00) = pairTx false
  /\ Write pairBucket (pairTx false) x02 x7a = None
  /\ TypedBucket.Delete pairBucket (pairTx false) x02 = Some (pairTx false)
  /\ TypedBucket.Delete pairBucket (mkTx false []) x02 = None.
Proof.
  destruct (read_only_unchanged byte byte pairBucket byte_comparable_ok
              (pairTx false) eq_refl) as (_ & HRead & _ & _ & HWrite & HDelete).
  destruct (read_only_unchanged byte byte pairBucket byte_comparable_ok
              (mkTx false []) eq_refl) as (_ & _ & _ & _ & _ & HDelete').
  split; [apply HRead|]. split; [apply HWrite; discriminate|].
  split; [apply (HDelete x02) | apply (HDelete' x02)].
Defined.

Lemma EnsureBuckets_spec_witness :
  EnsureBuckets (pairTx false) sampleInfo = None
  /\ exists tx',
      EnsureBuckets (pairTx true) sampleInfo = Some tx'
      /\ Writable tx' = true
      /\ tx_Bucket (Buckets tx') (BName pairBucket) = Some pairRows
      /\ tx_Bucket (Buckets tx') (Name byteIndex) = Some [].
Proof.
  destruct (EnsureBuckets_spec (pairTx false) sampleInfo) as [Hro _].
  destruct (EnsureBuckets_spec (pairTx true) sampleInfo) as [_ Hrw].
  split; [apply Hro; reflexivity|].
  assert (Hnames : Forall named
                     (BucketList sampleInfo ++ IndexList sampleInfo))
    by (repeat constructor; discriminate).
  destruct (Hrw eq_refl Hnames) as [tx' [E [Hw Hb]]].
  exists tx'. split; [exact E|]. split; [exact Hw|].
  split; rewrite Hb; reflexivity.
Defined.

Lemma IterateAll_order_witness :
  let collect := fun (acc : list (byte * byte)) (key : byte) (item : byte) =>
                   (true, acc ++ [(key, item)]) in
  TypedBucket.IterateAll pairBucket (pairTx false) collect []
  = Some (map (key_item_of pairBucket) pairRows, pairTx false)
  /\ TypedBucket.IterateAllReverse pairBucket (pairTx false) collect []
     = Some (rev (map (key_item_of pairBucket) pairRows), pairTx false).
Proof.
  apply (IterateAll_order byte byte pairBucket (pairTx false) pairRows).
  reflexivity.
Defined.

Lemma ScanList_page_witness :
  TypedBucket.ScanList pairBucket (pairTx false) x02 1 []
  = Some (x03, false, [x62], pairTx false).
Proof.
  apply (ScanList_page byte byte pairBucket (pairTx false) pairRows x02 1 []).
  reflexivity.
Defined.

Lemma IterateInBatches_chunks_witness :
  let items := map (item_of FByte) pairRows in
  let batches := chunks 4 (Z.to_nat 2) items in
  TypedBucket.IterateInBatches pairBucket 4 (pairTx false) 2
    (fun acc l => (true, acc ++ [l])) []
  = Returns (batches, pairTx false)
  /\ concat batches = items.
Proof.
  apply (IterateInBatches_chunks byte byte pairBucket (pairTx false) pairRows
           2 4).
  - reflexivity.
  - apply pairRows_ascending.
  - lia.
  - repeat constructor.
  - repeat constructor; discriminate.
  - simpl. lia.
Defined.

Lemma IterateInBatches_edges_witness :
  TypedBucket.IterateInBatches pairBucket 1 (pairTx false) (-1)
    (fun acc (l : list byte) => (true, acc ++ [l])) []
  = Panics
  /\ TypedBucket.IterateInBatches pairBucket 1 (pairTx false) 0
       (fun acc (l : list byte) => (true, acc ++ [l])) []
     = Returns ([[x61; x62; x63]], pairTx false).
Proof.
  destruct (IterateInBatches_edges byte byte pairBucket (pairTx false) pairRows
              0 (list (list byte)) (fun acc l => (true, acc ++ [l])) []
              eq_refl) as [Hneg Hzero].
  split.
  - pose proof (IterateInBatches_edges byte byte pairBucket (pairTx false)
                  pairRows 1 (list (list byte))
                  (fun acc l => (true, acc ++ [l])) [] eq_refl) as [Hneg' _].
    apply Hneg'. lia.
  - exact Hzero.
Defined.

Lemma IterateBucketFrom_prefix_witness :
  exists resume,
    TypedBucket.IterateBucketFrom pairBucket (pairTx false) x02
      (fun (acc : list (byte * byte)) key item => (true, acc ++ [(key, item)]))
      []
    = Some (resume,
            map (key_item_of pairBucket) (with_prefix (pack FByte x02) pairRows),
            pairTx false).
Proof.
  apply (IterateBucketFrom_prefix byte byte pairBucket (pairTx false) pairRows
           x02).
  - reflexivity.
  - apply pairRows_ascending.
Defined.

Lemma SetTargetTerms_idempotent_witness :
  set_bytes (set_bytes B1 x0a [(x61, uint16_of_N 3)]) x0a [(x61, uint16_of_N 3)]
  = set_bytes B1 x0a [(x61, uint16_of_N 3)].
Proof.
  apply (SetTargetTerms_idempotent _ _ _ _ _ _ byteIndex_ok B1 x0a
           [(x61, uint16_of_N 3)] B1_inv).
  distinct_bytes.
Defined.

Lemma IterateAllTerms_lists_witness :
  let all := IterateAllTerms byteIndex B1
               (fun acc term target priority =>
                  (true, acc ++ [(term, target, priority)])) [] in
  NoDup all
  /\ (In (x6c, x0c, uint16_of_N 5) all
      <-> In (x0c, uint16_of_N 5) (term_pairs byteIndex B1 x6c)).
Proof.
  intros all.
  destruct (IterateAllTerms_lists _ _ _ _ _ _ byteIndex_ok B1 B1_inv)
    as [Hnd Hmem].
  split; [exact Hnd|]. exact (proj1 (Hmem x6c x0c (uint16_of_N 5))).
Defined.

Lemma ReadTermTargetSingle_first_witness :
  ReadTermTargetSingle byteIndex B1 x6c x00
  = match term_pairs byteIndex B1 x6c with
    | [] => (false, x00)
    | (k, _) :: _ => (true, k)
    end.
Proof.
  apply (ReadTermTargetSingle_first _ _ _ byteIndex B1 x6c x00).
  apply B1_ascending.
Defined.

Lemma ReadTermTargets_offset_limit_witness :
  snd (ReadTermTargets byteIndex B1 x6c [] (mkWindow 1 1 [] IterateRegular))
  = [] ++ limited 1 (skipn (Z.to_nat 1)
                       (map fst (term_pairs byteIndex B1 x6c))).
Proof.
  apply (ReadTermTargets_offset_limit _ _ _ byteIndex B1 x6c [] 1 1).
  apply B1_ascending.
Defined.

Lemma ReadTermTargets_reverse_witness :
  snd (ReadTermTargets byteIndex B1 x6c [] (mkWindow 1 0 [] IterateReverse))
  = [] ++ limited 1 (skipn (Z.to_nat 0)
                       (rev (map fst (term_pairs byteIndex B1 x6c)))).
Proof.
  apply (ReadTermTargets_reverse _ _ _ byteIndex B1 x6c [] 1 0).
  - apply B1_ascending.
  - exists [], x6c. split; [reflexivity | discriminate].
Defined.

Lemma ReadTermCount_flag_witness :
  fst (ReadTermCount FInt byteIndex (set_bytes B1 x0a []) x6c 0) = true.
Proof.
  destruct (ReadTermCount_flag _ _ _ _ _ _ byteIndex_ok B1 x6c 0 B1_inv)
    as [_ Hkeep].
  apply (Hkeep x0a []); [constructor | reflexivity].
Defined.

Lemma SetTargetTerms_wrappers_witness :
  target_pairs byteIndex
    (SetTargetSingleTermExt (@in_order _) FInt byteIndex B1 x0a
       (uint16_of_N 9) x61) x0a
  = [(x61, uint16_of_N 9)]
  /\ target_pairs byteIndex
       (DeleteTargetTerms (@in_order _) FInt byteIndex B1 x0a) x0a
     = [].
Proof.
  destruct (SetTargetTerms_wrappers _ _ _ _ _ _ byteIndex_ok B1 x0a B1_inv)
    as (_ & _ & _ & Hext & Hdel).
  split; [apply Hext | exact Hdel].
Defined.

Lemma SetTargetTerms_any_order_witness :
  SetTargetTerms (@in_order _) FInt byteIndex B1 x0a
    [(x61, uint16_of_N 3); (x72, uint16_of_N 1)]
  = SetTargetTerms (@rev _) FInt byteIndex B1 x0a
      [(x61, uint16_of_N 3); (x72, uint16_of_N 1)]
  /\ reachable (@rev _) FInt byteIndex B1.
Proof.
  apply (SetTargetTerms_any_order byte byte uint16 (@in_order _) (@rev _)
           FInt byteIndex B1 x0a
           [(x61, uint16_of_N 3); (x72, uint16_of_N 1)]
           byteIndex_ok byteIndex_ok_rev B1_reachable).
  distinct_bytes.
Defined.

Lemma CollectionAddEntry_spec_witness :
  let b' := CollectionAddEntry FInt byteCollection twoItems x01 x07 x61 in
  In (x07, x61) (collection_entries byteCollection b' x01)
  /\ CollectionAddEntry FInt byteCollection b' x01 x07 x61 = b'.
Proof.
  intros b'.
  destruct (CollectionAddEntry_spec _ _ _ FInt byteCollection byteCollection_ok
              twoItems x01 x07 x61 twoItems_inv) as (_ & Hmem & _ & Hsame).
  split; [|exact Hsame]. apply Hmem. left. split; reflexivity.
Defined.

Lemma CollectionRemoveEntry_spec_witness :
  let b' := CollectionRemoveEntry FInt byteCollection twoItems x01 x61 in
  In (x03, x62) (collection_entries byteCollection b' x01)
  /\ ~ In (x05, x61) (collection_entries byteCollection b' x01).
Proof.
  intros b'.
  destruct (CollectionRemoveEntry_spec _ _ _ FInt byteCollection
              byteCollection_ok twoItems x01 x61 twoItems_inv)
    as (_ & Hmem & _ & _).
  split.
  - refine (proj2 (Hmem x03 x62) (conj _ _)); [discriminate|].
    left. reflexivity.
  - intros Hin. apply (proj1 (Hmem x05 x61)) in Hin.
    destruct Hin as [Hne _]. now apply Hne.
Defined.

Lemma collection_count_not_counted_witness :
  Get (CollectionAddEntry FInt byteCollection twoItems x01 x09 x63)
    (_CCountKey byteCollection x01)
  = Get twoItems (_CCountKey byteCollection x01).
Proof.
  rewrite (collection_count_not_counted _ _ _ FInt byteCollection
             byteCollection_ok twoItems x01 x09 x63 twoItems_inv).
  - reflexivity.
  - intros o' Hin. vm_compute in Hin. intuition discriminate.
Defined.

Lemma ReadCollection_count_witness :
  ReadCollection byteCollection twoItems x01 [] 0 = [x62]
  /\ ReadCollectionReverse byteCollection twoItems x01 [] 5 = [x61; x62].
Proof.
  destruct (ReadCollection_count _ _ _ byteCollection twoItems x01 [] 0
              (cinv_ascending twoItems_inv) ltac:(vm_compute; discriminate))
    as [Hfwd _].
  destruct (ReadCollection_count _ _ _ byteCollection twoItems x01 [] 5
              (cinv_ascending twoItems_inv) ltac:(vm_compute; discriminate))
    as [_ Hrev].
  split.
  - rewrite Hfwd. reflexivity.
  - rewrite Hrev; [reflexivity|].
    exists [], x01. split; [reflexivity | discriminate].
Defined.

Lemma sequence_fresh_id_witness :
  exists m,
    RawSetSequenceCorrectly FUInt64 (idRows, 0%N) = Some (idRows, m)
    /\ fst (NextIntId (idRows, m)) = wrap_int (Z.of_N (m + 1))
    /\ forall e n, In e idRows -> fst e = pack FUInt64 n -> (n < 2 ^ 64)%N ->
                   (n < fst (RawNextSequence (idRows, m)))%N.
Proof.
  destruct (sequence_fresh_id FUInt64 FUInt64_round_trip FUInt64_order
              idRows 0%N idRows_ascending) as [_ H].
  - repeat constructor.
    + exists 1%N. split; reflexivity.
    + exists 2%N. split; reflexivity.
    + exists 260%N. split; reflexivity.
  - destruct (H ltac:(discriminate)) as [m (E & _ & _ & Hid & Hall)].
    exists m. split; [exact E|]. split; [exact Hid | exact Hall].
Defined.
